(** * dbt.clients.jinja: macro invocation, call tracking, template cache,
      native rendering and the materialization tag.

    A shallow embedding of [core/dbt/clients/jinja.py].  Python objects that
    are mutated in place (the macro call stack, the dependency log of a node,
    the template cache, the rendering context) live in explicit stores that
    are threaded through a state-and-exception monad; Python exceptions are
    the left summand of every result. *)

From stdpp Require Import gmap strings list fin_maps pretty.
From Stdlib Require Import ZArith Ascii.

Set Warnings "-register-all".
Local Open Scope Z_scope.
Local Open Scope nat_scope.

(* ===================================================================== *)
(** ** Python values, nodes and exceptions *)
(* ===================================================================== *)

(** The values that flow through templates: the atomic types, lists and
    dictionaries with string keys (kept in insertion order). *)
Inductive value : Type :=
| VNone
| VBool (b : bool)
| VInt (z : Z)
| VStr (s : string)
| VList (items : list value)
| VDict (entries : list (string * value)).

(** What the code reads of a node of the graph; a macro is such a node too
    ([self.macro.unique_id], [self.macro.name], [node.package_name],
    [node.original_file_path], [node.raw_sql]). *)
Record ParsedNode : Type := mkNode {
  unique_id : string;
  name : string;
  package_name : string;
  original_file_path : string;
  raw_sql : string
}.

(** The exception classes the module raises, catches or lets through.
    [UndefinedError] is a subclass of [TemplateRuntimeError] in jinja2;
    [TemplateSyntaxError] is not.  A [CompilationException] carries its
    message, the node it is attributed to and its attribution chain
    ([e.stack], a Python list that handlers append to). *)
Inductive exn : Type :=
| TypeError (msg : string)
| TemplateRuntimeError (msg : string)
| UndefinedError (msg : string)
| TemplateSyntaxError (msg : string)
| CompilationException (msg : string) (node : option ParsedNode)
                       (stack : list ParsedNode)
| InternalException (msg : string)
| MacroReturn (v : value)
| AttributeError (msg : string)
| IndexError (msg : string)
| OtherException (cls msg : string).

(** [isinstance(e, jinja2.exceptions.TemplateRuntimeError)] *)
Definition is_TemplateRuntimeError (e : exn) : bool :=
  match e with
  | TemplateRuntimeError _ | UndefinedError _ => true
  | _ => false
  end.

(** [isinstance(e, TypeError)] *)
Definition is_TypeError (e : exn) : bool :=
  match e with
  | TypeError _ => true
  | _ => false
  end.

(** [str(e)] for the exceptions whose text the module reuses. *)
Definition exn_str (e : exn) : string :=
  match e with
  | TypeError m | TemplateRuntimeError m | UndefinedError m
  | TemplateSyntaxError m | InternalException m | AttributeError m
  | IndexError m | OtherException _ m => m
  | CompilationException m _ _ => m
  | MacroReturn _ => ""
  end.

(** Modelled from the spec: [dbt.exceptions.raise_compiler_error(msg, node)],
    which is imported but not defined in this file.  The compiler-error
    domain has "a constructor taking a message and an optional owning node";
    a fresh error starts with an empty attribution chain. *)
Definition compiler_error (msg : string) (node : option ParsedNode) : exn :=
  CompilationException msg node [].

(* ===================================================================== *)
(** ** The state-and-exception monad *)
(* ===================================================================== *)

(** Stateful code that may raise: a function from the store to an outcome
    (an exception or a result) and the store it leaves. *)
Definition ST (S A : Type) : Type := S → (exn + A) * S.

Definition ret {S A} (a : A) : ST S A := λ s, (inr a, s).

Definition raise {S A} (e : exn) : ST S A := λ s, (inl e, s).

Definition bind {S A B} (c : ST S A) (k : A → ST S B) : ST S B := λ s,
  match c s with
  | (inl e, s1) => (inl e, s1)
  | (inr a, s1) => k a s1
  end.

Notation "'let!' x ':=' c 'in' k" := (bind c (λ x, k))
  (at level 10, x name, c at level 100, k at level 200).
Notation "'do!' c 'in' k" := (bind c (λ _, k))
  (at level 10, c at level 100, k at level 200).

(** [try: body finally: fin].  The [finally] block runs on every exit of
    [body]; when it raises, its exception replaces the outcome of [body]. *)
Definition try_finally {S A} (body : ST S A) (fin : ST S unit) : ST S A := λ s,
  match body s with
  | (r, s1) =>
      match fin s1 with
      | (inl e, s2) => (inl e, s2)
      | (inr _, s2) => (r, s2)
      end
  end.

(** The mutable objects macro invocation touches:
    - [stacks]: every [MacroStack] object, by reference, with its
      [call_stack] list (a stack that was never pushed to is empty);
    - [edges]: the calls made to [node.depends_on.add_macro], in order, as
      (owning node, macro) pairs of unique ids. *)
Record State : Type := mkState {
  stacks : gmap nat (list string);
  edges : list (string * string)
}.

Abbreviation M := (ST State).

(* ===================================================================== *)
(** ** MacroStack *)
(* ===================================================================== *)

Module MacroStack.

(** [self.call_stack] of the stack object [r]. *)
Definition call_stack (r : nat) (s : State) : list string := stacks s !!! r.

Definition set_call_stack (r : nat) (l : list string) (s : State) : State :=
  mkState (<[r := l]> (stacks s)) (edges s).

(** [depth]: [len(self.call_stack)] *)
Definition depth (r : nat) : M nat := λ s, (inr (length (call_stack r s)), s).

(** [push]: [self.call_stack.append(name)] *)
Definition push (r : nat) (name : string) : M unit := λ s,
  (inr tt, set_call_stack r (call_stack r s ++ [name]) s).

(** [pop]: [got = self.call_stack.pop()] removes the last element (and
    raises [IndexError] on an empty list); a mismatch raises after the
    element has been removed. *)
Definition pop (r : nat) (name : string) : M unit := λ s,
  match last (call_stack r s) with
  | None => (inl (IndexError "pop from empty list"), s)
  | Some got =>
      let s1 := set_call_stack r (removelast (call_stack r s)) s in
      if decide (got = name) then (inr tt, s1)
      else (inl (InternalException
                   ("popped " +:+ got +:+ ", expected " +:+ name)), s1)
  end.

End MacroStack.

(** Modelled from the spec: [node.depends_on.add_macro(unique_id)], the
    "dependency-registration operation" of the owning node, which lives
    outside this file.  Each call is recorded as one edge from the node to
    the macro. *)
Definition add_macro (n : ParsedNode) (macro_id : string) : M unit := λ s,
  (inr tt, mkState (stacks s) (edges s ++ [(unique_id n, macro_id)])).

(* ===================================================================== *)
(** ** BaseMacroGenerator and MacroGenerator *)
(* ===================================================================== *)

(** The fields of a [MacroGenerator]: the macro, the context (or [None]),
    the owning node (or [None]) and a reference to the stack (or [None]). *)
Record MacroGenerator : Type := mkGen {
  macro : ParsedNode;
  context : option (gmap string value);
  node : option ParsedNode;
  stack : option nat
}.

(** [MacroGenerator.exception_handler]: the first [except] clause turns a
    [TypeError] or [TemplateRuntimeError] into a compiler error on
    [self.macro]; the second appends [self.macro] to the chain of a
    [CompilationException] and re-raises it.  An exception raised inside the
    first clause is not seen by the second.  Anything else propagates. *)
Definition exception_handler {A} (g : MacroGenerator) (body : M A) : M A := λ s,
  match body s with
  | (inl e, s1) =>
      if is_TypeError e || is_TemplateRuntimeError e
      then (inl (compiler_error (exn_str e) (Some (macro g))), s1)
      else match e with
           | CompilationException msg n st =>
               (inl (CompilationException msg n (st ++ [macro g])), s1)
           | _ => (inl e, s1)
           end
  | (inr a, s1) => (inr a, s1)
  end.

(** [try: return macro(...)  except MacroReturn as e: return e.value] *)
Definition catch_MacroReturn (body : M value) : M value := λ s,
  match body s with
  | (inl (MacroReturn v), s1) => (inr v, s1)
  | other => other
  end.

(** [BaseMacroGenerator.call_macro].  [get_macro] is the outcome of
    [self.get_macro()]: the compiled macro callable (applied to the
    arguments of this call), or the exception raised while resolving it. *)
Definition call_macro (g : MacroGenerator) (get_macro : exn + M value)
  : M value :=
  match context g with
  | None => raise (InternalException "Context is still None in call_macro!")
  | Some _ =>
      match get_macro with
      | inl e => raise e
      | inr macro_fn => exception_handler g (catch_MacroReturn macro_fn)
      end
  end.

(** [MacroGenerator.track_call], a context manager around [body]. *)
Definition track_call {A} (g : MacroGenerator) (body : M A) : M A :=
  match stack g, node g with
  | Some r, Some n =>
      let uid := unique_id (macro g) in
      let! d := MacroStack.depth r in
      do! (if decide (d = 0) then add_macro n uid else ret tt) in
      do! MacroStack.push r uid in
      try_finally body (MacroStack.pop r uid)
  | _, _ => body
  end.

(** [MacroGenerator.__call__] *)
Definition call (g : MacroGenerator) (get_macro : exn + M value) : M value :=
  track_call g (call_macro g get_macro).

(** *** Macro bodies

    What a compiled macro does when it is called, as far as this module can
    observe it: it returns a value, raises, or invokes another
    [MacroGenerator] found in its context and goes on with the value that
    call returned (an exception of the inner call propagates: templates
    have no handlers).  The resolution of the inner generator's macro
    either yields its callable or fails. *)
Inductive callable : Type :=
| Returns (v : value)
| Raises (e : exn)
| Calls (g : MacroGenerator) (m : resolution) (k : value → callable)
with resolution : Type :=
| Resolved (c : callable)
| Unresolved (e : exn).

Fixpoint run (c : callable) : M value :=
  match c with
  | Returns v => ret v
  | Raises e => raise e
  | Calls g m k => let! v := call g (resolve m) in run (k v)
  end
with resolve (m : resolution) : exn + M value :=
  match m with
  | Resolved c => inr (run c)
  | Unresolved e => inl e
  end.

Scheme callable_ind2 := Induction for callable Sort Prop
  with resolution_ind2 := Induction for resolution Sort Prop.
Combined Scheme callable_resolution_ind from callable_ind2, resolution_ind2.

(** Every generator invoked in the tree tracks its calls on stack [r]. *)
Fixpoint chain_on (r : nat) (c : callable) : Prop :=
  match c with
  | Returns _ | Raises _ => True
  | Calls g m k =>
      stack g = Some r ∧ chain_on_res r m ∧ ∀ v, chain_on r (k v)
  end
with chain_on_res (r : nat) (m : resolution) : Prop :=
  match m with
  | Resolved c => chain_on r c
  | Unresolved _ => True
  end.

(* ===================================================================== *)
(** ** Call tracking: balance of the stack *)
(* ===================================================================== *)

Section Tracking.

Import MacroStack.

(** A computation that leaves every call stack as it found it. *)
Definition keeps_stacks {A} (c : M A) : Prop :=
  ∀ s r, call_stack r (c s).2 = call_stack r s.

Lemma keeps_ret {A} (a : A) : keeps_stacks (ret a).
Proof. by intros s r. Qed.

Lemma keeps_raise {A} (e : exn) : keeps_stacks (@raise State A e).
Proof. by intros s r. Qed.

Lemma keeps_bind {A B} (c : M A) (k : A → M B) :
  keeps_stacks c → (∀ a, keeps_stacks (k a)) → keeps_stacks (bind c k).
Proof.
  intros Hc Hk s r. unfold bind. specialize (Hc s r).
  destruct (c s) as [[e|a] s1]; simpl in *; [done|].
  by rewrite Hk.
Qed.

Lemma exception_handler_state {A} g (body : M A) s :
  (exception_handler g body s).2 = (body s).2.
Proof.
  unfold exception_handler. destruct (body s) as [[e|a] s1]; [|done].
  destruct (is_TypeError e || is_TemplateRuntimeError e); [done|].
  by destruct e.
Qed.

Lemma catch_MacroReturn_state body s :
  (catch_MacroReturn body s).2 = (body s).2.
Proof.
  unfold catch_MacroReturn. destruct (body s) as [[e|a] s1]; [|done].
  by destruct e.
Qed.

Lemma call_macro_state g get_macro s :
  (call_macro g get_macro s).2 =
  match context g, get_macro with
  | Some _, inr f => (f s).2
  | _, _ => s
  end.
Proof.
  unfold call_macro. destruct (context g); [|done].
  destruct get_macro as [e|f]; [done|].
  by rewrite exception_handler_state, catch_MacroReturn_state.
Qed.

(** The state in which the body of a tracked call starts: the edge is
    registered when the stack is empty, then the identity is pushed. *)
Definition enter (r : nat) (n : ParsedNode) (uid : string) (s : State) : State :=
  let s0 := if decide (length (call_stack r s) = 0)
            then mkState (stacks s) (edges s ++ [(unique_id n, uid)])
            else s in
  set_call_stack r (call_stack r s0 ++ [uid]) s0.

Lemma track_call_tracked {A} g r n (body : M A) s :
  stack g = Some r → node g = Some n →
  track_call g body s =
  try_finally body (pop r (unique_id (macro g)))
              (enter r n (unique_id (macro g)) s).
Proof.
  intros Hr Hn. unfold track_call, enter. rewrite Hr, Hn.
  unfold bind, depth, add_macro, push, ret; simpl.
  by destruct (decide (length (call_stack r s) = 0)).
Qed.

Lemma call_stack_set r l s : call_stack r (set_call_stack r l s) = l.
Proof. unfold call_stack, set_call_stack; simpl. apply lookup_total_insert_eq. Qed.

Lemma call_stack_set_ne r r' l s :
  r ≠ r' → call_stack r' (set_call_stack r l s) = call_stack r' s.
Proof.
  intros Hne. unfold call_stack, set_call_stack; simpl.
  by apply lookup_total_insert_ne.
Qed.

Lemma call_stack_enter r n uid s :
  call_stack r (enter r n uid s) = call_stack r s ++ [uid].
Proof.
  unfold enter. rewrite call_stack_set.
  by destruct (decide (length (call_stack r s) = 0)).
Qed.

Lemma call_stack_enter_ne r r' n uid s :
  r ≠ r' → call_stack r' (enter r n uid s) = call_stack r' s.
Proof.
  intros Hne. unfold enter. rewrite call_stack_set_ne by done.
  by destruct (decide (length (call_stack r s) = 0)).
Qed.

Lemma edges_enter r n uid s :
  edges (enter r n uid s) =
  edges s ++ (if decide (length (call_stack r s) = 0)
              then [(unique_id n, uid)] else []).
Proof.
  unfold enter; simpl.
  destruct (decide (length (call_stack r s) = 0)); simpl; [done|].
  by rewrite app_nil_r.
Qed.

(** Popping the identity that is on top succeeds and removes it. *)
Lemma pop_top r uid l s :
  call_stack r s = l ++ [uid] →
  pop r uid s = (inr tt, set_call_stack r l s).
Proof.
  intros Hs. unfold pop. rewrite Hs, last_snoc, removelast_last.
  by rewrite decide_True.
Qed.

(** A tracked call around a balanced body is balanced, and its result is
    the result of the body. *)
Lemma track_call_balanced {A} g r n (body : M A) s :
  stack g = Some r → node g = Some n → keeps_stacks body →
  let s1 := enter r n (unique_id (macro g)) s in
  track_call g body s =
  ((body s1).1, set_call_stack r (call_stack r s) (body s1).2).
Proof.
  intros Hr Hn Hb s1. rewrite (track_call_tracked g r n) by done.
  fold s1. unfold try_finally.
  pose proof (Hb s1 r) as Hs1. unfold s1 in Hs1 at 2.
  rewrite call_stack_enter in Hs1.
  destruct (body s1) as [res s2]; simpl in *.
  by rewrite (pop_top _ _ _ _ Hs1).
Qed.

Lemma keeps_track_call {A} g (body : M A) :
  keeps_stacks body → keeps_stacks (track_call g body).
Proof.
  intros Hb. destruct (stack g) as [r|] eqn:Hr, (node g) as [n|] eqn:Hn;
    try (unfold track_call; rewrite Hr, ?Hn; done).
  intros s r'. rewrite (track_call_balanced g r n) by done. simpl.
  destruct (decide (r = r')) as [<-|Hne].
  - by rewrite call_stack_set.
  - rewrite call_stack_set_ne, Hb by done. by apply call_stack_enter_ne.
Qed.

Lemma keeps_call_macro g get_macro :
  match get_macro with inr f => keeps_stacks f | inl _ => True end →
  keeps_stacks (call_macro g get_macro).
Proof.
  intros Hf s r. rewrite call_macro_state.
  destruct (context g); [|done]. destruct get_macro; [done|]. apply Hf.
Qed.

Lemma keeps_call g get_macro :
  match get_macro with inr f => keeps_stacks f | inl _ => True end →
  keeps_stacks (call g get_macro).
Proof. intros Hf. by apply keeps_track_call, keeps_call_macro. Qed.

(** Every macro body leaves the stacks as it found them. *)
Lemma run_keeps_stacks :
  (∀ c, keeps_stacks (run c)) ∧
  (∀ m, match resolve m with inr f => keeps_stacks f | inl _ => True end).
Proof.
  apply callable_resolution_ind; simpl; intros.
  - apply keeps_ret.
  - apply keeps_raise.
  - apply keeps_bind; [by apply keeps_call | done].
  - done.
  - done.
Qed.

End Tracking.

(* ===================================================================== *)
(** ** Call tracking: which calls register an edge *)
(* ===================================================================== *)

Section Registration.

Import MacroStack.

(** What a resolved macro must satisfy for the lemmas on [call] below. *)
Definition quiet_on (r : nat) (get_macro : exn + M value) : Prop :=
  match get_macro with
  | inr f => keeps_stacks f ∧
             ∀ s, call_stack r s ≠ [] → edges (f s).2 = edges s
  | inl _ => True
  end.

Lemma call_macro_edges g r get_macro s :
  quiet_on r get_macro → call_stack r s ≠ [] →
  edges (call_macro g get_macro s).2 = edges s.
Proof.
  intros Hq Hs. rewrite call_macro_state.
  destruct (context g); [|done]. destruct get_macro as [e|f]; [done|].
  by apply Hq.
Qed.

Lemma quiet_keeps r get_macro :
  quiet_on r get_macro →
  match get_macro with inr f => keeps_stacks f | inl _ => True end.
Proof. destruct get_macro; [done|]. by intros [? _]. Qed.

Lemma call_edges_tracked g r n get_macro s :
  stack g = Some r → node g = Some n → quiet_on r get_macro →
  edges (call g get_macro s).2 =
  edges s ++ (if decide (length (call_stack r s) = 0)
              then [(unique_id n, unique_id (macro g))] else []).
Proof.
  intros Hr Hn Hq. unfold call.
  rewrite (track_call_balanced g r n);
    [|done..|by apply keeps_call_macro, (quiet_keeps r)].
  simpl. rewrite (call_macro_edges g r), edges_enter; [done..|].
  rewrite call_stack_enter. by destruct (call_stack r s).
Qed.

Lemma call_edges_untracked g r get_macro s :
  stack g = Some r → node g = None → quiet_on r get_macro →
  call_stack r s ≠ [] → edges (call g get_macro s).2 = edges s.
Proof.
  intros Hr Hn Hq Hs. unfold call, track_call. rewrite Hr, Hn.
  by apply (call_macro_edges g r).
Qed.

Lemma call_edges_inner g r get_macro s :
  stack g = Some r → quiet_on r get_macro →
  call_stack r s ≠ [] → edges (call g get_macro s).2 = edges s.
Proof.
  intros Hr Hq Hs. destruct (node g) as [n|] eqn:Hn.
  - rewrite (call_edges_tracked g r n) by done.
    rewrite decide_False, app_nil_r; [done|].
    by destruct (call_stack r s).
  - by apply (call_edges_untracked g r).
Qed.

(** Below a non-empty stack no call of a chain registers anything. *)
Lemma run_registers_nothing r :
  (∀ c, chain_on r c →
     ∀ s, call_stack r s ≠ [] → edges (run c s).2 = edges s) ∧
  (∀ m, chain_on_res r m → quiet_on r (resolve m)).
Proof.
  apply callable_resolution_ind; simpl.
  - done.
  - done.
  - intros g m IHm k IHk (Hr & Hm & Hk) s Hs. unfold bind.
    pose proof (call_edges_inner g r _ s Hr (IHm Hm) Hs) as He.
    pose proof (keeps_call g (resolve m) (quiet_keeps r _ (IHm Hm)) s r) as Hk'.
    destruct (call g (resolve m) s) as [[e|v] s1]; simpl in *; [done|].
    rewrite IHk; [done..|]. by rewrite Hk'.
  - intros c IH Hc. split; [apply run_keeps_stacks | by apply IH].
  - done.
Qed.

(** The outcome of a macro body does not depend on the state it runs in. *)
Definition stateless (get_macro : exn + M value) : Prop :=
  match get_macro with
  | inr f => keeps_stacks f ∧ ∀ s s', (f s).1 = (f s').1
  | inl _ => True
  end.

Lemma call_macro_result g get_macro s s' :
  stateless get_macro →
  (call_macro g get_macro s).1 = (call_macro g get_macro s').1.
Proof.
  intros Hf. unfold call_macro. destruct (context g); [|done].
  destruct get_macro as [e|f]; [done|]. destruct Hf as [_ Hf].
  unfold exception_handler, catch_MacroReturn. specialize (Hf s s').
  destruct (f s) as [[e|v] s1], (f s') as [[e'|v'] s1'];
    simpl in Hf; simplify_eq; [|done].
  destruct e'; simpl; done.
Qed.

Lemma call_result g get_macro s s' :
  stateless get_macro →
  (call g get_macro s).1 = (call_macro g get_macro s').1.
Proof.
  intros Hf. unfold call.
  destruct (stack g) as [r|] eqn:Hr, (node g) as [n|] eqn:Hn;
    try (unfold track_call; rewrite Hr, ?Hn; by apply call_macro_result).
  rewrite (track_call_balanced g r n); [|done..|].
  - simpl. by apply call_macro_result.
  - apply keeps_call_macro. destruct get_macro; [done|]. apply Hf.
Qed.

Lemma run_stateless :
  (∀ c s s', (run c s).1 = (run c s').1) ∧ (∀ m, stateless (resolve m)).
Proof.
  apply callable_resolution_ind; simpl.
  - done.
  - done.
  - intros g m IHm k IHk s s'. unfold bind.
    pose proof (call_result g _ s s IHm) as H1.
    pose proof (call_result g _ s' s IHm) as H2.
    rewrite <- H2 in H1. clear H2.
    destruct (call g (resolve m) s) as [[e|v] s1],
             (call g (resolve m) s') as [[e'|v'] s1'];
      simpl in H1; simplify_eq; [done|]. apply IHk.
  - intros c IH. split; [apply run_keeps_stacks | done].
  - done.
Qed.

End Registration.

(* ===================================================================== *)
(** ** Macro invocation: the properties *)
(* ===================================================================== *)

(** A model, an outer macro that calls an inner one, and an inner macro
    whose body fails with a [TypeError]. *)
Definition model_node : ParsedNode :=
  mkNode "model.proj.orders" "orders" "proj" "models/orders.sql" "select 1".
Definition outer_macro : ParsedNode :=
  mkNode "macro.proj.outer" "outer" "proj" "macros/m.sql" "".
Definition inner_macro : ParsedNode :=
  mkNode "macro.proj.inner" "inner" "proj" "macros/m.sql" "".
Definition outer_gen : MacroGenerator :=
  mkGen outer_macro (Some ∅) (Some model_node) (Some 0).
Definition inner_gen : MacroGenerator :=
  mkGen inner_macro (Some ∅) (Some model_node) (Some 0).
Definition failing_chain : resolution :=
  Resolved (Calls inner_gen (Resolved (Raises (TypeError "bad operand")))
                  (λ v, Returns v)).
Definition empty_state : State := mkState ∅ [].

(** C1.  In a chain of nested invocations that track their calls on one
    stack, an invocation registers the edge (owning node, macro) exactly
    when the stack is empty on entry; everything it invokes runs above a
    non-empty stack, so the whole call adds that one edge at depth 0 and
    no edge at a depth above 0. *)
Theorem only_depth_zero_registers g m r n s :
  stack g = Some r → node g = Some n → chain_on_res r m →
  edges (call g (resolve m) s).2 =
  edges s ++ (if decide (length (MacroStack.call_stack r s) = 0)
              then [(unique_id n, unique_id (macro g))] else []).
Proof.
  intros Hr Hn Hm.
  apply (call_edges_tracked g r n); [done..|].
  by apply run_registers_nothing.
Qed.

Lemma only_depth_zero_registers_witness :
  edges (call outer_gen (resolve failing_chain) empty_state).2 =
  edges empty_state ++
  (if decide (length (MacroStack.call_stack 0 empty_state) = 0)
   then [(unique_id model_node, unique_id (macro outer_gen))] else []).
Proof.
  apply (only_depth_zero_registers outer_gen failing_chain 0 model_node).
  - reflexivity.
  - reflexivity.
  - simpl. split; [reflexivity | split; [exact I | intros; exact I]].
Defined.

(** C2.  A tracked invocation leaves every call stack, and so the depth,
    as it found it, whatever the macro body does (return, raise, invoke
    further macros); the pop runs after every body, also one that raises
    or is not balanced itself; and [pop name] on a stack whose top is
    another identity raises the internal error. *)
Theorem macro_call_stack_balanced g m r n s :
  stack g = Some r → node g = Some n →
  (∀ r', MacroStack.call_stack r' (call g (resolve m) s).2 =
         MacroStack.call_stack r' s) ∧
  (MacroStack.depth r (call g (resolve m) s).2).1 = (MacroStack.depth r s).1 ∧
  (∀ body : M value,
     MacroStack.call_stack r (track_call g body s).2 =
     removelast (MacroStack.call_stack r
                   (body (enter r n (unique_id (macro g)) s)).2)) ∧
  (∀ s' l got expected,
     MacroStack.call_stack r s' = l ++ [got] → got ≠ expected →
     MacroStack.pop r expected s' =
     (inl (InternalException ("popped " +:+ got +:+ ", expected " +:+ expected)),
      MacroStack.set_call_stack r l s')).
Proof.
  intros Hr Hn.
  assert (Hk : keeps_stacks (call g (resolve m)))
    by apply keeps_call, run_keeps_stacks.
  split; [|split; [|split]].
  - intros r'. apply Hk.
  - unfold MacroStack.depth; simpl. by rewrite Hk.
  - intros body. rewrite (track_call_tracked g r n) by done.
    unfold try_finally, MacroStack.pop.
    destruct (body _) as [res s2]; simpl.
    destruct (MacroStack.call_stack r s2) as [|x l] eqn:Hs2 using rev_ind.
    + simpl. by rewrite Hs2.
    + rewrite last_snoc, removelast_last.
      destruct (decide (x = unique_id (macro g))); simpl;
        by rewrite call_stack_set.
  - intros s' l got expected Hs' Hne. unfold MacroStack.pop.
    rewrite Hs', last_snoc, removelast_last. by rewrite decide_False.
Qed.

Lemma macro_call_stack_balanced_witness :
  (MacroStack.depth 0 (call outer_gen (resolve failing_chain) empty_state).2).1
  = (MacroStack.depth 0 empty_state).1.
Proof.
  apply (macro_call_stack_balanced outer_gen failing_chain 0 model_node
           empty_state); reflexivity.
Defined.

(** C4.  With a context and a resolved macro, [call_macro] returns what the
    macro returns; an early-return signal becomes the returned value; a
    [TypeError] or template-runtime error becomes a compiler error with the
    same text attributed to this macro; a compiler error is re-raised with
    this macro appended to its chain; any other exception propagates
    unchanged. *)
Theorem call_macro_translates_exceptions g ctx (macro_fn : M value) s :
  context g = Some ctx →
  call_macro g (inr macro_fn) s =
  match macro_fn s with
  | (inr v, s1) => (inr v, s1)
  | (inl (MacroReturn v), s1) => (inr v, s1)
  | (inl (TypeError msg), s1)
  | (inl (TemplateRuntimeError msg), s1)
  | (inl (UndefinedError msg), s1) =>
      (inl (CompilationException msg (Some (macro g)) []), s1)
  | (inl (CompilationException msg n st), s1) =>
      (inl (CompilationException msg n (st ++ [macro g])), s1)
  | (inl e, s1) => (inl e, s1)
  end.
Proof.
  intros Hctx. unfold call_macro. rewrite Hctx.
  unfold exception_handler, catch_MacroReturn.
  destruct (macro_fn s) as [[e|v] s1]; [|done]. by destruct e.
Qed.

Lemma call_macro_translates_exceptions_witness :
  call_macro inner_gen (inr (raise (TypeError "bad operand"))) empty_state =
  (inl (CompilationException "bad operand" (Some inner_macro) []), empty_state).
Proof.
  apply (call_macro_translates_exceptions inner_gen ∅
           (raise (TypeError "bad operand")) empty_state).
  reflexivity.
Defined.

(** C10.  A generator without a stack or without a node runs its body with
    no tracking around it (a call is just [call_macro]: no depth read, no
    edge, no push, no pop), and the result is the result the same call
    gives with tracking on. *)
Theorem untracked_call_does_no_tracking g m s :
  stack g = None ∨ node g = None →
  (∀ A (body : M A), track_call g body = body) ∧
  call g (resolve m) s = call_macro g (resolve m) s ∧
  ∀ r n s',
    (call (mkGen (macro g) (context g) (Some n) (Some r)) (resolve m) s').1
    = (call g (resolve m) s).1.
Proof.
  intros Hnone.
  assert (Ht : ∀ A (body : M A), track_call g body = body).
  { intros A body. unfold track_call.
    destruct Hnone as [-> | ->]; [done|]. by destruct (stack g). }
  split; [done|]. split; [unfold call; by rewrite Ht|].
  intros r n s'. unfold call at 2. rewrite Ht.
  rewrite (call_result _ _ s' s) by apply run_stateless.
  by unfold call_macro.
Qed.

Lemma untracked_call_does_no_tracking_witness :
  call (mkGen outer_macro (Some ∅) None (Some 0)) (resolve failing_chain)
       empty_state
  = call_macro (mkGen outer_macro (Some ∅) None (Some 0))
               (resolve failing_chain) empty_state.
Proof.
  apply (untracked_call_does_no_tracking
           (mkGen outer_macro (Some ∅) None (Some 0)) failing_chain
           empty_state).
  right. reflexivity.
Defined.

(* ===================================================================== *)
(** ** Environments, templates and rendering *)
(* ===================================================================== *)

(** [isinstance(e, Exception)].  [MacroReturn] is a control signal that
    derives from [BaseException], so an [except Exception] clause lets it
    through. *)
Definition is_Exception (e : exn) : bool :=
  match e with
  | MacroReturn _ => false
  | _ => true
  end.

(** What [get_environment] decides about an environment: its class
    ([NativeSandboxEnvironment] or [MacroFuzzEnvironment]), its extensions
    and whether [create_undefined(node)] is its undefined-value factory. *)
Record Environment : Type := mkEnv {
  env_native : bool;
  extensions : list string;
  undefined : option (option ParsedNode)
}.

Definition get_environment (node : option ParsedNode)
    (capture_macros native : bool) : Environment :=
  mkEnv native
        ["jinja2.ext.do"; "MaterializationExtension"; "DocumentationExtension"]
        (if capture_macros then Some node else None).

(** A compiled template: an object with an identity, the environment that
    compiled it, its globals and its root render function, which yields the
    output nodes for a context or raises. *)
Record Template : Type := mkTemplate {
  template_id : nat;
  environment : Environment;
  globals : gmap string value;
  root_render_func : gmap string value → exn + list value
}.

(** [self.new_context(vars)]: the variables of the call over the globals. *)
Definition new_context (t : Template) (vars : gmap string value)
  : gmap string value := vars ∪ globals t.

Section Engine.

(** jinja2 and the Python runtime, as far as this module calls them:
    - [from_string env source]: compile [source] in [env] to a root render
      function, or raise;
    - [handle_exception e]: [environment.handle_exception()] while [e] is
      being handled;
    - [concat]: the join of the output nodes of a non-native template;
    - [literal_eval]: [ast.literal_eval] on a string, [None] when it raises
      [ValueError], [SyntaxError] or [MemoryError];
    - [text_type]: [str(v)];
    - [add_node]: [exc.add_node(node)] of a compilation exception;
    - [untranslated]: [str(e)] of a template syntax error [e] whose
      [translated] flag is off: the message, to which jinja2 then appends
      the location that the error carries (file name, line number and
      source line). *)
Variable from_string :
  Environment → string → exn + (gmap string value → exn + list value).
Variable handle_exception : exn → exn + value.
Variable concat : list value → value.
Variable literal_eval : string → option value.
Variable text_type : value → string.
Variable add_node : exn → option ParsedNode → exn.
Variable untranslated : exn → string.

(** Modelled from the spec: [jinja2.nativetypes.native_concat(nodes,
    preserve_quotes)], a function of the template library.  "Concatenates
    the single produced node as-is if there is exactly one, otherwise joins
    all produced text, then attempts to parse the result as a literal value
    (numbers, booleans, collections, quoted strings with quotes
    preserved)"; what does not parse is returned as it is. *)
Definition native_concat (nodes : list value) (preserve_quotes : bool) : value :=
  match nodes with
  | [] => VNone
  | _ =>
      let raw := match nodes with
                 | [v] => v
                 | _ => VStr (String.concat "" (map text_type nodes))
                 end in
      match raw with
      | VStr text =>
          match literal_eval text with
          | None => raw
          | Some (VStr lit) =>
              if preserve_quotes
              then let quote := String.substring 0 1 text in
                   VStr (quote +:+ lit +:+ quote)
              else VStr lit
          | Some v => v
          end
      | _ => raw
      end
  end.

(** [NativeSandboxTemplate.render] *)
Definition NativeSandboxTemplate_render (t : Template)
    (vars : gmap string value) : exn + value :=
  match root_render_func t (new_context t vars) with
  | inr nodes => inr (native_concat nodes true)
  | inl e => if is_Exception e then handle_exception e else inl e
  end.

(** [jinja2.Template.render], which a template of a non-native environment
    inherits. *)
Definition Template_render (t : Template) (vars : gmap string value)
  : exn + value :=
  match root_render_func t (new_context t vars) with
  | inr nodes => inr (concat nodes)
  | inl e => if is_Exception e then handle_exception e else inl e
  end.

(** [template.render(ctx)], dispatched on the class of the template. *)
Definition render (t : Template) (vars : gmap string value) : exn + value :=
  if env_native (environment t)
  then NativeSandboxTemplate_render t vars
  else Template_render t vars.

(** [catch_jinja(node)], a context manager around [body].  For a template
    syntax error it sets [e.translated = False] before it takes [str(e)],
    so the text of the compiler error is the message with the location;
    for an undefined error [str(e)] is the message. *)
Definition catch_jinja {S A} (node : option ParsedNode) (body : ST S A)
  : ST S A := λ s,
  match body s with
  | (inl (TemplateSyntaxError msg), s1) =>
      (inl (CompilationException (untranslated (TemplateSyntaxError msg))
                                 node []), s1)
  | (inl (UndefinedError msg), s1) =>
      (inl (CompilationException (exn_str (UndefinedError msg)) node []), s1)
  | (inl (CompilationException msg n st), s1) =>
      (inl (add_node (CompilationException msg n st) node), s1)
  | other => other
  end.

(** [get_template].  The store is the number of template objects created
    so far, which is the identity of the next one. *)
Definition get_template (source : string) (ctx : gmap string value)
    (node : option ParsedNode) (capture_macros native : bool)
  : ST nat Template :=
  catch_jinja node (λ made,
    let env := get_environment node capture_macros native in
    match from_string env source with
    | inl e => (inl e, made)
    | inr code => (inr (mkTemplate made env ctx code), S made)
    end).

(** [render_template] *)
Definition render_template (t : Template) (ctx : gmap string value)
    (node : option ParsedNode) : ST nat value :=
  catch_jinja node (λ made, (render t ctx, made)).

(** [get_rendered] *)
Definition get_rendered (source : string) (ctx : gmap string value)
    (node : option ParsedNode) (capture_macros native : bool)
  : ST nat value :=
  let! template := get_template source ctx node capture_macros native in
  render_template template ctx node.

(* --------------------------------------------------------------------- *)
(** *** TemplateCache *)
(* --------------------------------------------------------------------- *)

(** The cache object and the templates created so far. *)
Record CacheState : Type := mkCache {
  file_cache : gmap (string * string) Template;
  templates_made : nat
}.

(** Run a computation of the engine inside the cache's store. *)
Definition with_engine {A} (c : ST nat A) : ST CacheState A := λ s,
  match c (templates_made s) with
  | (r, made) => (r, mkCache (file_cache s) made)
  end.

Definition cache_key (node : ParsedNode) : string * string :=
  (package_name node, original_file_path node).

(** [TemplateCache.get_node_template] *)
Definition get_node_template (node : ParsedNode) : ST CacheState Template :=
  λ s,
  let key := cache_key node in
  match file_cache s !! key with
  | Some t => (inr t, s)
  | None =>
      (let! template :=
         with_engine (get_template (raw_sql node) ∅ (Some node) false false) in
       λ s1, (inr template,
              mkCache (<[key := template]> (file_cache s1))
                      (templates_made s1))) s
  end.

(** [TemplateCache.clear] *)
Definition clear : ST CacheState unit := λ s,
  (inr tt, mkCache ∅ (templates_made s)).

End Engine.

(* ===================================================================== *)
(** ** The template cache: properties *)
(* ===================================================================== *)

Section CacheProperties.

Variable from_string :
  Environment → string → exn + (gmap string value → exn + list value).
Variable add_node : exn → option ParsedNode → exn.
Variable untranslated : exn → string.

Local Abbreviation lookup_template :=
  (get_node_template from_string add_node untranslated).
Local Abbreviation compile_template :=
  (get_template from_string add_node untranslated).

(** A template that [get_template] returns is a new object. *)
Lemma get_template_fresh source ctx node capture_macros native made t made' :
  compile_template source ctx node capture_macros native made = (inr t, made') →
  template_id t = made ∧ made' = S made ∧
  from_string (get_environment node capture_macros native) source
  = inr (root_render_func t).
Proof.
  unfold get_template, catch_jinja.
  destruct (from_string _ source) as [e|code]; simpl.
  - destruct e; intros [=].
  - intros [= <- <-]. done.
Qed.

(** What a miss does. *)
Lemma get_node_template_miss n c :
  file_cache c !! cache_key n = None →
  lookup_template n c =
  match compile_template (raw_sql n) ∅ (Some n) false false (templates_made c) with
  | (inl e, made) => (inl e, mkCache (file_cache c) made)
  | (inr t, made) =>
      (inr t, mkCache (<[cache_key n := t]> (file_cache c)) made)
  end.
Proof.
  intros Hmiss. unfold get_node_template. rewrite Hmiss.
  unfold bind, with_engine.
  by destruct (compile_template _ _ _ _ _ _) as [[e|t] made].
Qed.

(** After a lookup has returned [t], [t] is what the cache holds. *)
Lemma get_node_template_stored n c t c1 :
  lookup_template n c = (inr t, c1) → file_cache c1 !! cache_key n = Some t.
Proof.
  destruct (file_cache c !! cache_key n) as [t0|] eqn:Hc.
  - unfold get_node_template. rewrite Hc. by intros [= <- <-].
  - rewrite get_node_template_miss by done.
    destruct (compile_template _ _ _ _ _ _) as [[e|t1] made]; intros [= <- <-].
    simpl. apply lookup_insert_eq.
Qed.

End CacheProperties.

(** C7.  The cache is keyed by (package name, original file path): a lookup
    whose key was looked up before returns the template that lookup
    returned and changes nothing (no template is created, whatever the raw
    source of the second node); a miss compiles [raw_sql] with an empty
    context and stores the template under the key; [clear] empties the
    cache, and the next successful lookup of any key creates a new
    template. *)
Theorem template_cache_memoizes from_string add_node untranslated :
  (∀ n1 n2 c t c1,
     cache_key n2 = cache_key n1 →
     get_node_template from_string add_node untranslated n1 c
     = (inr t, c1) →
     get_node_template from_string add_node untranslated n2 c1
     = (inr t, c1)) ∧
  (∀ n c,
     file_cache c !! cache_key n = None →
     get_node_template from_string add_node untranslated n c =
     match get_template from_string add_node untranslated (raw_sql n) ∅
                        (Some n) false false (templates_made c) with
     | (inl e, made) => (inl e, mkCache (file_cache c) made)
     | (inr t, made) =>
         (inr t, mkCache (<[cache_key n := t]> (file_cache c)) made)
     end) ∧
  (∀ c, clear c = (inr tt, mkCache ∅ (templates_made c))) ∧
  (∀ n c t c1,
     get_node_template from_string add_node untranslated n (clear c).2
     = (inr t, c1) →
     template_id t = templates_made c ∧
     templates_made c1 = S (templates_made c) ∧
     from_string (get_environment (Some n) false false) (raw_sql n)
     = inr (root_render_func t) ∧
     file_cache c1 = {[cache_key n := t]}).
Proof.
  split; [|split; [|split]].
  - intros n1 n2 c t c1 Hkey Hfirst.
    apply get_node_template_stored in Hfirst.
    unfold get_node_template. by rewrite Hkey, Hfirst.
  - apply get_node_template_miss.
  - done.
  - intros n c t c1. simpl.
    rewrite get_node_template_miss by apply lookup_empty. simpl.
    destruct (get_template _ _ _ _ _ _ _ _) as [[e|t1] made] eqn:Hget;
      intros [= <- <-].
    apply get_template_fresh in Hget as (? & -> & ?). simpl.
    by rewrite insert_empty.
Qed.

(* ===================================================================== *)
(** ** The deferred-reference sentinel of [create_undefined] *)
(* ===================================================================== *)

(** [_is_dunder_name]: [name.startswith('__') and name.endswith('__')] *)
Definition _is_dunder_name (name : string) : bool :=
  String.prefix "__" name &&
  String.eqb (String.substring (String.length name - 2) 2 name) "__".

Module Undefined.

(** An instance of the class [Undefined] that [create_undefined(node)]
    builds: [node] is the variable of the enclosing call, the other fields
    are set by [__init__]. *)
Record t : Type := mk {
  node : option ParsedNode;
  name : option string;
  hint : option string;
  unsafe_callable : bool;
  alters_data : bool
}.

(** [Undefined(hint=..., name=...)] in the class built for [node]. *)
Definition __init__ (node : option ParsedNode) (hint name : option string) : t :=
  mk node name hint false false.

(** [__getitem__] *)
Definition __getitem__ (self : t) (key : value) : t := self.

(** [__call__] *)
Definition __call__ (self : t) (args : list value) : t := self.

(** [__getattr__], which Python runs for an attribute that ordinary lookup
    does not find.  The outcome comes with the receiver as the call leaves
    it: [self.name = name] writes to it before the new instance is made. *)
Definition __getattr__ (self : t) (attr : string) : (exn + t) * t :=
  if String.eqb attr "name" || _is_dunder_name attr
  then (inl (AttributeError
               ("'Undefined' object has no attribute '" +:+ attr +:+ "'")),
        self)
  else
    let self' := mk (node self) (Some attr) (hint self)
                    (unsafe_callable self) (alters_data self) in
    (inr (__init__ (node self') (hint self') (name self')), self').

(** [str(x)] of a field that holds a string or [None]. *)
Definition format_name (n : option string) : string := default "None" n.

(** [__reduce__]: never returns. *)
Definition __reduce__ (self : t) : exn :=
  compiler_error (format_name (name self) +:+ " is undefined") (node self).

(** What ordinary attribute lookup hands out: the content of one of the
    attributes that [__init__] stores on the instance, or the attribute
    that the class has under a name. *)
Inductive attribute : Type :=
| Node (n : option ParsedNode)
| Text (s : option string)
| Flag (b : bool)
| ClassAttribute (attr : string).

(** The attributes that [__init__] stores on the instance. *)
Definition fields : list string :=
  ["node"; "name"; "hint"; "unsafe_callable"; "alters_data"].

Definition instance_attribute (self : t) (attr : string) : option attribute :=
  if String.eqb attr "node" then Some (Node (node self))
  else if String.eqb attr "name" then Some (Text (name self))
  else if String.eqb attr "hint" then Some (Text (hint self))
  else if String.eqb attr "unsafe_callable"
  then Some (Flag (unsafe_callable self))
  else if String.eqb attr "alters_data" then Some (Flag (alters_data self))
  else None.

(** The methods that the body of the class defines. *)
Definition methods : list string :=
  ["__init__"; "__getitem__"; "__getattr__"; "__call__"; "__reduce__"].

(** The outcome of an attribute access: what ordinary lookup found, or the
    sentinel that [__getattr__] made. *)
Inductive result : Type :=
| Found (a : attribute)
| Sentinel (u : t).

Section Lookup.

(** The names that the class has from elsewhere: from its bases
    [jinja2.Undefined] and [object], and from Python, which gives every
    class [__dict__], [__module__] and the like.  None of them is one of
    [fields]: [jinja2.Undefined] keeps its own data in the slots
    [_undefined_hint], [_undefined_obj], [_undefined_name] and
    [_undefined_exception]. *)
Variable inherited : string → bool.

Definition class_attribute (attr : string) : bool :=
  bool_decide (attr ∈ methods) || inherited attr.

(** [self.attr], that is [getattr(self, attr)]: the attributes of the
    instance, then those of the class, and [__getattr__] only for a name
    that neither has.  The outcome comes with the receiver as the access
    leaves it. *)
Definition getattr (self : t) (attr : string) : (exn + result) * t :=
  match instance_attribute self attr with
  | Some a => (inr (Found a), self)
  | None =>
      if class_attribute attr then (inr (Found (ClassAttribute attr)), self)
      else match __getattr__ self attr with
           | (inl e, self') => (inl e, self')
           | (inr u, self') => (inr (Sentinel u), self')
           end
  end.

End Lookup.

(** [str(self)]: the body of the class defines no [__str__], so Python
    runs the one of [jinja2.Undefined], here [base_str]. *)
Definition __str__ (base_str : t → exn + string) (self : t) : exn + string :=
  base_str self.

End Undefined.

(** [create_undefined(node)]: the class, as its constructor. *)
Definition create_undefined (node : option ParsedNode)
  : option string → option string → Undefined.t := Undefined.__init__ node.

(** One step of a chained access on a sentinel. *)
Inductive access : Type :=
| Index (key : value)
| Attribute (attr : string)
| Call (args : list value).

(** Where a chain of accesses that starts on a sentinel gets: an
    exception, a sentinel, or a value that ordinary lookup handed out, on
    which the rest of the chain goes on outside this class. *)
Inductive chain_outcome : Type :=
| Raised (e : exn)
| Reached (u : Undefined.t)
| Left (a : Undefined.attribute) (rest : list access).

Section SentinelAccess.

Variable inherited : string → bool.

Definition access_step (u : Undefined.t) (a : access)
  : exn + Undefined.result :=
  match a with
  | Index key => inr (Undefined.Sentinel (Undefined.__getitem__ u key))
  | Attribute attr => (Undefined.getattr inherited u attr).1
  | Call args => inr (Undefined.Sentinel (Undefined.__call__ u args))
  end.

Fixpoint access_chain (u : Undefined.t) (path : list access)
  : chain_outcome :=
  match path with
  | [] => Reached u
  | a :: rest =>
      match access_step u a with
      | inl e => Raised e
      | inr (Undefined.Sentinel u') => access_chain u' rest
      | inr (Undefined.Found found) => Left found rest
      end
  end.

(** A name that ordinary lookup does not find. *)
Definition missing (attr : string) : bool :=
  negb (bool_decide (attr ∈ Undefined.fields))
  && negb (Undefined.class_attribute inherited attr).

(** An access that yields a sentinel: an index access, a call, or the
    access to a missing attribute that [__getattr__] does not refuse. *)
Definition deferred (a : access) : bool :=
  match a with
  | Attribute attr => missing attr && negb (_is_dunder_name attr)
  | _ => true
  end.

End SentinelAccess.

(** The name a sentinel carries after a path: the last attribute accessed,
    if any. *)
Fixpoint name_after (n : option string) (path : list access) : option string :=
  match path with
  | [] => n
  | Attribute attr :: rest => name_after (Some attr) rest
  | _ :: rest => name_after n rest
  end.

Lemma instance_attribute_fields u attr :
  Undefined.instance_attribute u attr = None ↔ attr ∉ Undefined.fields.
Proof.
  unfold Undefined.instance_attribute, Undefined.fields.
  repeat match goal with
         | |- context [String.eqb attr ?s] =>
             destruct (String.eqb_spec attr s) as [->|?];
             [split; [done|intros Hnot; exfalso; apply Hnot; set_solver]|]
         end.
  split; [|done]. intros _. set_solver.
Qed.

Lemma missing_spec inherited attr :
  missing inherited attr = true ↔
  (attr ∉ Undefined.fields) ∧ Undefined.class_attribute inherited attr = false.
Proof.
  unfold missing.
  by rewrite andb_true_iff, !negb_true_iff, bool_decide_eq_false.
Qed.

(** A missing attribute goes to [__getattr__]. *)
Lemma getattr_missing inherited u attr :
  missing inherited attr = true →
  Undefined.getattr inherited u attr =
  match Undefined.__getattr__ u attr with
  | (inl e, u') => (inl e, u')
  | (inr u1, u') => (inr (Undefined.Sentinel u1), u')
  end.
Proof.
  intros [Hfield Hclass]%missing_spec. unfold Undefined.getattr.
  by rewrite (proj2 (instance_attribute_fields u attr) Hfield), Hclass.
Qed.

Lemma missing_not_name inherited attr :
  missing inherited attr = true → String.eqb attr "name" = false.
Proof.
  intros [Hfield _]%missing_spec. apply String.eqb_neq. intros ->.
  apply Hfield. unfold Undefined.fields. set_solver.
Qed.

Lemma getattr_deferred inherited node hint name attr :
  missing inherited attr = true → _is_dunder_name attr = false →
  Undefined.getattr inherited (create_undefined node hint name) attr
  = (inr (Undefined.Sentinel (create_undefined node hint (Some attr))),
     create_undefined node hint (Some attr)).
Proof.
  intros Hmiss Hdunder. rewrite getattr_missing by done.
  unfold Undefined.__getattr__.
  by rewrite (missing_not_name inherited attr Hmiss), Hdunder.
Qed.

Lemma getattr_refused inherited u attr :
  missing inherited attr = true → _is_dunder_name attr = true →
  Undefined.getattr inherited u attr
  = (inl (AttributeError
            ("'Undefined' object has no attribute '" +:+ attr +:+ "'")), u).
Proof.
  intros Hmiss Hdunder. rewrite getattr_missing by done.
  unfold Undefined.__getattr__.
  by rewrite (missing_not_name inherited attr Hmiss), Hdunder.
Qed.

Lemma access_chain_deferred inherited node hint name path :
  forallb (deferred inherited) path = true →
  access_chain inherited (create_undefined node hint name) path =
  Reached (create_undefined node hint (name_after name path)).
Proof.
  revert name. induction path as [|a rest IH]; intros name Hall; simpl in *.
  - done.
  - apply andb_true_iff in Hall as [Ha Hrest].
    destruct a as [key|attr|args]; simpl in *.
    + by apply IH.
    + apply andb_true_iff in Ha as [Hmiss Hdunder].
      apply negb_true_iff in Hdunder.
      rewrite getattr_deferred by done. simpl. by apply (IH (Some attr)).
    + by apply IH.
Qed.

(** A stand-in for the names that the class inherits: the attributes of
    [jinja2.Undefined] and of [object].  [__html__] is not among them. *)
Definition standin_inherited (attr : string) : bool :=
  bool_decide
    (attr ∈ ["_undefined_hint"; "_undefined_obj"; "_undefined_name";
             "_undefined_exception"; "_fail_with_undefined_error";
             "__class__"; "__dict__"; "__doc__"; "__module__";
             "__str__"; "__repr__"; "__bool__"; "__len__"; "__iter__";
             "__eq__"; "__ne__"; "__hash__"; "__add__"; "__sub__";
             "__mul__"; "__lt__"; "__le__"; "__gt__"; "__ge__";
             "__int__"; "__float__"; "__getattribute__"; "__setattr__";
             "__delattr__"; "__reduce_ex__"; "__new__"; "__dir__";
             "__format__"; "__sizeof__"; "__weakref__"]).

(** A stand-in for [jinja2.Undefined.__str__], which returns the empty
    string. *)
Definition standin_undefined_str (u : Undefined.t) : exn + string := inr "".

(** C3, the claim as stated fails, in both halves.  An attribute access
    can fail: [__html__], like every missing name between double
    underscores, is refused with an [AttributeError].  And the demand of
    the value need not fail: the class leaves the conversion to text,
    which rendering performs, to [jinja2.Undefined], whose [__str__]
    returns the empty string and raises nothing. *)
Lemma sentinel_access_fails_and_text_is_silent :
  access_step standin_inherited (create_undefined None None (Some "payload"))
              (Attribute "__html__")
  = inl (AttributeError "'Undefined' object has no attribute '__html__'") ∧
  Undefined.__str__ standin_undefined_str
                    (create_undefined None None (Some "payload"))
  = inr "".
Proof. split; reflexivity. Qed.

(** C3, amended.  Index access and call return the sentinel itself.  An
    attribute access goes through ordinary lookup first: the attributes
    that [__init__] stores ([node], [name], [hint], [unsafe_callable],
    [alters_data]) and the attributes of the class are handed out as they
    are and nothing is raised.  Only a missing name reaches
    [__getattr__]: between double underscores it is refused with
    [AttributeError], otherwise the access returns a new sentinel of the
    same node and hint that is named after the attribute (the receiver is
    renamed too); so a chain of index accesses, calls and accesses to
    such names ends in a sentinel.  Serialization ([__reduce__]) raises a
    compiler error: its text is the current name of the sentinel followed
    by " is undefined", and it carries the node given to
    [create_undefined].  The conversion to text is not overridden: it is
    that of [jinja2.Undefined]. *)
Theorem sentinel_defers_failure inherited base_str node hint name path :
  forallb (deferred inherited) path = true →
  let u := create_undefined node hint name in
  (∀ key, Undefined.__getitem__ u key = u) ∧
  (∀ args, Undefined.__call__ u args = u) ∧
  Undefined.getattr inherited u "node"
  = (inr (Undefined.Found (Undefined.Node node)), u) ∧
  Undefined.getattr inherited u "name"
  = (inr (Undefined.Found (Undefined.Text name)), u) ∧
  Undefined.getattr inherited u "hint"
  = (inr (Undefined.Found (Undefined.Text hint)), u) ∧
  Undefined.getattr inherited u "unsafe_callable"
  = (inr (Undefined.Found (Undefined.Flag false)), u) ∧
  Undefined.getattr inherited u "alters_data"
  = (inr (Undefined.Found (Undefined.Flag false)), u) ∧
  (∀ attr, attr ∉ Undefined.fields →
     Undefined.class_attribute inherited attr = true →
     Undefined.getattr inherited u attr
     = (inr (Undefined.Found (Undefined.ClassAttribute attr)), u)) ∧
  (∀ attr, missing inherited attr = true → _is_dunder_name attr = true →
     Undefined.getattr inherited u attr
     = (inl (AttributeError
               ("'Undefined' object has no attribute '" +:+ attr +:+ "'")),
        u)) ∧
  (∀ attr, missing inherited attr = true → _is_dunder_name attr = false →
     Undefined.getattr inherited u attr
     = (inr (Undefined.Sentinel (create_undefined node hint (Some attr))),
        create_undefined node hint (Some attr))) ∧
  access_chain inherited u path
  = Reached (create_undefined node hint (name_after name path)) ∧
  Undefined.__reduce__ (create_undefined node hint (name_after name path))
  = CompilationException
      (Undefined.format_name (name_after name path) +:+ " is undefined")
      node [] ∧
  Undefined.__str__ base_str
                    (create_undefined node hint (name_after name path))
  = base_str (create_undefined node hint (name_after name path)).
Proof.
  intros Hpath u. repeat split.
  - intros attr Hfield Hclass. unfold Undefined.getattr.
    by rewrite (proj2 (instance_attribute_fields u attr) Hfield), Hclass.
  - intros attr Hmiss Hdunder. by apply getattr_refused.
  - intros attr Hmiss Hdunder. by apply getattr_deferred.
  - by apply access_chain_deferred.
Qed.

Lemma sentinel_defers_failure_witness :
  access_chain standin_inherited
               (create_undefined (Some model_node) None (Some "payload"))
               [Attribute "rows"; Index (VInt 0); Call []; Attribute "total"]
  = Reached (create_undefined (Some model_node) None (Some "total")).
Proof.
  apply (sentinel_defers_failure standin_inherited standin_undefined_str
           (Some model_node) None (Some "payload")
           [Attribute "rows"; Index (VInt 0); Call []; Attribute "total"]).
  reflexivity.
Defined.


(* ===================================================================== *)
(** ** MaterializationExtension.parse *)
(* ===================================================================== *)

(** A token of the template lexer: [Token(lineno, type, value)]. *)
Record Token : Type := mkToken {
  lineno : nat;
  type : string;
  tvalue : value
}.

(** The expression nodes the extension tells apart: a constant, which has a
    [value] attribute, and the others, of class [cls], which have none. *)
Inductive Expr : Type :=
| Const (v : value)
| NonConst (cls : string).

(** The [Macro] node that the extension builds.  [Stmt] is the type of the
    statements of a body. *)
Record MacroNode (Stmt : Type) : Type := mkMacro {
  macro_lineno : nat;
  macro_name : string;
  args : list string;
  defaults : list Expr;
  body : list Stmt
}.
Arguments mkMacro {Stmt}.
Arguments macro_lineno {Stmt}.
Arguments macro_name {Stmt}.
Arguments args {Stmt}.
Arguments defaults {Stmt}.
Arguments body {Stmt}.

Module TokenStream.

(** The stream is the list of the tokens that are left; past its end the
    current token is the end-of-file token. *)
Definition current (stream : list Token) : Token :=
  match stream with
  | [] => mkToken 0 "eof" (VStr "")
  | t :: _ => t
  end.

(** [next(stream)] *)
Definition next (stream : list Token) : Token * list Token :=
  (current stream, tail stream).

(** [Token.test(expr)] for an expression without a colon. *)
Definition test (t : Token) (expr : string) : bool := String.eqb (type t) expr.

(** [stream.skip_if(expr)] *)
Definition skip_if (expr : string) (stream : list Token) : bool * list Token :=
  if test (current stream) expr then (true, tail stream) else (false, stream).

(** [stream.expect(expr)] *)
Definition expect (expr : string) (stream : list Token)
  : exn + (Token * list Token) :=
  if test (current stream) expr then inr (next stream)
  else inl (TemplateSyntaxError
              ("expected token '" +:+ expr +:+ "', got '"
               +:+ type (current stream) +:+ "'")).

End TokenStream.

(** [Name.can_assign()] *)
Definition can_assign (name : string) : bool :=
  negb (bool_decide
          (name ∈ ["true"; "false"; "none"; "True"; "False"; "None"])).

(** [parser.parse_assign_target(name_only=True)], reduced to the name it
    binds. *)
Definition parse_assign_target (stream : list Token)
  : exn + (string * list Token) :=
  match TokenStream.expect "name" stream with
  | inl e => inl e
  | inr (token, rest) =>
      match tvalue token with
      | VStr name =>
          if can_assign name then inr (name, rest)
          else inl (TemplateSyntaxError "can't assign to 'name'")
      | _ => inl (TemplateSyntaxError "expected token 'name'")
      end
  end.

(** [value.value] *)
Definition expr_value (e : Expr) : exn + value :=
  match e with
  | Const v => inr v
  | NonConst cls =>
      inl (AttributeError ("'" +:+ cls +:+ "' object has no attribute 'value'"))
  end.

Module MaterializationExtension.
Section Parse.

(** The parser of the template library and two helpers of dbt that this
    file imports:
    - [parse_expression], [parse_statements end_tokens drop_needle];
    - [get_materialization_macro_name materialization_name adapter_name];
    - [invalid_materialization_argument name argument], as the exception
      it raises. *)
Variable Stmt : Type.
Variable parse_expression : list Token → exn + (Expr * list Token).
Variable parse_statements :
  list string → bool → list Token → exn + (list Stmt * list Token).
Variable get_materialization_macro_name : string → value → string.
Variable invalid_materialization_argument : string → string → exn.

(** The [while parser.stream.skip_if('comma')] loop: the adapter name and
    the stream it ends with, or the exception it raises.  Every turn
    consumes a token, so a turn is charged to [fuel]; [None] when [fuel]
    runs out. *)
Fixpoint parse_modifiers (fuel : nat) (materialization_name : string)
    (adapter_name : value) (stream : list Token)
  : option (exn + (value * list Token)) :=
  match fuel with
  | 0 => None
  | S fuel' =>
      match TokenStream.skip_if "comma" stream with
      | (false, _) => Some (inr (adapter_name, stream))
      | (true, s1) =>
          match parse_assign_target s1 with
          | inl e => Some (inl e)
          | inr (target, s2) =>
              if String.eqb target "default" then
                parse_modifiers fuel' materialization_name adapter_name s2
              else if String.eqb target "adapter" then
                match TokenStream.expect "assign" s2 with
                | inl e => Some (inl e)
                | inr (_, s3) =>
                    match parse_expression s3 with
                    | inl e => Some (inl e)
                    | inr (value, s4) =>
                        match expr_value value with
                        | inl e => Some (inl e)
                        | inr v =>
                            parse_modifiers fuel' materialization_name v s4
                        end
                    end
                end
              else
                Some (inl (invalid_materialization_argument
                             materialization_name target))
          end
      end
  end.

(** [MaterializationExtension.parse] on the stream that starts at the
    [materialization] token. *)
Definition parse (stream : list Token)
  : option (exn + (MacroNode Stmt * list Token)) :=
  let '(tag, s1) := TokenStream.next stream in
  match parse_assign_target s1 with
  | inl e => Some (inl e)
  | inr (materialization_name, s2) =>
      match parse_modifiers (S (length s2)) materialization_name
                            (VStr "default") s2 with
      | None => None
      | Some (inl e) => Some (inl e)
      | Some (inr (adapter_name, s3)) =>
          let name := get_materialization_macro_name
                        materialization_name adapter_name in
          match parse_statements ["name:endmaterialization"] true s3 with
          | inl e => Some (inl e)
          | inr (body, s4) =>
              Some (inr (mkMacro (lineno tag) name [] [] body, s4))
          end
      end
  end.

End Parse.
End MaterializationExtension.

(** *** The tag's modifiers *)

(** A modifier the tag accepts: [, default] or [, adapter=<literal>]. *)
Inductive modifier : Type :=
| Default
| Adapter (literal : Token).

Definition tok_name (ln : nat) (s : string) : Token := mkToken ln "name" (VStr s).
Definition tok_comma (ln : nat) : Token := mkToken ln "comma" (VStr ",").
Definition tok_assign (ln : nat) : Token := mkToken ln "assign" (VStr "=").

Definition modifier_tokens (ln : nat) (m : modifier) : list Token :=
  match m with
  | Default => [tok_comma ln; tok_name ln "default"]
  | Adapter literal =>
      [tok_comma ln; tok_name ln "adapter"; tok_assign ln; literal]
  end.

(** A token that is a literal by itself. *)
Definition is_literal (t : Token) : bool :=
  bool_decide (type t ∈ ["string"; "integer"; "float"]).

Definition literal_modifier (m : modifier) : bool :=
  match m with
  | Default => true
  | Adapter literal => is_literal literal
  end.

(** The adapter name a sequence of modifiers leaves: the last one given. *)
Definition adapter_of (start : value) (mods : list modifier) : value :=
  fold_left (λ a m, match m with Default => a | Adapter lit => tvalue lit end)
            mods start.

(** The stream goes on with a token that cannot continue an expression and
    is not a comma: the end of the tag, or of the input. *)
Definition ends_tag (stream : list Token) : bool :=
  bool_decide (type (TokenStream.current stream) ∈ ["block_end"; "eof"]).

(** A token after which an expression that is one literal is complete. *)
Definition ends_expression (stream : list Token) : bool :=
  bool_decide
    (type (TokenStream.current stream) ∈ ["comma"; "block_end"; "eof"]).

Section MaterializationProperties.

Variable Stmt : Type.
Variable parse_expression : list Token → exn + (Expr * list Token).
Variable parse_statements :
  list string → bool → list Token → exn + (list Stmt * list Token).
Variable get_materialization_macro_name : string → value → string.
Variable invalid_materialization_argument : string → string → exn.

(** The expression parser reads a literal that stands alone as a constant
    and leaves what follows it. *)
Hypothesis parse_literal : ∀ t rest,
  is_literal t = true → ends_expression rest = true →
  parse_expression (t :: rest) = inr (Const (tvalue t), rest).

Local Abbreviation loop :=
  (MaterializationExtension.parse_modifiers
     parse_expression invalid_materialization_argument).

Lemma ends_expression_modifiers ln mods rest :
  ends_tag rest = true →
  ends_expression (flat_map (modifier_tokens ln) mods ++ rest) = true.
Proof.
  intros Hrest. destruct mods as [|[|lit] mods]; [|done..].
  simpl. unfold ends_tag, ends_expression in *.
  apply bool_decide_eq_true in Hrest. apply bool_decide_eq_true.
  by constructor.
Qed.

Lemma skip_if_comma_ends_tag rest :
  ends_tag rest = true → TokenStream.skip_if "comma" rest = (false, rest).
Proof.
  unfold ends_tag, TokenStream.skip_if, TokenStream.test.
  intros Hrest.
  destruct (String.eqb_spec (type (TokenStream.current rest)) "comma")
    as [Heq|]; [|done].
  rewrite Heq in Hrest. by vm_compute in Hrest.
Qed.

(** The loop accepts any sequence of the two modifiers. *)
Lemma parse_modifiers_accepts ln name mods rest :
  forallb literal_modifier mods = true → ends_tag rest = true →
  ∀ fuel adapter, length mods < fuel →
  loop fuel name adapter (flat_map (modifier_tokens ln) mods ++ rest)
  = Some (inr (adapter_of adapter mods, rest)).
Proof.
  intros Hmods Hrest.
  induction mods as [|m mods IH]; intros fuel adapter Hfuel;
    (destruct fuel as [|fuel]; [simpl in Hfuel; lia|]); simpl.
  - by rewrite skip_if_comma_ends_tag.
  - simpl in Hmods. apply andb_true_iff in Hmods as [Hm Hmods].
    destruct m as [|lit]; simpl.
    + apply IH; [done|]. simpl in Hfuel. lia.
    + rewrite parse_literal by
        (try done; by apply ends_expression_modifiers).
      simpl. apply IH; [done|]. simpl in Hfuel. lia.
Qed.

(** The loop refuses any other modifier name. *)
Lemma parse_modifiers_rejects ln name mods other rest :
  forallb literal_modifier mods = true →
  can_assign other = true → other ≠ "default" → other ≠ "adapter" →
  ∀ fuel adapter, length mods < fuel →
  loop fuel name adapter
       (flat_map (modifier_tokens ln) mods
        ++ tok_comma ln :: tok_name ln other :: rest)
  = Some (inl (invalid_materialization_argument name other)).
Proof.
  intros Hmods Hcan Hd Ha.
  induction mods as [|m mods IH]; intros fuel adapter Hfuel;
    (destruct fuel as [|fuel]; [simpl in Hfuel; lia|]); simpl.
  - unfold parse_assign_target; simpl. rewrite Hcan.
    apply String.eqb_neq in Hd, Ha. by rewrite Hd, Ha.
  - simpl in Hmods. apply andb_true_iff in Hmods as [Hm Hmods].
    destruct m as [|lit]; simpl.
    + apply IH; [done|]. simpl in Hfuel. lia.
    + rewrite parse_literal; [|done|].
      * simpl. apply IH; [done|]. simpl in Hfuel. lia.
      * by destruct mods as [|[|?] ?].
Qed.

Lemma length_modifier_tokens ln mods :
  length mods ≤ length (flat_map (modifier_tokens ln) mods).
Proof.
  induction mods as [|[|lit] mods IH]; simpl; lia.
Qed.

End MaterializationProperties.

(** A stand-in for the expression parser on a stream that starts with a
    literal, and one for the statement parser that gathers the tokens up to
    the end tag. *)
Definition literal_expression (stream : list Token)
  : exn + (Expr * list Token) :=
  match stream with
  | t :: rest =>
      if is_literal t then inr (Const (tvalue t), rest)
      else inl (TemplateSyntaxError "not a literal")
  | [] => inl (TemplateSyntaxError "unexpected end of template")
  end.

Fixpoint tokens_until (needle : string) (stream : list Token)
  : exn + (list Token * list Token) :=
  match stream with
  | [] => inl (TemplateSyntaxError "unexpected end of template")
  | t :: rest =>
      if String.eqb (type t +:+ ":" +:+
                     match tvalue t with VStr s => s | _ => "" end) needle
      then inr ([], rest)
      else match tokens_until needle rest with
           | inl e => inl e
           | inr (found, rest') => inr (t :: found, rest')
           end
  end.

Definition statements_until (end_tokens : list string) (drop_needle : bool)
    (stream : list Token) : exn + (list Token * list Token) :=
  tokens_until (default "" (head end_tokens)) stream.

(** [materialization table, default, adapter='postgres' %}select 1
    {% endmaterialization %}] as the parser sees it. *)
Definition materialization_tag : list Token :=
  [tok_name 1 "materialization"; tok_name 1 "table";
   tok_comma 1; tok_name 1 "default";
   tok_comma 1; tok_name 1 "adapter"; tok_assign 1;
   mkToken 1 "string" (VStr "postgres");
   mkToken 1 "block_end" (VStr "%}"); mkToken 1 "data" (VStr "select 1");
   mkToken 2 "block_begin" (VStr "{%"); tok_name 2 "endmaterialization";
   mkToken 2 "block_end" (VStr "%}")].



(* ===================================================================== *)
(** ** Native rendering: properties *)
(* ===================================================================== *)

(** The value that [native_concat] tries to read as a literal: nothing for
    an empty output, the node itself when there is one, the joined text of
    the nodes otherwise. *)
Definition raw_output (text_type : value → string) (nodes : list value)
  : option value :=
  match nodes with
  | [] => None
  | [v] => Some v
  | _ => Some (VStr (String.concat "" (map text_type nodes)))
  end.

Definition is_VStr (v : value) : bool :=
  match v with VStr _ => true | _ => false end.

Section NativeRendering.

Variable handle_exception : exn → exn + value.
Variable literal_eval : string → option value.
Variable text_type : value → string.

Local Abbreviation native_render :=
  (NativeSandboxTemplate_render handle_exception literal_eval text_type).

Lemma native_concat_raw nodes :
  native_concat literal_eval text_type nodes true =
  match raw_output text_type nodes with
  | None => VNone
  | Some (VStr text) =>
      match literal_eval text with
      | None => VStr text
      | Some (VStr lit) =>
          VStr (String.substring 0 1 text +:+ lit +:+ String.substring 0 1 text)
      | Some v => v
      end
  | Some raw => raw
  end.
Proof.
  unfold native_concat, raw_output.
  destruct nodes as [|v [|w rest]]; [done| |done].
  by destruct v.
Qed.

(** What native rendering returns, by the cases of the output. *)
Lemma native_render_cases t vars :
  native_render t vars =
  match root_render_func t (new_context t vars) with
  | inl e => if is_Exception e then handle_exception e else inl e
  | inr nodes =>
      inr match raw_output text_type nodes with
          | None => VNone
          | Some (VStr text) =>
              match literal_eval text with
              | None => VStr text
              | Some (VStr lit) =>
                  VStr (String.substring 0 1 text +:+ lit
                        +:+ String.substring 0 1 text)
              | Some v => v
              end
          | Some raw => raw
          end
  end.
Proof.
  unfold NativeSandboxTemplate_render.
  destruct (root_render_func t _) as [e|nodes]; [done|].
  by rewrite native_concat_raw.
Qed.

End NativeRendering.

(* ===================================================================== *)
(** ** Characters and a fragment of Python's literal syntax *)
(* ===================================================================== *)

(** [\s] of the [re] module, on the characters below 256. *)
Definition is_space (c : ascii) : bool :=
  let n := nat_of_ascii c in
  ((9 <=? n) && (n <=? 13)) || ((28 <=? n) && (n <=? 32))
  || (n =? 133) || (n =? 160).

Definition double_quote : ascii := ascii_of_nat 34.
Definition backslash : ascii := ascii_of_nat 92.
Definition newline : ascii := ascii_of_nat 10.

Definition is_digit (c : ascii) : bool :=
  let n := nat_of_ascii c in (48 <=? n) && (n <=? 57).

Definition is_alpha (c : ascii) : bool :=
  let n := nat_of_ascii c in
  ((65 <=? n) && (n <=? 90)) || ((97 <=? n) && (n <=? 122)) || (n =? 95).

(** The longest prefix of characters that satisfy [p], and the rest. *)
Fixpoint span (p : ascii → bool) (cs : list ascii) : list ascii * list ascii :=
  match cs with
  | c :: rest =>
      if p c then let '(taken, others) := span p rest in (c :: taken, others)
      else ([], cs)
  | [] => ([], [])
  end.

Fixpoint drop_prefix (prefix cs : list ascii) : option (list ascii) :=
  match prefix, cs with
  | [], _ => Some cs
  | p :: prefix', c :: cs' =>
      if Ascii.eqb p c then drop_prefix prefix' cs' else None
  | _ :: _, [] => None
  end.

Module Literal.

(** A stand-in for [ast.literal_eval] on a fragment of the literal syntax:
    decimal integers with an optional sign, [True], [False], [None], quoted
    strings without escapes, and lists of these.  It answers [None] on
    every other text, also where Python reads a literal of another form. *)
Inductive tok : Type :=
| LInt (z : Z)
| LStr (s : string)
| LName (s : string)
| LOpen
| LClose
| LComma.

Definition digits_value (ds : list ascii) : Z :=
  fold_left (λ acc d, (10 * acc + Z.of_nat (nat_of_ascii d - 48))%Z) ds 0%Z.

(** No leading zero, unless the number is written with zeros only. *)
Definition well_formed_digits (ds : list ascii) : bool :=
  match ds with
  | [] => false
  | [_] => true
  | d :: _ => negb (Ascii.eqb d "0") || forallb (Ascii.eqb "0") ds
  end.

Fixpoint lex (fuel : nat) (cs : list ascii) : option (list tok) :=
  match fuel with
  | 0 => None
  | S fuel' =>
      match cs with
      | [] => Some []
      | c :: rest =>
          if is_space c then lex fuel' rest
          else if Ascii.eqb c "[" then cons LOpen <$> lex fuel' rest
          else if Ascii.eqb c "]" then cons LClose <$> lex fuel' rest
          else if Ascii.eqb c "," then cons LComma <$> lex fuel' rest
          else if Ascii.eqb c "'" || Ascii.eqb c double_quote then
            let '(text, after) := span (λ d, negb (Ascii.eqb d c)) rest in
            match after with
            | [] => None
            | _ :: after' =>
                if existsb (λ d, Ascii.eqb d backslash || Ascii.eqb d newline) text
                then None
                else cons (LStr (String.string_of_list_ascii text)) <$> lex fuel' after'
            end
          else if is_digit c then
            let '(ds, after) := span is_digit cs in
            if well_formed_digits ds
            then cons (LInt (digits_value ds)) <$> lex fuel' after
            else None
          else if Ascii.eqb c "-" then
            let '(ds, after) := span is_digit rest in
            if well_formed_digits ds
            then cons (LInt (- digits_value ds)) <$> lex fuel' after
            else None
          else if is_alpha c then
            let '(word, after) := span (λ d, is_alpha d || is_digit d) cs in
            cons (LName (String.string_of_list_ascii word)) <$> lex fuel' after
          else None
      end
  end.

Fixpoint parse_value (fuel : nat) (ts : list tok) : option (value * list tok) :=
  match fuel with
  | 0 => None
  | S fuel' =>
      match ts with
      | LInt z :: rest => Some (VInt z, rest)
      | LStr s :: rest => Some (VStr s, rest)
      | LName word :: rest =>
          if String.eqb word "True" then Some (VBool true, rest)
          else if String.eqb word "False" then Some (VBool false, rest)
          else if String.eqb word "None" then Some (VNone, rest)
          else None
      | LOpen :: rest => parse_items fuel' rest []
      | _ => None
      end
  end
with parse_items (fuel : nat) (ts : list tok) (acc : list value)
  : option (value * list tok) :=
  match fuel with
  | 0 => None
  | S fuel' =>
      match ts with
      | LClose :: rest => Some (VList (rev acc), rest)
      | _ =>
          match parse_value fuel' ts with
          | Some (v, LComma :: rest) => parse_items fuel' rest (v :: acc)
          | Some (v, LClose :: rest) => Some (VList (rev (v :: acc)), rest)
          | _ => None
          end
      end
  end.

Definition literal_eval (text : string) : option value :=
  let cs := String.list_ascii_of_string text in
  match lex (S (length cs)) cs with
  | Some ts =>
      match parse_value (S (length ts)) ts with
      | Some (v, []) => Some v
      | _ => None
      end
  | None => None
  end.

End Literal.

(* ===================================================================== *)
(** ** A stand-in engine for sources without template logic *)
(* ===================================================================== *)

Module Standin.

(** [repr(v)], for strings without quotes or escapes in them. *)
Fixpoint repr (v : value) : string :=
  match v with
  | VNone => "None"
  | VBool true => "True"
  | VBool false => "False"
  | VInt z => pretty z
  | VStr s => "'" +:+ s +:+ "'"
  | VList items => "[" +:+ String.concat ", " (map repr items) +:+ "]"
  | VDict entries =>
      "{" +:+ String.concat ", "
                (map (λ kv, "'" +:+ kv.1 +:+ "': " +:+ repr kv.2) entries)
          +:+ "}"
  end.

(** [str(v)] *)
Definition text_type (v : value) : string :=
  match v with
  | VStr s => s
  | _ => repr v
  end.

(** [handle_exception] re-raises the exception being handled. *)
Definition handle_exception (e : exn) : exn + value := inl e.

(** [add_node]: the node becomes the one the error is attributed to, and
    the node it replaces joins the chain. *)
Definition add_node (e : exn) (node : option ParsedNode) : exn :=
  match e, node with
  | CompilationException msg None st, Some n =>
      CompilationException msg (Some n) st
  | CompilationException msg (Some old) st, Some n =>
      if String.eqb (unique_id old) (unique_id n) then e
      else CompilationException msg (Some n) (st ++ [old])
  | _, _ => e
  end.

(** [untranslated]: a stand-in that places every syntax error on line 1 of
    a template without a name. *)
Definition untranslated (e : exn) : string :=
  exn_str e +:+ String newline "  line 1".

(** The text between the braces of a source that is one interpolation. *)
Definition interpolation (source : string) : option string :=
  let n := String.length source in
  if String.prefix "{{ " source && (6 <=? n)
     && String.eqb (String.substring (n - 3) 3 source) " }}"
  then Some (String.substring 3 (n - 6) source)
  else None.

Definition has_brace (source : string) : bool :=
  existsb (Ascii.eqb "{") (String.list_ascii_of_string source).

(** Compilation of the sources this engine knows: a source that is one
    interpolation renders to the value the context binds to the text
    between its braces; a source without a brace renders to itself (an
    empty one to nothing); every other source is refused. *)
Definition from_string (env : Environment) (source : string)
  : exn + (gmap string value → exn + list value) :=
  match interpolation source with
  | Some expression =>
      inr (λ ctx, match ctx !! expression with
                  | Some v => inr [v]
                  | None => inl (UndefinedError
                                   ("'" +:+ expression +:+ "' is undefined"))
                  end)
  | None =>
      if has_brace source
      then inl (TemplateSyntaxError "template logic is not supported")
      else inr (λ _, if String.eqb source "" then inr [] else inr [VStr source])
  end.

(** [get_rendered] with this engine. *)
Definition get_rendered :=
  get_rendered from_string handle_exception (λ _, VNone)
               Literal.literal_eval text_type add_node untranslated.

End Standin.

(** Two lookups of one key, the second with an edited source, then a
    lookup after [clear]: the first two return the template numbered 0,
    the third a new one. *)
Example template_cache_lookups :
  let lookup := get_node_template Standin.from_string Standin.add_node
  Standin.untranslated in
  let edited := mkNode "model.proj.orders" "orders" "proj"
                       "models/orders.sql" "select 2" in
  match lookup model_node (mkCache ∅ 0) with
  | (inr t1, c1) =>
      match lookup edited c1 with
      | (inr t2, c2) =>
          template_id t1 = 0 ∧ template_id t2 = 0 ∧
          root_render_func t2 ∅ = inr [VStr "select 1"] ∧
          templates_made c2 = 1 ∧
          match lookup edited (clear c2).2 with
          | (inr t3, c3) =>
              template_id t3 = 1 ∧ templates_made c3 = 2 ∧
              root_render_func t3 ∅ = inr [VStr "select 2"]
          | _ => False
          end
      | _ => False
      end
  | _ => False
  end.
Proof. vm_compute. repeat split. Qed.

Example native_render_list :
  Standin.get_rendered "[1, 2, 3]" ∅ None false true 0
  = (inr (VList [VInt 1; VInt 2; VInt 3]), 1).
Proof. reflexivity. Qed.

Example native_render_text :
  Standin.get_rendered "hello" ∅ None false true 0 = (inr (VStr "hello"), 1).
Proof. reflexivity. Qed.

Example native_render_interpolation :
  Standin.get_rendered "{{ ref('x') }}" {[ "ref('x')" := VList [VInt 1] ]}
                       None false true 0
  = (inr (VList [VInt 1]), 1).
Proof. vm_compute. reflexivity. Qed.

(** C5, the claim as stated fails: the output ['abc'] is a literal, of the
    string [abc], and native rendering returns the quoted text instead. *)
Lemma native_render_keeps_quotes :
  Literal.literal_eval "'abc'" = Some (VStr "abc") ∧
  (Standin.get_rendered "'abc'" ∅ None false true 0).1 = inr (VStr "'abc'") ∧
  (Standin.get_rendered "'abc'" ∅ None false true 0).1 ≠ inr (VStr "abc").
Proof. repeat split. intros [=]. Qed.

(** C5, amended.  With the output read as [native_concat] reads it (the
    single node, or the joined text of the nodes): output text that is a
    literal other than a string is returned as the value of the literal;
    output text that is a string literal is returned as the text of the
    string between two copies of the first character of the output;
    output text that is no literal is returned unchanged; and an
    [Exception] raised while rendering is handed to [handle_exception]. *)
Theorem native_render_recovers_values
    handle_exception literal_eval text_type t vars :
  (∀ nodes text,
     root_render_func t (new_context t vars) = inr nodes →
     raw_output text_type nodes = Some (VStr text) →
     (∀ v, literal_eval text = Some v → is_VStr v = false →
        NativeSandboxTemplate_render handle_exception literal_eval text_type
                                     t vars = inr v) ∧
     (∀ lit, literal_eval text = Some (VStr lit) →
        NativeSandboxTemplate_render handle_exception literal_eval text_type
                                     t vars
        = inr (VStr (String.substring 0 1 text +:+ lit
                     +:+ String.substring 0 1 text))) ∧
     (literal_eval text = None →
        NativeSandboxTemplate_render handle_exception literal_eval text_type
                                     t vars = inr (VStr text))) ∧
  (∀ e,
     root_render_func t (new_context t vars) = inl e →
     is_Exception e = true →
     NativeSandboxTemplate_render handle_exception literal_eval text_type
                                  t vars = handle_exception e).
Proof.
  split.
  - intros nodes text Hnodes Hraw. rewrite native_render_cases, Hnodes, Hraw.
    repeat split.
    + intros v -> Hv. by destruct v.
    + by intros lit ->.
    + by intros ->.
  - intros e He Hexc. by rewrite native_render_cases, He, Hexc.
Qed.

(* ===================================================================== *)
(** ** add_rendered_test_kwargs *)
(* ===================================================================== *)

Definition SCHEMA_TEST_KWARGS_NAME : string := "_dbt_schema_test_kwargs".

(** A schema test node: the node and [node.test_metadata.kwargs]. *)
Record SchemaTestNode : Type := mkTest {
  test_node : ParsedNode;
  test_kwargs : value
}.

(** [re.match(looks_like_func, value) is not None] for the pattern
    [^\s*(env_var|ref|var|source|doc)\s*\(.+\)\s*$]: after leading
    whitespace comes one of the names, whitespace, an opening parenthesis,
    then at least one character other than a newline, and the last
    character that is not whitespace is a closing parenthesis. *)
Definition looks_like_func (s : string) : bool :=
  let cs := (span is_space (String.list_ascii_of_string s)).2 in
  existsb
    (λ keyword,
       match drop_prefix (String.list_ascii_of_string keyword) cs with
       | Some after_name =>
           match (span is_space after_name).2 with
           | "("%char :: arguments =>
               match (span is_space (rev arguments)).2 with
               | ")"%char :: inner =>
                   negb (bool_decide (inner = []))
                   && forallb (λ c, negb (Ascii.eqb c newline)) inner
               | _ => false
               end
           | _ => false
           end
       | None => false
       end)
    ["env_var"; "ref"; "var"; "source"; "doc"].

(** The position of a value inside the keyword arguments. *)
Definition keypath : Type := list (nat + string).

(** Modelled from the spec: [dbt.utils.deep_map(func, value)], which this
    file imports.  "Traversal must reach arbitrarily nested
    mapping/sequence structures and rewrite every [...] leaf": lists and
    mappings are rebuilt around the results of [func] on their leaves, in
    order; [func] also receives the path to the leaf. *)
Fixpoint deep_map {St} (func : value → keypath → ST St value)
    (v : value) (path : keypath) : ST St value :=
  match v with
  | VList items =>
      let! items' :=
        (fix go (i : nat) (l : list value) : ST St (list value) :=
           match l with
           | [] => ret []
           | x :: rest =>
               let! x' := deep_map func x (path ++ [inl i]) in
               let! rest' := go (S i) rest in
               ret (x' :: rest')
           end) 0 items in
      ret (VList items')
  | VDict entries =>
      let! entries' :=
        (fix go (l : list (string * value)) : ST St (list (string * value)) :=
           match l with
           | [] => ret []
           | (k, x) :: rest =>
               let! x' := deep_map func x (path ++ [inr k]) in
               let! rest' := go rest in
               ret ((k, x') :: rest')
           end) entries in
      ret (VDict entries')
  | _ => func v path
  end.

Section TestKwargs.

Variable from_string :
  Environment → string → exn + (gmap string value → exn + list value).
Variable handle_exception : exn → exn + value.
Variable concat : list value → value.
Variable literal_eval : string → option value.
Variable text_type : value → string.
Variable add_node : exn → option ParsedNode → exn.
Variable untranslated : exn → string.

Local Abbreviation rendered :=
  (get_rendered from_string handle_exception concat literal_eval text_type
                add_node untranslated).

(** [_convert_function], closed over the arguments of
    [add_rendered_test_kwargs]. *)
Definition _convert_function (context : gmap string value)
    (node : SchemaTestNode) (capture_macros : bool)
    (v : value) (_ : keypath) : ST nat value :=
  match v with
  | VStr s =>
      let source := if looks_like_func s then "{{ " +:+ s +:+ " }}" else s in
      rendered source context (Some (test_node node)) capture_macros true
  | _ => ret v
  end.

(** [add_rendered_test_kwargs]: the context as the call leaves it. *)
Definition add_rendered_test_kwargs (context : gmap string value)
    (node : SchemaTestNode) (capture_macros : bool)
  : ST nat (gmap string value) :=
  let! kwargs := deep_map (_convert_function context node capture_macros)
                          (test_kwargs node) [] in
  ret (<[SCHEMA_TEST_KWARGS_NAME := kwargs]> context).

End TestKwargs.

(** *** Induction on values and the traversal of their parts *)

Section ValueInduction.

Variable P : value → Prop.
Hypothesis P_none : P VNone.
Hypothesis P_bool : ∀ b, P (VBool b).
Hypothesis P_int : ∀ z, P (VInt z).
Hypothesis P_str : ∀ s, P (VStr s).
Hypothesis P_list : ∀ items, Forall P items → P (VList items).
Hypothesis P_dict : ∀ entries, Forall (λ kv, P kv.2) entries → P (VDict entries).

Fixpoint value_induction (v : value) : P v :=
  match v with
  | VNone => P_none
  | VBool b => P_bool b
  | VInt z => P_int z
  | VStr s => P_str s
  | VList items =>
      P_list items
        ((fix go (l : list value) : Forall P l :=
            match l with
            | [] => @List.Forall_nil _ P
            | x :: rest => @List.Forall_cons _ P x rest (value_induction x) (go rest)
            end) items)
  | VDict entries =>
      P_dict entries
        ((fix go (l : list (string * value)) : Forall (λ kv, P kv.2) l :=
            match l with
            | [] => @List.Forall_nil _ (λ kv, P kv.2)
            | (k, x) :: rest =>
                @List.Forall_cons _ (λ kv, P kv.2) (k, x) rest
                                  (value_induction x) (go rest)
            end) entries)
  end.

End ValueInduction.

(** The traversal of the items of a list, from index [i]. *)
Definition deep_map_items {St} (func : value → keypath → ST St value)
    (path : keypath) : nat → list value → ST St (list value) :=
  fix go (i : nat) (l : list value) : ST St (list value) :=
    match l with
    | [] => ret []
    | x :: rest =>
        let! x' := deep_map func x (path ++ [inl i]) in
        let! rest' := go (S i) rest in
        ret (x' :: rest')
    end.

(** The traversal of the entries of a mapping. *)
Definition deep_map_entries {St} (func : value → keypath → ST St value)
    (path : keypath) : list (string * value) → ST St (list (string * value)) :=
  fix go (l : list (string * value)) : ST St (list (string * value)) :=
    match l with
    | [] => ret []
    | (k, x) :: rest =>
        let! x' := deep_map func x (path ++ [inr k]) in
        let! rest' := go rest in
        ret ((k, x') :: rest')
    end.

Lemma deep_map_list {St} (func : value → keypath → ST St value) items path :
  deep_map func (VList items) path =
  (let! items' := deep_map_items func path 0 items in ret (VList items')).
Proof. reflexivity. Qed.

Lemma deep_map_dict {St} (func : value → keypath → ST St value) entries path :
  deep_map func (VDict entries) path =
  (let! entries' := deep_map_entries func path entries in ret (VDict entries')).
Proof. reflexivity. Qed.

(** [entries[k]] *)
Fixpoint assoc (k : string) (entries : list (string * value)) : option value :=
  match entries with
  | [] => None
  | (k', x) :: rest => if String.eqb k' k then Some x else assoc k rest
  end.

(** The value found by following a path of list indices and mapping keys. *)
Fixpoint lookup_path (path : keypath) (v : value) : option value :=
  match path with
  | [] => Some v
  | inl i :: rest =>
      match v with
      | VList items =>
          match items !! i with
          | Some x => lookup_path rest x
          | None => None
          end
      | _ => None
      end
  | inr k :: rest =>
      match v with
      | VDict entries =>
          match assoc k entries with
          | Some x => lookup_path rest x
          | None => None
          end
      | _ => None
      end
  end.

(** The leaves of a value, in the order of the traversal. *)
Fixpoint leaves (v : value) : list value :=
  match v with
  | VList items => flat_map leaves items
  | VDict entries => flat_map (λ '(_, x), leaves x) entries
  | _ => [v]
  end.

Definition is_leaf (v : value) : bool :=
  match v with
  | VList _ | VDict _ => false
  | _ => true
  end.

Section TestKwargsProperties.

Variable from_string :
  Environment → string → exn + (gmap string value → exn + list value).
Variable handle_exception : exn → exn + value.
Variable concat : list value → value.
Variable literal_eval : string → option value.
Variable text_type : value → string.
Variable add_node : exn → option ParsedNode → exn.
Variable untranslated : exn → string.
Variable context : gmap string value.
Variable node : SchemaTestNode.
Variable capture_macros : bool.

Local Abbreviation rendered :=
  (get_rendered from_string handle_exception concat literal_eval text_type
                add_node untranslated).
Local Abbreviation convert :=
  (_convert_function from_string handle_exception concat literal_eval
                     text_type add_node untranslated
                     context node capture_macros).

(** What a leaf of the keyword arguments becomes: a string is rendered
    natively, inside an interpolation when it looks like a call of one of
    the known functions; any other leaf stays. *)
Definition converted_leaf (leaf : value) : exn + value :=
  match leaf with
  | VStr s =>
      (rendered (if looks_like_func s then "{{ " +:+ s +:+ " }}" else s)
                context (Some (test_node node)) capture_macros true 0).1
  | _ => inr leaf
  end.

(** The outcome of rendering does not depend on how many templates were
    created before. *)
Lemma get_rendered_outcome source ctx n cm native made :
  (rendered source ctx n cm native made).1
  = (rendered source ctx n cm native 0).1.
Proof.
  unfold get_rendered, bind, get_template, render_template, catch_jinja.
  destruct (from_string _ source) as [e|code]; simpl.
  - by destruct e.
  - unfold render, NativeSandboxTemplate_render, Template_render, new_context.
    simpl. destruct native; simpl;
      destruct (code _) as [e|nodes]; simpl; try done;
      destruct (is_Exception e); try (by destruct e);
      destruct (handle_exception e) as [e'|v]; try done; by destruct e'.
Qed.

Lemma convert_outcome leaf path made :
  is_leaf leaf = true → (convert leaf path made).1 = converted_leaf leaf.
Proof.
  intros Hleaf. destruct leaf; try done. simpl. apply get_rendered_outcome.
Qed.

(** [v'] holds, at every path to a leaf of [v], what the leaf becomes. *)
Definition leaves_converted (v v' : value) : Prop :=
  ∀ path leaf,
    lookup_path path v = Some leaf → is_leaf leaf = true →
    ∃ leaf', lookup_path path v' = Some leaf' ∧ converted_leaf leaf = inr leaf'.

(** Some string leaf of [v] fails to render, with [e]. *)
Definition leaf_raises (v : value) (e : exn) : Prop :=
  ∃ s, VStr s ∈ leaves v ∧ converted_leaf (VStr s) = inl e.

Definition traversed (v : value) : Prop :=
  ∀ path made,
    match deep_map convert v path made with
    | (inr v', _) => leaves_converted v v'
    | (inl e, _) => leaf_raises v e
    end.

Lemma traversed_leaf v : is_leaf v = true → traversed v.
Proof.
  intros Hleaf path made.
  assert (Hd : deep_map convert v path made = convert v path made)
    by (by destruct v).
  rewrite Hd. pose proof (convert_outcome v path made Hleaf) as Hout.
  destruct (convert v path made) as [[e|v'] made']; simpl in Hout.
  - destruct v; try done. exists s. split; [|done]. simpl. by left.
  - intros [|step rest] leaf; simpl.
    + intros [= <-] _. by exists v'.
    + destruct step, v; done.
Qed.

Lemma traversed_items items :
  Forall traversed items →
  ∀ path i made,
    match deep_map_items convert path i items made with
    | (inr items', _) => Forall2 leaves_converted items items'
    | (inl e, _) => leaf_raises (VList items) e
    end.
Proof.
  induction 1 as [|x rest Hx _ IH]; intros path i made; simpl.
  - constructor.
  - unfold bind at 1. specialize (Hx (path ++ [inl i]) made).
    destruct (deep_map convert x _ made) as [[e|x'] made1].
    + destruct Hx as (s & Hs & He). exists s. split; [|done].
      simpl. apply elem_of_app. by left.
    + unfold bind at 1. specialize (IH path (S i) made1).
      destruct (deep_map_items convert path (S i) rest made1)
        as [[e|rest'] made2].
      * destruct IH as (s & Hs & He). exists s. split; [|done].
        simpl. apply elem_of_app. by right.
      * by constructor.
Qed.

Lemma traversed_entries entries :
  Forall (λ kv, traversed kv.2) entries →
  ∀ path made,
    match deep_map_entries convert path entries made with
    | (inr entries', _) =>
        Forall2 (λ kv kv', kv.1 = kv'.1 ∧ leaves_converted kv.2 kv'.2)
                entries entries'
    | (inl e, _) => leaf_raises (VDict entries) e
    end.
Proof.
  induction 1 as [|[k x] rest Hx _ IH]; intros path made; simpl.
  - constructor.
  - unfold bind at 1. specialize (Hx (path ++ [inr k]) made). simpl in Hx.
    destruct (deep_map convert x _ made) as [[e|x'] made1].
    + destruct Hx as (s & Hs & He). exists s. split; [|done].
      simpl. apply elem_of_app. by left.
    + unfold bind at 1. specialize (IH path made1).
      destruct (deep_map_entries convert path rest made1)
        as [[e|rest'] made2].
      * destruct IH as (s & Hs & He). exists s. split; [|done].
        simpl. apply elem_of_app. by right.
      * by constructor.
Qed.

Lemma leaves_converted_list items items' :
  Forall2 leaves_converted items items' →
  leaves_converted (VList items) (VList items').
Proof.
  intros Hall [|[i|k] rest] leaf; simpl; [by intros [= <-]| |done].
  destruct (items !! i) as [x|] eqn:Hx; [|done].
  destruct (Forall2_lookup_l _ _ _ _ _ Hall Hx) as (x' & -> & Hxx').
  apply Hxx'.
Qed.

Lemma leaves_converted_dict entries entries' :
  Forall2 (λ kv kv', kv.1 = kv'.1 ∧ leaves_converted kv.2 kv'.2)
          entries entries' →
  leaves_converted (VDict entries) (VDict entries').
Proof.
  intros Hall [|[i|k] rest] leaf; simpl; [by intros [= <-]|done|].
  induction Hall as [|[k1 x] [k1' x'] l l' [Hk Hx] _ IH]; simpl; [done|].
  simpl in Hk, Hx. subst k1'.
  destruct (String.eqb k1 k); [apply Hx | apply IH].
Qed.

(** The traversal converts every leaf, or stops at a string leaf that
    fails to render. *)
Lemma deep_map_traversed v : traversed v.
Proof.
  induction v as [| | | |items IH|entries IH] using value_induction;
    try (by apply traversed_leaf).
  - intros path made. rewrite deep_map_list. unfold bind.
    pose proof (traversed_items items IH path 0 made) as Hitems.
    destruct (deep_map_items convert path 0 items made) as [[e|items'] made'];
      [done|]. by apply leaves_converted_list.
  - intros path made. rewrite deep_map_dict. unfold bind.
    pose proof (traversed_entries entries IH path made) as Hentries.
    destruct (deep_map_entries convert path entries made)
      as [[e|entries'] made']; [done|]. by apply leaves_converted_dict.
Qed.

End TestKwargsProperties.

(** The keyword arguments of the example, and a context in which the
    stand-in engine finds the value of [ref('x')]. *)
Definition example_test : SchemaTestNode :=
  mkTest (mkNode "test.proj.accepted" "accepted" "proj" "models/schema.yml" "")
         (VDict [("a", VStr "ref('x')"); ("b", VInt 5);
                 ("c", VList [VStr "id"; VBool true])]).

Definition example_context : gmap string value :=
  {[ "ref('x')" := VStr "analytics.x" ]}.

Definition standin_add_rendered_test_kwargs :=
  add_rendered_test_kwargs Standin.from_string Standin.handle_exception
    (λ _, VNone) Literal.literal_eval Standin.text_type Standin.add_node
    Standin.untranslated.

Example add_rendered_test_kwargs_example :
  (standin_add_rendered_test_kwargs example_context example_test false 0).1
  = inr (<[SCHEMA_TEST_KWARGS_NAME :=
            VDict [("a", VStr "analytics.x"); ("b", VInt 5);
                   ("c", VList [VStr "id"; VBool true])]]> example_context).
Proof. vm_compute. reflexivity. Qed.



(* ===================================================================== *)
(** ** extract_toplevel_blocks and the block lexer *)
(* ===================================================================== *)

(** Modelled from the spec: the records [BlockTag] and [BlockData] of
    [dbt.clients._jinja_blocks], which this file imports: "a structural
    record produced by the Block Lexer — kind [...], optional name, [...]
    raw inner text", and the raw data between two blocks.  A block
    carries its inner text and the whole of its text. *)
Inductive Block : Type :=
| BlockTag (block_type_name : string) (block_name : option string)
           (contents full_block : string)
| BlockData (raw_data : string).

(** The raw span of a record. *)
Definition raw_span (b : Block) : string :=
  match b with
  | BlockTag _ _ _ full_block => full_block
  | BlockData raw_data => raw_data
  end.

Definition is_BlockTag (b : Block) : bool :=
  match b with
  | BlockTag _ _ _ _ => true
  | BlockData _ => false
  end.

(** The characters that delimit a quoted literal, and those of an
    identifier. *)
Definition is_quote (c : ascii) : bool :=
  Ascii.eqb c "'" || Ascii.eqb c double_quote.

Definition ident_char (c : ascii) : bool := is_alpha c || is_digit c.

(** [data[a:b]] *)
Definition slice (a b : nat) (data : list ascii) : string :=
  String.string_of_list_ascii (take (b - a) (drop a data)).

(** The block lexer [BlockIterator] of [dbt.clients._jinja_blocks].  The
    module is not among the sources: everything in it is modelled from
    section 4.1 of the spec. *)
Module BlockIterator.

(** Modelled from the spec: a tag [{% kind name ... %}] of the text, as
    the lexer of [dbt.clients._jinja_blocks] records it: its kind, its
    name if it has one, and its "start/end text offsets", the offset of
    its first character and that of the character after its last. *)
Record Tag : Type := mkTag {
  block_type_name : string;
  block_name : option string;
  tag_start : nat;
  tag_end : nat
}.

(** Modelled from the spec: the states of the scan.  It is in raw text,
    or in one of the "opaque spans": a comment, an expression, or a tag,
    the last two possibly inside a quoted literal that [quote] closes.
    Each span remembers the offset at which it was opened, a tag also the
    characters read so far, last first. *)
Inductive mode : Type :=
| Raw
| InComment (start : nat)
| InExpression (start : nat) (quote : option ascii)
| InTag (start : nat) (seen : list ascii) (quote : option ascii).

(** Modelled from the spec: an identifier at the head of the text, and
    what follows it. *)
Definition identifier (cs : list ascii) : list ascii * list ascii :=
  match cs with
  | c :: _ => if is_alpha c then span ident_char cs
              else ([], cs)
  | [] => ([], [])
  end.

(** Modelled from the spec: the text of a tag without the [-] that may
    follow its opening. *)
Definition drop_dash (inner : list ascii) : list ascii :=
  match inner with
  | "-"%char :: rest => rest
  | _ => inner
  end.

(** Modelled from the spec: the "kind" and the "optional name" of a tag,
    from the text between its delimiters: after an optional [-] and
    whitespace comes the kind, an identifier; an identifier after further
    whitespace is the name. *)
Definition tag_words (inner : list ascii) : option (string * option string) :=
  let '(kind, after_kind) := identifier (span is_space (drop_dash inner)).2 in
  match kind with
  | [] => None
  | _ =>
      let '(gap, after_gap) := span is_space after_kind in
      let '(word, _) := identifier after_gap in
      Some (String.string_of_list_ascii kind,
            match gap, word with
            | _ :: _, _ :: _ => Some (String.string_of_list_ascii word)
            | _, _ => None
            end)
  end.

(** Modelled from the spec: the "hard error identifying the offending
    tag and its start location". *)
Definition lexer_error (what : string) (offset : nat) : exn :=
  compiler_error (what +:+ " at offset " +:+ pretty offset) None.

(** Modelled from the spec: the scan of the block lexer for tags, which
    lives in [dbt.clients._jinja_blocks].  "Quoted literals and comments
    are skipped as opaque spans so that tag-opening sequences inside them
    never trigger false matches": a comment runs to the next [#}]; in an
    expression and in a tag a quoted literal runs to the next quote of
    its kind that no backslash escapes, and the span ends at the first
    closing sequence outside a literal.  What is opened and not closed
    is an error at its start, and so is a tag without a kind. *)
Fixpoint scan (m : mode) (pos : nat) (cs : list ascii) : exn + list Tag :=
  match cs with
  | [] =>
      match m with
      | Raw => inr []
      | InComment start => inl (lexer_error "unterminated comment" start)
      | InExpression start _ =>
          inl (lexer_error "unterminated expression" start)
      | InTag start _ _ => inl (lexer_error "unterminated tag" start)
      end
  | c :: rest =>
      match m with
      | Raw =>
          match rest with
          | d :: rest' =>
              if Ascii.eqb c "{" && Ascii.eqb d "#"
              then scan (InComment pos) (pos + 2) rest'
              else if Ascii.eqb c "{" && Ascii.eqb d "{"
              then scan (InExpression pos None) (pos + 2) rest'
              else if Ascii.eqb c "{" && Ascii.eqb d "%"
              then scan (InTag pos [] None) (pos + 2) rest'
              else scan Raw (pos + 1) rest
          | [] => scan Raw (pos + 1) rest
          end
      | InComment start =>
          match rest with
          | d :: rest' =>
              if Ascii.eqb c "#" && Ascii.eqb d "}"
              then scan Raw (pos + 2) rest'
              else scan (InComment start) (pos + 1) rest
          | [] => scan (InComment start) (pos + 1) rest
          end
      | InExpression start None =>
          match rest with
          | d :: rest' =>
              if Ascii.eqb c "}" && Ascii.eqb d "}"
              then scan Raw (pos + 2) rest'
              else if is_quote c
              then scan (InExpression start (Some c)) (pos + 1) rest
              else scan (InExpression start None) (pos + 1) rest
          | [] =>
              if is_quote c
              then scan (InExpression start (Some c)) (pos + 1) rest
              else scan (InExpression start None) (pos + 1) rest
          end
      | InExpression start (Some q) =>
          if Ascii.eqb c backslash
          then match rest with
               | d :: rest' => scan (InExpression start (Some q)) (pos + 2) rest'
               | [] => scan (InExpression start (Some q)) (pos + 1) rest
               end
          else if Ascii.eqb c q
          then scan (InExpression start None) (pos + 1) rest
          else scan (InExpression start (Some q)) (pos + 1) rest
      | InTag start seen None =>
          match rest with
          | d :: rest' =>
              if Ascii.eqb c "%" && Ascii.eqb d "}"
              then match tag_words (rev seen) with
                   | None => inl (lexer_error "malformed tag" start)
                   | Some (kind, name) =>
                       match scan Raw (pos + 2) rest' with
                       | inl e => inl e
                       | inr tags =>
                           inr (mkTag kind name start (pos + 2) :: tags)
                       end
                   end
              else if is_quote c
              then scan (InTag start (c :: seen) (Some c)) (pos + 1) rest
              else scan (InTag start (c :: seen) None) (pos + 1) rest
          | [] =>
              if is_quote c
              then scan (InTag start (c :: seen) (Some c)) (pos + 1) rest
              else scan (InTag start (c :: seen) None) (pos + 1) rest
          end
      | InTag start seen (Some q) =>
          if Ascii.eqb c backslash
          then match rest with
               | d :: rest' =>
                   scan (InTag start (d :: c :: seen) (Some q)) (pos + 2) rest'
               | [] => scan (InTag start (c :: seen) (Some q)) (pos + 1) rest
               end
          else if Ascii.eqb c q
          then scan (InTag start (c :: seen) None) (pos + 1) rest
          else scan (InTag start (c :: seen) (Some q)) (pos + 1) rest
      end
  end.

(** Modelled from the spec: the tags of the text, in order. *)
Definition find_tags (data : list ascii) : exn + list Tag := scan Raw 0 data.

(** Modelled from the spec: the kinds of the "control constructs
    (conditionals/loops)", which nest. *)
Definition is_control_flow (kind : string) : bool :=
  String.eqb kind "if" || String.eqb kind "for".

(** Modelled from the spec: the kind of control construct that a tag
    ends, if it is the end tag of one. *)
Definition control_flow_end (kind : string) : option string :=
  if String.eqb kind "endif" then Some "if"
  else if String.eqb kind "endfor" then Some "for"
  else None.

(** Modelled from the spec: the kind of block that a tag ends, if it is
    the end tag of a block of an allowed kind. *)
Definition block_end (kind : string) (allowed_blocks : list string)
  : option string :=
  List.find (λ k, String.eqb kind ("end" +:+ k)) allowed_blocks.

(** Modelled from the spec: the record for the raw data between two
    blocks, if it is asked for and there is any. *)
Definition data_record (collect_raw_data : bool) (raw : string) : list Block :=
  if collect_raw_data && negb (String.eqb raw "") then [BlockData raw] else [].

(** Modelled from the spec: the records found so far before those of the
    rest of the pass, unless that fails. *)
Definition prepend (records : list Block) (r : exn + list Block)
  : exn + list Block :=
  match r with
  | inl e => inl e
  | inr more => inr (records ++ more)
  end.

(** Modelled from the spec: the pass of the block lexer over the tags,
    which lives in [dbt.clients._jinja_blocks].  It "produce[s] an ordered
    sequence of Block Tag / raw-data records covering the entire input
    with no gaps and no overlaps".  [stack] holds the tags of the
    constructs that are open, the innermost first; [last_position] is the
    offset up to which the text is covered.
    - "A block tag is recognized only when its opening construct appears
      at nesting depth 0 relative to control constructs": a tag of an
      allowed kind opens a top-level block when nothing is open; inside a
      control construct it opens a block that is not extracted ("a macro
      tag nested inside an [if] is not extracted as top-level"); directly
      inside a block it is an error, since "block tags at top level
      never overlap".
    - "Unmatched/unterminated blocks are a hard error identifying the
      offending tag and its start location": the end tag of a control
      construct or of a block must end the innermost open construct, and
      nothing may be open at the end of the text.
    - The end tag of a top-level block yields its record; "if
      [collect_raw_data] is disabled, only matched block tags are
      returned and intervening text is discarded". *)
Fixpoint find_blocks (data : list ascii) (allowed_blocks : list string)
    (collect_raw_data : bool) (tags : list Tag) (stack : list Tag)
    (last_position : nat) : exn + list Block :=
  match tags with
  | [] =>
      match stack with
      | open :: _ =>
          inl (lexer_error ("unterminated " +:+ block_type_name open)
                           (tag_start open))
      | [] =>
          inr (data_record collect_raw_data
                 (slice last_position (length data) data))
      end
  | tag :: rest =>
      let kind := block_type_name tag in
      if is_control_flow kind then
        find_blocks data allowed_blocks collect_raw_data rest
                    (tag :: stack) last_position
      else
        match control_flow_end kind with
        | Some expected =>
            match stack with
            | open :: stack' =>
                if String.eqb (block_type_name open) expected
                then find_blocks data allowed_blocks collect_raw_data rest
                                 stack' last_position
                else inl (lexer_error ("unexpected " +:+ kind)
                                      (tag_start tag))
            | [] => inl (lexer_error ("unexpected " +:+ kind) (tag_start tag))
            end
        | None =>
            if bool_decide (kind ∈ allowed_blocks) then
              match stack with
              | [] =>
                  prepend
                    (data_record collect_raw_data
                       (slice last_position (tag_start tag) data))
                    (find_blocks data allowed_blocks collect_raw_data rest
                                 [tag] (tag_start tag))
              | open :: _ =>
                  if is_control_flow (block_type_name open)
                  then find_blocks data allowed_blocks collect_raw_data rest
                                   (tag :: stack) last_position
                  else inl (lexer_error ("block inside block " +:+
                                         block_type_name open)
                                        (tag_start tag))
              end
            else
              match block_end kind allowed_blocks with
              | Some expected =>
                  match stack with
                  | open :: stack' =>
                      if String.eqb (block_type_name open) expected
                      then
                        match stack' with
                        | [] =>
                            prepend
                              [BlockTag (block_type_name open)
                                        (block_name open)
                                        (slice (tag_end open) (tag_start tag)
                                               data)
                                        (slice (tag_start open) (tag_end tag)
                                               data)]
                              (find_blocks data allowed_blocks
                                           collect_raw_data rest
                                           [] (tag_end tag))
                        | _ :: _ =>
                            find_blocks data allowed_blocks collect_raw_data
                                        rest stack' last_position
                        end
                      else inl (lexer_error ("unexpected " +:+ kind)
                                            (tag_start tag))
                  | [] =>
                      inl (lexer_error ("unexpected " +:+ kind)
                                       (tag_start tag))
                  end
              | None =>
                  find_blocks data allowed_blocks collect_raw_data rest
                              stack last_position
              end
        end
  end.

(** Modelled from the spec: "an allowed-block set of [None] must use a
    fixed default set recognized by the system
    (macro/test/materialization/docs-equivalent kinds)". *)
Definition default_blocks : list string :=
  ["macro"; "test"; "materialization"; "docs"].

(** Modelled from the spec:
    [BlockIterator(data).lex_for_blocks(allowed_blocks, collect_raw_data)]
    of [dbt.clients._jinja_blocks]: "given raw text, a set of allowed
    top-level block kinds, and a flag for whether to also emit the raw
    text between blocks, produce an ordered sequence of Block Tag /
    raw-data records". *)
Definition lex_for_blocks (data : list ascii)
    (allowed_blocks : option (list string)) (collect_raw_data : bool)
  : exn + list Block :=
  match find_tags data with
  | inl e => inl e
  | inr tags =>
      find_blocks data (default default_blocks allowed_blocks)
                  collect_raw_data tags [] 0
  end.

End BlockIterator.

(** [extract_toplevel_blocks] *)
Definition extract_toplevel_blocks (data : string)
    (allowed_blocks : option (list string)) (collect_raw_data : bool)
  : exn + list Block :=
  BlockIterator.lex_for_blocks (String.list_ascii_of_string data)
                               allowed_blocks collect_raw_data.

(** The concatenation of the raw spans of the records. *)
Definition join_spans (records : list Block) : string :=
  foldr (λ b acc, raw_span b +:+ acc) "" records.

(* --------------------------------------------------------------------- *)
(** *** Template texts *)
(* --------------------------------------------------------------------- *)

(** The texts that the claim is about are given by their structure, not
    by what the lexer makes of them: a text is a sequence of raw text,
    comments, expressions, single tags, control constructs and blocks,
    and the bodies of the last two are such sequences again. *)

(** Inside a quoted literal: a character, or a character that a
    backslash escapes. *)
Inductive glyph : Type :=
| Literal (c : ascii)
| Escaped (c : ascii).

(** Inside an expression or a tag: a character, or a quoted literal. *)
Inductive part : Type :=
| Char (c : ascii)
| Quoted (quote : ascii) (body : list glyph).

Definition render_glyph (g : glyph) : list ascii :=
  match g with
  | Literal c => [c]
  | Escaped c => [backslash; c]
  end.

Definition render_part (p : part) : list ascii :=
  match p with
  | Char c => [c]
  | Quoted q body => q :: flat_map render_glyph body ++ [q]
  end.

Definition render_parts (inner : list part) : list ascii :=
  flat_map render_part inner.

(** A literal runs to its closing quote: the characters in it that are
    not escaped are neither that quote nor a backslash. *)
Definition valid_glyph (q : ascii) (g : glyph) : bool :=
  match g with
  | Literal c => negb (Ascii.eqb c q) && negb (Ascii.eqb c backslash)
  | Escaped _ => true
  end.

Definition valid_part (p : part) : bool :=
  match p with
  | Char c => negb (is_quote c)
  | Quoted q body => is_quote q && forallb (valid_glyph q) body
  end.

(** The characters outside the literals nowhere make the sequence [a }]. *)
Fixpoint no_closer (a : ascii) (inner : list part) : bool :=
  match inner with
  | Char c :: rest =>
      match rest with
      | Char d :: _ => negb (Ascii.eqb c a && Ascii.eqb d "}")
      | _ => true
      end && no_closer a rest
  | Quoted _ _ :: rest => no_closer a rest
  | [] => true
  end.

(** What stands between [{a] and [a}]: literals and characters that do
    not close it early, not even together with the [a] that follows. *)
Definition enclosed (a : ascii) (inner : list part) : bool :=
  forallb valid_part inner && no_closer a (inner ++ [Char a]).

(** Raw text: it holds none of the sequences that open a comment, an
    expression or a tag, and does not end in an opening brace. *)
Definition opens (c d : ascii) : bool :=
  Ascii.eqb c "{" && (Ascii.eqb d "#" || Ascii.eqb d "{" || Ascii.eqb d "%").

Fixpoint no_opener (cs : list ascii) : bool :=
  match cs with
  | c :: rest =>
      match rest with
      | d :: _ => negb (opens c d)
      | [] => true
      end && no_opener rest
  | [] => true
  end.

Definition raw_text (text : list ascii) : bool :=
  no_opener (text ++ ["{"%char]).

(** The text of a comment: it does not hold the sequence [#}]. *)
Fixpoint comment_text (cs : list ascii) : bool :=
  match cs with
  | c :: rest =>
      match rest with
      | d :: _ => negb (Ascii.eqb c "#" && Ascii.eqb d "}")
      | [] => true
      end && comment_text rest
  | [] => true
  end.

Definition is_identifier (word : list ascii) : bool :=
  match word with
  | c :: _ => is_alpha c && forallb ident_char word
  | [] => false
  end.

Definition starts_with (p : ascii → bool) (cs : list ascii) : bool :=
  match cs with
  | c :: _ => p c
  | [] => false
  end.

(** The source of a tag: [{%], an optional [-], whitespace, the kind,
    then whitespace and the name if the tag has one, and the rest of the
    tag up to [%}]. *)
Record TagSource : Type := mkTagSource {
  src_dash : bool;
  src_lead : list ascii;
  src_kind : list ascii;
  src_gap : list ascii;
  src_name : list ascii;
  src_tail : list part
}.

Definition tag_head (t : TagSource) : list ascii :=
  (if src_dash t then ["-"%char] else []) ++ src_lead t ++ src_kind t
  ++ src_gap t ++ src_name t.

Definition tag_parts (t : TagSource) : list part :=
  map Char (tag_head t) ++ src_tail t.

Definition render_tag (t : TagSource) : list ascii :=
  "{"%char :: "%"%char :: render_parts (tag_parts t) ++ ["%"%char; "}"%char].

Arguments render_tag : simpl never.

Definition tag_kind (t : TagSource) : string :=
  String.string_of_list_ascii (src_kind t).

Definition tag_name (t : TagSource) : option string :=
  match src_name t with
  | [] => None
  | _ :: _ => Some (String.string_of_list_ascii (src_name t))
  end.

(** The kind is an identifier after whitespace.  A name is an identifier
    that whitespace separates from the kind; without a name, no letter
    follows the kind, not even after whitespace.  The rest does not go on
    with a character of an identifier, and nothing outside a literal
    closes the tag early. *)
Definition valid_tag (t : TagSource) : bool :=
  forallb is_space (src_lead t)
  && is_identifier (src_kind t)
  && match src_name t with
     | [] =>
         bool_decide (src_gap t = [])
         && negb (starts_with is_alpha
                    (span is_space (render_parts (src_tail t))).2)
     | _ :: _ =>
         is_identifier (src_name t)
         && negb (bool_decide (src_gap t = []))
         && forallb is_space (src_gap t)
     end
  && negb (starts_with ident_char (render_parts (src_tail t)))
  && enclosed "%" (tag_parts t).

(** The items of a text. *)
Inductive item : Type :=
| Plain (text : list ascii)
| Comment (text : list ascii)
| Expression (inner : list part)
| Statement (tag : TagSource)
| Control (open : TagSource) (body : list item) (close : TagSource)
| BlockItem (open : TagSource) (body : list item) (close : TagSource).

Fixpoint render_item (i : item) : list ascii :=
  match i with
  | Plain text => text
  | Comment text => "{"%char :: "#"%char :: text ++ ["#"%char; "}"%char]
  | Expression inner =>
      "{"%char :: "{"%char :: render_parts inner ++ ["}"%char; "}"%char]
  | Statement tag => render_tag tag
  | Control open body close | BlockItem open body close =>
      render_tag open ++ flat_map render_item body ++ render_tag close
  end.

Definition render_items (items : list item) : list ascii :=
  flat_map render_item items.

(** The kinds of the control constructs and of their end tags. *)
Definition control_kinds : list string := ["if"; "for"].
Definition control_words : list string := ["if"; "for"; "endif"; "endfor"].

(** A kind that opens and ends nothing, in a control construct or in a
    block. *)
Definition free_kind (allowed_blocks : list string) (kind : string) : bool :=
  negb (bool_decide (kind ∈ control_words))
  && negb (bool_decide (kind ∈ allowed_blocks))
  && negb (bool_decide (kind ∈ map (λ k, "end" +:+ k) allowed_blocks)).

(** A set of block kinds that can be told from the control constructs and
    from the end tags of blocks. *)
Definition distinct_kinds (allowed_blocks : list string) : bool :=
  forallb (λ k, free_kind [] k
                && negb (bool_decide (k ∈ map (λ k', "end" +:+ k')
                                                allowed_blocks)))
          allowed_blocks.

(** A valid item.  A control construct is [if] or [for] with its end
    tag around valid items; a block has an allowed kind and its end tag
    around valid items, and does not stand directly in the body of a
    block ([in_block]), where blocks would overlap. *)
Fixpoint valid_item (allowed_blocks : list string) (in_block : bool)
    (i : item) : bool :=
  match i with
  | Plain text => raw_text text
  | Comment text => comment_text text
  | Expression inner => enclosed "}" inner
  | Statement tag => valid_tag tag && free_kind allowed_blocks (tag_kind tag)
  | Control open body close =>
      valid_tag open && valid_tag close
      && bool_decide (tag_kind open ∈ control_kinds)
      && String.eqb (tag_kind close) ("end" +:+ tag_kind open)
      && forallb (valid_item allowed_blocks false) body
  | BlockItem open body close =>
      negb in_block
      && valid_tag open && valid_tag close
      && bool_decide (tag_kind open ∈ allowed_blocks)
      && String.eqb (tag_kind close) ("end" +:+ tag_kind open)
      && forallb (valid_item allowed_blocks true) body
  end.

(** A valid text: valid items, of which the blocks are its top-level
    blocks. *)
Definition valid_text (allowed_blocks : list string) (items : list item)
  : bool :=
  forallb (valid_item allowed_blocks false) items.

(** The record of a block. *)
Definition block_record (open : TagSource) (body : list item)
    (close : TagSource) : Block :=
  BlockTag (tag_kind open) (tag_name open)
           (String.string_of_list_ascii (render_items body))
           (String.string_of_list_ascii
              (render_item (BlockItem open body close))).

(** The top-level blocks of a text, in its order. *)
Definition toplevel_blocks (items : list item) : list Block :=
  flat_map (λ i, match i with
                 | BlockItem open body close => [block_record open body close]
                 | _ => []
                 end) items.

(** The records of a text: its top-level blocks in order and, where it is
    asked for and not empty, the text before, between and after them;
    [pending] is the text since the last block. *)
Fixpoint text_records (collect_raw_data : bool) (pending : list ascii)
    (items : list item) : list Block :=
  match items with
  | [] =>
      BlockIterator.data_record collect_raw_data
        (String.string_of_list_ascii pending)
  | BlockItem open body close :: rest =>
      BlockIterator.data_record collect_raw_data
        (String.string_of_list_ascii pending)
      ++ block_record open body close :: text_records collect_raw_data [] rest
  | i :: rest =>
      text_records collect_raw_data (pending ++ render_item i) rest
  end.

(** Induction on items and their bodies. *)
Section ItemInduction.

Variable P : item → Prop.
Hypothesis P_plain : ∀ text, P (Plain text).
Hypothesis P_comment : ∀ text, P (Comment text).
Hypothesis P_expression : ∀ inner, P (Expression inner).
Hypothesis P_statement : ∀ tag, P (Statement tag).
Hypothesis P_control :
  ∀ open body close, Forall P body → P (Control open body close).
Hypothesis P_block :
  ∀ open body close, Forall P body → P (BlockItem open body close).

Fixpoint item_induction (i : item) : P i :=
  match i with
  | Plain text => P_plain text
  | Comment text => P_comment text
  | Expression inner => P_expression inner
  | Statement tag => P_statement tag
  | Control open body close =>
      P_control open body close
        ((fix go (l : list item) : Forall P l :=
            match l with
            | [] => @List.Forall_nil _ P
            | x :: rest =>
                @List.Forall_cons _ P x rest (item_induction x) (go rest)
            end) body)
  | BlockItem open body close =>
      P_block open body close
        ((fix go (l : list item) : Forall P l :=
            match l with
            | [] => @List.Forall_nil _ P
            | x :: rest =>
                @List.Forall_cons _ P x rest (item_induction x) (go rest)
            end) body)
  end.

End ItemInduction.

(** A text with everything in it: raw text, a comment and a literal that
    hold tags, a block whose tags have arguments and whitespace control,
    a block inside a conditional, and a loop inside a block. *)
Definition chars (s : string) : list ascii := String.list_ascii_of_string s.
Definition plain_parts (s : string) : list part := map Char (chars s).
Definition quoted (s : string) : part := Quoted "'" (map Literal (chars s)).

Definition example_items : list item :=
  [ Plain (chars "select ");
    Expression (plain_parts " amount * 100 ");
    Comment (chars " {% macro z %} ");
    BlockItem
      (mkTagSource false (chars " ") (chars "macro") (chars " ") (chars "cents")
                   (plain_parts "(x, sep=" ++ [quoted "%}"] ++ plain_parts ") -"))
      [ Plain (chars " ");
        Expression (plain_parts " " ++ [quoted "{% endmacro %}"]
                    ++ plain_parts " ");
        Control
          (mkTagSource false (chars " ") (chars "for") (chars " ") (chars "i")
                       (plain_parts " in x "))
          [ Expression (plain_parts " i ") ]
          (mkTagSource false (chars " ") (chars "endfor") [] []
                       (plain_parts " ")) ]
      (mkTagSource true (chars " ") (chars "endmacro") [] [] (plain_parts " "));
    Plain (chars " -- ");
    Control
      (mkTagSource false (chars " ") (chars "if") (chars " ") (chars "flag")
                   (plain_parts " "))
      [ BlockItem
          (mkTagSource false (chars " ") (chars "macro") (chars " ")
                       (chars "inner") (plain_parts "() "))
          [ Plain (chars "1") ]
          (mkTagSource false (chars " ") (chars "endmacro") [] []
                       (plain_parts " ")) ]
      (mkTagSource false (chars " ") (chars "endif") [] [] (plain_parts " "));
    BlockItem
      (mkTagSource false (chars " ") (chars "docs") (chars " ") (chars "orders")
                   (plain_parts " "))
      [ Plain (chars "One row per order.") ]
      (mkTagSource false (chars " ") (chars "enddocs") [] [] (plain_parts " ")) ].

(* --------------------------------------------------------------------- *)
(** *** The scan of a valid text *)
(* --------------------------------------------------------------------- *)

Section ScanTexts.

Import BlockIterator.

Definition prepend_tags (tags : list Tag) (r : exn + list Tag)
  : exn + list Tag :=
  match r with
  | inl e => inl e
  | inr more => inr (tags ++ more)
  end.

Lemma prepend_tags_nil r : prepend_tags [] r = r.
Proof. by destruct r. Qed.

Lemma prepend_tags_app tags more r :
  prepend_tags (tags ++ more) r = prepend_tags tags (prepend_tags more r).
Proof. destruct r; simpl; [done|]. by rewrite app_assoc. Qed.

Lemma quote_not_backslash q : is_quote q = true → Ascii.eqb q backslash = false.
Proof. destruct q as [[] [] [] [] [] [] [] []]; by vm_compute. Qed.

Lemma quote_not_brace q : is_quote q = true → Ascii.eqb q "}" = false.
Proof. destruct q as [[] [] [] [] [] [] [] []]; by vm_compute. Qed.

(** Raw text. *)
Lemma scan_raw_step c rest pos :
  match rest with
  | d :: _ => opens c d = false
  | [] => True
  end →
  scan Raw pos (c :: rest) = scan Raw (pos + 1) rest.
Proof.
  destruct rest as [|d rest]; [done|]. unfold opens. intros Hopen.
  change (scan Raw pos (c :: d :: rest))
    with (if Ascii.eqb c "{" && Ascii.eqb d "#"
          then scan (InComment pos) (pos + 2) rest
          else if Ascii.eqb c "{" && Ascii.eqb d "{"
          then scan (InExpression pos None) (pos + 2) rest
          else if Ascii.eqb c "{" && Ascii.eqb d "%"
          then scan (InTag pos [] None) (pos + 2) rest
          else scan Raw (pos + 1) (d :: rest)).
  destruct (Ascii.eqb c "{"); [|done]. simpl in Hopen.
  by destruct (Ascii.eqb d "#"), (Ascii.eqb d "{"), (Ascii.eqb d "%").
Qed.

Lemma opens_brace c d : opens c "{" = false → opens c d = false.
Proof. unfold opens. by destruct (Ascii.eqb c "{"). Qed.

Lemma scan_plain text rest pos :
  raw_text text = true →
  scan Raw pos (text ++ rest) = scan Raw (pos + length text) rest.
Proof.
  unfold raw_text. revert pos.
  induction text as [|c text IH]; intros pos Hraw; simpl app; simpl length.
  - by rewrite Nat.add_0_r.
  - simpl in Hraw. apply andb_true_iff in Hraw as [Hc Hraw].
    rewrite scan_raw_step, (IH _ Hraw); [f_equal; lia|].
    destruct text as [|d text]; simpl in *.
    + apply negb_true_iff in Hc. destruct rest; [done|].
      by apply opens_brace.
    + by apply negb_true_iff in Hc.
Qed.

(** Comments. *)
Lemma scan_comment text rest start pos :
  comment_text text = true →
  scan (InComment start) pos (text ++ "#"%char :: "}"%char :: rest)
  = scan Raw (pos + length text + 2) rest.
Proof.
  revert pos. induction text as [|c text IH]; intros pos Htext; simpl app.
  - simpl. f_equal. lia.
  - simpl in Htext. apply andb_true_iff in Htext as [Hc Htext].
    assert (∀ d more, (Ascii.eqb c "#" && Ascii.eqb d "}") = false →
              scan (InComment start) pos (c :: d :: more)
              = scan (InComment start) (pos + 1) (d :: more)) as Hstep.
    { intros d more Hcd.
      change (scan (InComment start) pos (c :: d :: more))
        with (if Ascii.eqb c "#" && Ascii.eqb d "}"
              then scan Raw (pos + 2) more
              else scan (InComment start) (pos + 1) (d :: more)).
      by rewrite Hcd. }
    destruct text as [|d text]; simpl app in *.
    + rewrite Hstep by (by rewrite andb_false_r).
      rewrite (IH (pos + 1)) by done. simpl. f_equal. lia.
    + rewrite Hstep by (by apply negb_true_iff in Hc).
      rewrite (IH (pos + 1)) by done. simpl. f_equal. lia.
Qed.

(** A quoted literal, in an expression and in a tag. *)
Lemma scan_literal_expression q body more start pos :
  is_quote q = true → forallb (valid_glyph q) body = true →
  scan (InExpression start (Some q)) pos
       (flat_map render_glyph body ++ q :: more)
  = scan (InExpression start None)
         (pos + length (flat_map render_glyph body) + 1) more.
Proof.
  intros Hq. revert pos.
  induction body as [|g body IH]; intros pos Hbody; simpl app.
  - simpl. rewrite (quote_not_backslash q Hq), Ascii.eqb_refl.
    f_equal. lia.
  - simpl in Hbody. apply andb_true_iff in Hbody as [Hg Hbody].
    destruct g as [c|c]; simpl in Hg |- *.
    + apply andb_true_iff in Hg as [Hcq Hcb].
      apply negb_true_iff in Hcq, Hcb. rewrite Hcb, Hcq.
      rewrite (IH _ Hbody). f_equal. lia.
    + rewrite ?Ascii.eqb_refl, (IH _ Hbody). f_equal. lia.
Qed.

Lemma scan_literal_tag q body more start seen pos :
  is_quote q = true → forallb (valid_glyph q) body = true →
  scan (InTag start seen (Some q)) pos
       (flat_map render_glyph body ++ q :: more)
  = scan (InTag start (q :: rev (flat_map render_glyph body) ++ seen) None)
         (pos + length (flat_map render_glyph body) + 1) more.
Proof.
  intros Hq. revert pos seen.
  induction body as [|g body IH]; intros pos seen Hbody; simpl app.
  - simpl. rewrite (quote_not_backslash q Hq), Ascii.eqb_refl.
    f_equal. lia.
  - simpl in Hbody. apply andb_true_iff in Hbody as [Hg Hbody].
    destruct g as [c|c]; simpl in Hg |- *.
    + apply andb_true_iff in Hg as [Hcq Hcb].
      apply negb_true_iff in Hcq, Hcb. rewrite Hcb, Hcq.
      rewrite (IH _ _ Hbody). rewrite <- !app_assoc. simpl.
      f_equal. lia.
    + rewrite ?Ascii.eqb_refl, (IH _ _ Hbody).
      rewrite <- !app_assoc. simpl. f_equal. lia.
Qed.

(** The character after a character outside the literals does not close
    the span. *)
Lemma no_closer_next a c inner more :
  forallb valid_part inner = true →
  no_closer a (Char c :: inner ++ [Char a]) = true →
  ∃ d after,
    render_parts inner ++ a :: "}"%char :: more = d :: after ∧
    (Ascii.eqb c a && Ascii.eqb d "}") = false.
Proof.
  intros Hvalid Hclose. destruct inner as [|[d|q body] inner]; simpl in *.
  - exists a, ("}"%char :: more). split; [done|].
    apply andb_true_iff in Hclose as [Hc _]. by apply negb_true_iff in Hc.
  - exists d, (render_parts inner ++ a :: "}"%char :: more). split; [done|].
    apply andb_true_iff in Hclose as [Hc _]. by apply negb_true_iff in Hc.
  - exists q, ((flat_map render_glyph body ++ [q]) ++ render_parts inner
               ++ a :: "}"%char :: more).
    split; [by rewrite <- app_assoc|].
    apply andb_true_iff in Hvalid as [[Hq _]%andb_true_iff _].
    by rewrite (quote_not_brace q Hq), andb_false_r.
Qed.

Lemma no_closer_tail a p inner :
  no_closer a (p :: inner) = true → no_closer a inner = true.
Proof. destruct p; simpl; [|done]. by intros [_ ?]%andb_true_iff. Qed.

(** Expressions. *)
Lemma scan_expression inner rest start pos :
  enclosed "}" inner = true →
  scan (InExpression start None) pos
       (render_parts inner ++ "}"%char :: "}"%char :: rest)
  = scan Raw (pos + length (render_parts inner) + 2) rest.
Proof.
  unfold enclosed. intros [Hvalid Hclose]%andb_true_iff. revert pos.
  induction inner as [|p inner IH]; intros pos.
  - simpl. f_equal. lia.
  - pose proof (no_closer_tail _ _ _ Hclose) as Hclose'.
    simpl in Hvalid. apply andb_true_iff in Hvalid as [Hp Hvalid].
    specialize (IH Hvalid Hclose').
    destruct p as [c|q body].
    + destruct (no_closer_next "}" c inner rest Hvalid Hclose)
        as (d & after & Hnext & Hcd).
      change (render_parts (Char c :: inner))
        with (c :: render_parts inner).
      simpl app. simpl length. rewrite Hnext.
      change (scan (InExpression start None) pos (c :: d :: after))
        with (if Ascii.eqb c "}" && Ascii.eqb d "}"
              then scan Raw (pos + 2) after
              else if is_quote c
              then scan (InExpression start (Some c)) (pos + 1) (d :: after)
              else scan (InExpression start None) (pos + 1) (d :: after)).
      rewrite Hcd. simpl in Hp. apply negb_true_iff in Hp. rewrite Hp.
      rewrite <- Hnext, IH. f_equal. lia.
    + simpl in Hp. apply andb_true_iff in Hp as [Hq Hbody].
      change (render_parts (Quoted q body :: inner))
        with ((q :: flat_map render_glyph body ++ [q]) ++ render_parts inner).
      rewrite <- app_assoc. simpl app. rewrite <- app_assoc. simpl app.
      set (more := render_parts inner ++ "}"%char :: "}"%char :: rest).
      assert (scan (InExpression start None) pos
                (q :: flat_map render_glyph body ++ q :: more)
              = scan (InExpression start (Some q)) (pos + 1)
                  (flat_map render_glyph body ++ q :: more)) as ->.
      { destruct (flat_map render_glyph body ++ q :: more) as [|d after] eqn:E.
        - by destruct (flat_map render_glyph body).
        - change (scan (InExpression start None) pos (q :: d :: after))
            with (if Ascii.eqb q "}" && Ascii.eqb d "}"
                  then scan Raw (pos + 2) after
                  else if is_quote q
                  then scan (InExpression start (Some q)) (pos + 1)
                            (d :: after)
                  else scan (InExpression start None) (pos + 1) (d :: after)).
          by rewrite (quote_not_brace q Hq), Hq. }
      rewrite scan_literal_expression by done. unfold more. rewrite IH.
      f_equal. simpl length. rewrite !length_app. simpl length. lia.
Qed.

(** Tags: the scan reads the tag into [seen] and closes it at the first
    [%}] outside a literal. *)
Lemma scan_tag_parts inner rest start pos :
  ∀ seen,
    enclosed "%" inner = true →
    scan (InTag start seen None) pos
         (render_parts inner ++ "%"%char :: "}"%char :: rest)
    = match tag_words (rev seen ++ render_parts inner) with
      | None => inl (lexer_error "malformed tag" start)
      | Some (kind, name) =>
          prepend_tags
            [mkTag kind name start (pos + length (render_parts inner) + 2)]
            (scan Raw (pos + length (render_parts inner) + 2) rest)
      end.
Proof.
  unfold enclosed. intros seen [Hvalid Hclose]%andb_true_iff.
  revert pos seen.
  induction inner as [|p inner IH]; intros pos seen.
  - simpl. rewrite app_nil_r, Nat.add_0_r.
    destruct (tag_words (rev seen)) as [[kind name]|]; [|done].
    by destruct (scan Raw (pos + 2) rest).
  - pose proof (no_closer_tail _ _ _ Hclose) as Hclose'.
    simpl in Hvalid. apply andb_true_iff in Hvalid as [Hp Hvalid].
    specialize (IH Hvalid Hclose').
    destruct p as [c|q body].
    + destruct (no_closer_next "%" c inner rest Hvalid Hclose)
        as (d & after & Hnext & Hcd).
      change (render_parts (Char c :: inner))
        with (c :: render_parts inner).
      simpl app. simpl length. rewrite Hnext.
      change (scan (InTag start seen None) pos (c :: d :: after))
        with (if Ascii.eqb c "%" && Ascii.eqb d "}"
              then match tag_words (rev seen) with
                   | None => inl (lexer_error "malformed tag" start)
                   | Some (kind, name) =>
                       match scan Raw (pos + 2) after with
                       | inl e => inl e
                       | inr tags =>
                           inr (mkTag kind name start (pos + 2) :: tags)
                       end
                   end
              else if is_quote c
              then scan (InTag start (c :: seen) (Some c)) (pos + 1)
                        (d :: after)
              else scan (InTag start (c :: seen) None) (pos + 1) (d :: after)).
      rewrite Hcd. simpl in Hp. apply negb_true_iff in Hp. rewrite Hp.
      rewrite <- Hnext, IH. simpl rev. rewrite <- app_assoc. simpl app.
      by replace (pos + 1 + length (render_parts inner) + 2)
        with (pos + S (length (render_parts inner)) + 2) by lia.
    + simpl in Hp. apply andb_true_iff in Hp as [Hq Hbody].
      change (render_parts (Quoted q body :: inner))
        with ((q :: flat_map render_glyph body ++ [q]) ++ render_parts inner).
      rewrite <- !app_assoc. simpl app. rewrite <- !app_assoc. simpl app.
      set (more := render_parts inner ++ "%"%char :: "}"%char :: rest).
      assert (scan (InTag start seen None) pos
                (q :: flat_map render_glyph body ++ q :: more)
              = scan (InTag start (q :: seen) (Some q)) (pos + 1)
                  (flat_map render_glyph body ++ q :: more)) as ->.
      { destruct (flat_map render_glyph body ++ q :: more) as [|d after] eqn:E.
        - by destruct (flat_map render_glyph body).
        - change (scan (InTag start seen None) pos (q :: d :: after))
            with (if Ascii.eqb q "%" && Ascii.eqb d "}"
                  then match tag_words (rev seen) with
                       | None => inl (lexer_error "malformed tag" start)
                       | Some (kind, name) =>
                           match scan Raw (pos + 2) after with
                           | inl e => inl e
                           | inr tags =>
                               inr (mkTag kind name start (pos + 2) :: tags)
                           end
                       end
                  else if is_quote q
                  then scan (InTag start (q :: seen) (Some q)) (pos + 1)
                            (d :: after)
                  else scan (InTag start (q :: seen) None) (pos + 1)
                            (d :: after)).
          rewrite Hq. destruct (Ascii.eqb q "%") eqn:Hpercent; [|done].
          apply Ascii.eqb_eq in Hpercent. by subst q. }
      rewrite scan_literal_tag by done. unfold more. rewrite IH.
      simpl rev. rewrite !rev_app_distr. simpl rev. simpl app.
      rewrite <- !app_assoc. simpl app.
      replace (pos + 1 + length (flat_map render_glyph body) + 1
               + length (render_parts inner) + 2)
        with (pos + length (q :: flat_map render_glyph body ++ [q]
                            ++ render_parts inner) + 2)
        by (simpl length; rewrite !length_app; simpl length; lia).
      by rewrite rev_involutive.
Qed.

End ScanTexts.
(* --------------------------------------------------------------------- *)
(** *** The tags of a valid text *)
(* --------------------------------------------------------------------- *)

Section TagWords.

Import BlockIterator.

Lemma alpha_not_space c : is_alpha c = true → is_space c = false.
Proof. destruct c as [[] [] [] [] [] [] [] []]; by vm_compute. Qed.

Lemma space_not_ident c : is_space c = true → ident_char c = false.
Proof. destruct c as [[] [] [] [] [] [] [] []]; by vm_compute. Qed.

Lemma alpha_not_dash c : is_alpha c = true → Ascii.eqb c "-" = false.
Proof. destruct c as [[] [] [] [] [] [] [] []]; by vm_compute. Qed.

Lemma space_not_dash c : is_space c = true → Ascii.eqb c "-" = false.
Proof. destruct c as [[] [] [] [] [] [] [] []]; by vm_compute. Qed.

Lemma ident_not_quote c : ident_char c = true → is_quote c = false.
Proof. destruct c as [[] [] [] [] [] [] [] []]; by vm_compute. Qed.

Lemma span_app p l rest :
  forallb p l = true →
  match rest with c :: _ => p c = false | [] => True end →
  span p (l ++ rest) = (l, rest).
Proof.
  intros Hl Hrest. induction l as [|c l IH]; simpl in *.
  - destruct rest as [|d rest]; [done|]. simpl. by rewrite Hrest.
  - apply andb_true_iff in Hl as [-> Hl]. by rewrite (IH Hl).
Qed.

Lemma identifier_app word rest :
  is_identifier word = true →
  match rest with c :: _ => ident_char c = false | [] => True end →
  identifier (word ++ rest) = (word, rest).
Proof.
  intros Hword Hrest. destruct word as [|c word]; [done|].
  simpl in Hword. apply andb_true_iff in Hword as [Hc Hword].
  change (identifier ((c :: word) ++ rest))
    with (if is_alpha c then span ident_char ((c :: word) ++ rest)
          else ([], (c :: word) ++ rest)).
  rewrite Hc. by apply span_app.
Qed.

Lemma identifier_none cs :
  starts_with is_alpha cs = false → identifier cs = ([], cs).
Proof. destruct cs as [|c cs]; simpl; [done|]. by intros ->. Qed.

Lemma identifier_head word rest :
  is_identifier word = true →
  ∃ c after, word ++ rest = c :: after ∧ is_alpha c = true.
Proof.
  destruct word as [|c word]; [done|]. simpl.
  intros [Hc _]%andb_true_iff. by exists c, (word ++ rest).
Qed.

Lemma drop_dash_other c rest :
  Ascii.eqb c "-" = false → drop_dash (c :: rest) = c :: rest.
Proof. destruct c as [[] [] [] [] [] [] [] []]; by vm_compute. Qed.

Lemma render_parts_app inner more :
  render_parts (inner ++ more) = render_parts inner ++ render_parts more.
Proof. apply flat_map_app. Qed.

Lemma render_parts_chars cs : render_parts (map Char cs) = cs.
Proof. induction cs as [|c cs IH]; simpl; [done|]. by rewrite IH. Qed.

Lemma render_tag_parts t :
  render_parts (tag_parts t) = tag_head t ++ render_parts (src_tail t).
Proof.
  unfold tag_parts. by rewrite render_parts_app, render_parts_chars.
Qed.

(** The kind and the name that the lexer reads off a tag are those of
    its source. *)
Lemma tag_words_source t :
  valid_tag t = true →
  tag_words (render_parts (tag_parts t)) = Some (tag_kind t, tag_name t).
Proof.
  unfold valid_tag.
  intros [[[[Hlead Hkind]%andb_true_iff Hname]%andb_true_iff
             Htail%negb_true_iff]%andb_true_iff _]%andb_true_iff.
  rewrite render_tag_parts. unfold tag_head, tag_words.
  set (rest := render_parts (src_tail t)) in *.
  set (after := src_gap t ++ src_name t ++ rest).
  assert (drop_dash (((if src_dash t then ["-"%char] else []) ++ src_lead t
                      ++ src_kind t ++ src_gap t ++ src_name t) ++ rest)
          = src_lead t ++ src_kind t ++ after) as ->.
  { unfold after. rewrite <- !app_assoc.
    destruct (src_dash t); [done|]. simpl app.
    destruct (src_lead t) as [|s lead] eqn:Elead.
    - destruct (identifier_head (src_kind t) (src_gap t ++ src_name t ++ rest)
                  Hkind) as (c & more & Hhead & Hc).
      simpl app. rewrite Hhead. apply drop_dash_other.
      by apply alpha_not_dash.
    - simpl in Hlead. apply andb_true_iff in Hlead as [Hs _].
      simpl app. apply drop_dash_other. by apply space_not_dash. }
  rewrite (span_app is_space (src_lead t)); [|done|].
  2:{ destruct (identifier_head (src_kind t) after Hkind)
        as (c & more & -> & Hc). by apply alpha_not_space. }
  simpl snd.
  assert (match after with
          | c :: _ => ident_char c = false
          | [] => True
          end) as Hafter.
  { unfold after. destruct (src_name t) as [|n name] eqn:Ename.
    - apply andb_true_iff in Hname as [Hgap%bool_decide_eq_true _].
      rewrite Hgap. simpl. by destruct rest.
    - apply andb_true_iff in Hname
        as [[_ Hgap%negb_true_iff%bool_decide_eq_false]%andb_true_iff Hsp].
      destruct (src_gap t) as [|g gap]; [done|]. simpl in Hsp |- *.
      apply andb_true_iff in Hsp as [Hg _]. by apply space_not_ident. }
  rewrite (identifier_app (src_kind t) after Hkind Hafter).
  destruct (src_kind t) as [|k kind] eqn:Ekind; [done|].
  unfold tag_kind, tag_name. rewrite Ekind. unfold after.
  destruct (src_name t) as [|n name] eqn:Ename.
  - apply andb_true_iff in Hname
      as [Hgap%bool_decide_eq_true Hword%negb_true_iff].
    rewrite Hgap. simpl app.
    destruct (span is_space rest) as [gap word] eqn:Hspan. simpl in Hword.
    rewrite (identifier_none word Hword). by destruct gap.
  - apply andb_true_iff in Hname
      as [[Hid Hgap%negb_true_iff%bool_decide_eq_false]%andb_true_iff Hsp].
    rewrite (span_app is_space (src_gap t)); [|done|].
    2:{ destruct (identifier_head (n :: name) rest Hid)
          as (c & more & -> & Hc). by apply alpha_not_space. }
    rewrite (identifier_app (n :: name) rest Hid)
      by (by destruct rest).
    by destruct (src_gap t).
Qed.

End TagWords.

(** The tag that the lexer records for a tag of the text at an offset. *)
Definition tag_at (pos : nat) (t : TagSource) : BlockIterator.Tag :=
  BlockIterator.mkTag (tag_kind t) (tag_name t) pos
                      (pos + length (render_tag t)).

(** The tags of an item that starts at an offset, in the order of the
    text. *)
Fixpoint item_tags (i : item) (pos : nat) {struct i}
  : list BlockIterator.Tag :=
  match i with
  | Plain _ | Comment _ | Expression _ => []
  | Statement tag => [tag_at pos tag]
  | Control open body close | BlockItem open body close =>
      tag_at pos open ::
        (fix go (items : list item) (pos : nat) {struct items}
           : list BlockIterator.Tag :=
           match items with
           | [] => []
           | x :: rest =>
               item_tags x pos ++ go rest (pos + length (render_item x))
           end) body (pos + length (render_tag open))
        ++ [tag_at (pos + length (render_tag open)
                    + length (render_items body)) close]
  end.

Definition items_tags : list item → nat → list BlockIterator.Tag :=
  fix go (items : list item) (pos : nat) {struct items}
    : list BlockIterator.Tag :=
    match items with
    | [] => []
    | x :: rest => item_tags x pos ++ go rest (pos + length (render_item x))
    end.

Lemma items_tags_cons x rest pos :
  items_tags (x :: rest) pos
  = item_tags x pos ++ items_tags rest (pos + length (render_item x)).
Proof. reflexivity. Qed.

Lemma item_tags_construct i open body close pos :
  i = Control open body close ∨ i = BlockItem open body close →
  item_tags i pos
  = tag_at pos open ::
      items_tags body (pos + length (render_tag open))
      ++ [tag_at (pos + length (render_tag open) + length (render_items body))
                 close].
Proof. by intros [->| ->]. Qed.

Lemma render_construct i open body close :
  i = Control open body close ∨ i = BlockItem open body close →
  render_item i = render_tag open ++ render_items body ++ render_tag close.
Proof. by intros [->| ->]. Qed.

Lemma render_items_cons x rest :
  render_items (x :: rest) = render_item x ++ render_items rest.
Proof. reflexivity. Qed.

Section ScanItems.

Import BlockIterator.

(** The scan of a tag of the text. *)
Lemma scan_tag t rest pos :
  valid_tag t = true →
  scan Raw pos (render_tag t ++ rest)
  = prepend_tags [tag_at pos t]
                 (scan Raw (pos + length (render_tag t)) rest).
Proof.
  intros Hvalid. pose proof (tag_words_source t Hvalid) as Hwords.
  unfold valid_tag in Hvalid.
  apply andb_true_iff in Hvalid as [_ Henclosed].
  unfold render_tag. simpl app. rewrite <- app_assoc. simpl app.
  change (scan Raw pos
            ("{"%char :: "%"%char :: render_parts (tag_parts t)
             ++ "%"%char :: "}"%char :: rest))
    with (scan (InTag pos [] None) (pos + 2)
               (render_parts (tag_parts t) ++ "%"%char :: "}"%char :: rest)).
  rewrite (scan_tag_parts _ _ _ _ [] Henclosed). simpl rev. simpl app.
  rewrite Hwords. unfold tag_at, render_tag. simpl length.
  rewrite length_app. simpl length.
  by replace (pos + 2 + length (render_parts (tag_parts t)) + 2)
    with (pos + S (S (length (render_parts (tag_parts t)) + 2))) by lia.
Qed.

(** The validity of an item, whatever stands around it. *)
Definition scans (i : item) : Prop :=
  ∀ allowed in_block rest pos,
    valid_item allowed in_block i = true →
    scan Raw pos (render_item i ++ rest)
    = prepend_tags (item_tags i pos)
                   (scan Raw (pos + length (render_item i)) rest).

Lemma scan_body body :
  Forall scans body →
  ∀ allowed in_block rest pos,
    forallb (valid_item allowed in_block) body = true →
    scan Raw pos (render_items body ++ rest)
    = prepend_tags (items_tags body pos)
                   (scan Raw (pos + length (render_items body)) rest).
Proof.
  induction 1 as [|x body Hx _ IH]; intros allowed in_block rest pos Hvalid.
  - simpl. by rewrite Nat.add_0_r, prepend_tags_nil.
  - simpl in Hvalid. apply andb_true_iff in Hvalid as [Hvx Hvalid].
    rewrite render_items_cons, items_tags_cons, <- app_assoc.
    rewrite (Hx allowed in_block _ _ Hvx), (IH allowed in_block _ _ Hvalid).
    by rewrite prepend_tags_app, length_app, Nat.add_assoc.
Qed.

Lemma scan_construct i open body close :
  i = Control open body close ∨ i = BlockItem open body close →
  Forall scans body →
  ∀ allowed in_block rest pos,
    valid_tag open = true → valid_tag close = true →
    forallb (valid_item allowed in_block) body = true →
    scan Raw pos (render_item i ++ rest)
    = prepend_tags (item_tags i pos)
                   (scan Raw (pos + length (render_item i)) rest).
Proof.
  intros Hi Hbody allowed in_block rest pos Hopen Hclose Hvalid.
  rewrite (render_construct i open body close Hi),
          (item_tags_construct i open body close pos Hi).
  rewrite <- !app_assoc, (scan_tag open _ _ Hopen).
  rewrite (scan_body body Hbody allowed in_block _ _ Hvalid).
  rewrite (scan_tag close _ _ Hclose).
  change (tag_at pos open :: ?l) with ([tag_at pos open] ++ l).
  rewrite !prepend_tags_app, !length_app, !Nat.add_assoc.
  by rewrite ?prepend_tags_nil.
Qed.

Lemma scan_item i : scans i.
Proof.
  induction i as [text|text|inner|tag|open body close IH|open body close IH]
    using item_induction; intros allowed in_block rest pos Hvalid.
  - simpl in *. by rewrite prepend_tags_nil, scan_plain.
  - simpl in Hvalid. simpl render_item. simpl app. rewrite <- app_assoc.
    simpl app.
    change (scan Raw pos ("{"%char :: "#"%char :: text
                          ++ "#"%char :: "}"%char :: rest))
      with (scan (InComment pos) (pos + 2)
                 (text ++ "#"%char :: "}"%char :: rest)).
    rewrite scan_comment by done. simpl item_tags.
    rewrite prepend_tags_nil. f_equal. simpl length. rewrite length_app.
    simpl. lia.
  - simpl in Hvalid. simpl render_item. simpl app. rewrite <- app_assoc.
    simpl app.
    change (scan Raw pos ("{"%char :: "{"%char :: render_parts inner
                          ++ "}"%char :: "}"%char :: rest))
      with (scan (InExpression pos None) (pos + 2)
                 (render_parts inner ++ "}"%char :: "}"%char :: rest)).
    rewrite scan_expression by done. simpl item_tags.
    rewrite prepend_tags_nil. f_equal. simpl length. rewrite length_app.
    simpl. lia.
  - simpl in Hvalid. apply andb_true_iff in Hvalid as [Hvalid _].
    by apply scan_tag.
  - simpl in Hvalid.
    apply andb_true_iff in Hvalid
      as [[[[Hopen Hclose]%andb_true_iff _]%andb_true_iff _]%andb_true_iff
            Hbody].
    by apply (scan_construct _ open body close (or_introl eq_refl) IH
                allowed false).
  - simpl in Hvalid.
    apply andb_true_iff in Hvalid
      as [[[[[_ Hopen]%andb_true_iff Hclose]%andb_true_iff
              _]%andb_true_iff _]%andb_true_iff Hbody].
    by apply (scan_construct _ open body close (or_intror eq_refl) IH
                allowed true).
Qed.

(** The tags that the lexer finds in a valid text are the tags of its
    items. *)
Lemma find_tags_text allowed items :
  valid_text allowed items = true →
  find_tags (render_items items) = inr (items_tags items 0).
Proof.
  intros Hvalid. unfold find_tags.
  assert (Forall scans items) as Hscans
    by (apply Forall_forall; intros i _; apply scan_item).
  rewrite <- (app_nil_r (render_items items)).
  rewrite (scan_body items Hscans allowed false [] 0 Hvalid).
  simpl. by rewrite app_nil_r.
Qed.

End ScanItems.
(* --------------------------------------------------------------------- *)
(** *** The pass over the tags of a valid text *)
(* --------------------------------------------------------------------- *)

Section Kinds.

Import BlockIterator.

Lemma end_kind_not_control k : is_control_flow ("end" +:+ k) = false.
Proof. reflexivity. Qed.

Lemma end_kind_eqb a b : String.eqb ("end" +:+ a) ("end" +:+ b) = String.eqb a b.
Proof. reflexivity. Qed.

Lemma control_kind_open k :
  k ∈ control_kinds → is_control_flow k = true.
Proof.
  intros Hk%list_elem_of_In. simpl in Hk. by destruct Hk as [<-|[<-|[]]].
Qed.

Lemma control_kind_end k :
  k ∈ control_kinds → control_flow_end ("end" +:+ k) = Some k.
Proof.
  intros Hk%list_elem_of_In. simpl in Hk. by destruct Hk as [<-|[<-|[]]].
Qed.

Lemma not_control_word k :
  k ∉ control_words →
  is_control_flow k = false ∧ control_flow_end k = None.
Proof.
  unfold control_words, is_control_flow, control_flow_end. intros Hk.
  destruct (String.eqb_spec k "if") as [->|_]; [set_solver|].
  destruct (String.eqb_spec k "for") as [->|_]; [set_solver|].
  destruct (String.eqb_spec k "endif") as [->|_]; [set_solver|].
  destruct (String.eqb_spec k "endfor") as [->|_]; [set_solver|]. done.
Qed.

Lemma end_kind_not_control_end k :
  k ∉ control_words → control_flow_end ("end" +:+ k) = None.
Proof.
  unfold control_words, control_flow_end. intros Hk.
  change "endif" with ("end" +:+ "if"). change "endfor" with ("end" +:+ "for").
  rewrite !end_kind_eqb.
  destruct (String.eqb_spec k "if") as [->|_]; [set_solver|].
  destruct (String.eqb_spec k "for") as [->|_]; [set_solver|]. done.
Qed.

Lemma block_end_none kind allowed :
  kind ∉ map (λ k, "end" +:+ k) allowed → block_end kind allowed = None.
Proof.
  unfold block_end.
  induction allowed as [|b allowed IH]; cbn -[String.append String.eqb];
    [done|].
  intros Hk. destruct (String.eqb_spec kind ("end" +:+ b)) as [->|_].
  - set_solver.
  - apply IH. set_solver.
Qed.

Lemma block_end_some k allowed :
  k ∈ allowed → block_end ("end" +:+ k) allowed = Some k.
Proof.
  unfold block_end.
  induction allowed as [|b allowed IH]; cbn -[String.append String.eqb].
  - set_solver.
  - intros Hk. rewrite end_kind_eqb.
    destruct (String.eqb_spec k b) as [->|Hkb]; [done|].
    apply IH. set_solver.
Qed.

(** What a free kind is to the pass. *)
Lemma free_kind_spec allowed kind :
  free_kind allowed kind = true →
  is_control_flow kind = false ∧ control_flow_end kind = None ∧
  (kind ∉ allowed) ∧ block_end kind allowed = None.
Proof.
  unfold free_kind.
  intros [[Hc%negb_true_iff%bool_decide_eq_false
             Ha%negb_true_iff%bool_decide_eq_false]%andb_true_iff
            He%negb_true_iff%bool_decide_eq_false]%andb_true_iff.
  destruct (not_control_word kind Hc) as [? ?].
  repeat split; try done. by apply block_end_none.
Qed.

(** What the kind of a block and its end tag are to the pass. *)
Lemma block_kind_spec allowed k :
  distinct_kinds allowed = true → k ∈ allowed →
  is_control_flow k = false ∧ control_flow_end k = None ∧
  control_flow_end ("end" +:+ k) = None ∧
  ("end" +:+ k ∉ allowed) ∧ block_end ("end" +:+ k) allowed = Some k.
Proof.
  unfold distinct_kinds. rewrite forallb_forall. intros Hall Hk.
  assert ((k ∉ control_words) ∧
          ∀ b, b ∈ allowed → b ∉ map (λ k', "end" +:+ k') allowed)
    as [Hc Hends].
  { split.
    - specialize (Hall k (proj1 (list_elem_of_In _ _) Hk)).
      apply andb_true_iff in Hall as [Hfree _].
      unfold free_kind in Hfree.
      apply andb_true_iff in Hfree as [[Hc _]%andb_true_iff _].
      by apply negb_true_iff, bool_decide_eq_false in Hc.
    - intros b Hb. specialize (Hall b (proj1 (list_elem_of_In _ _) Hb)).
      apply andb_true_iff in Hall as [_ He].
      by apply negb_true_iff, bool_decide_eq_false in He. }
  destruct (not_control_word k Hc) as [? ?].
  repeat split; try done.
  - by apply end_kind_not_control_end.
  - intros Hend. apply (Hends _ Hend). apply list_elem_of_In.
    apply in_map. by apply list_elem_of_In.
  - by apply block_end_some.
Qed.

End Kinds.

Lemma string_of_list_ascii_app l1 l2 :
  String.string_of_list_ascii (l1 ++ l2)
  = String.string_of_list_ascii l1 +:+ String.string_of_list_ascii l2.
Proof. induction l1 as [|c l1 IH]; simpl; [done|]. by rewrite IH. Qed.

Section BlockPass.

Import BlockIterator.

Variable data : list ascii.
Variable allowed : list string.
Variable collect : bool.
Hypothesis allowed_distinct : distinct_kinds allowed = true.

Local Abbreviation pass := (find_blocks data allowed collect).

(** The steps of the pass. *)
Lemma pass_push tag rest stack last :
  is_control_flow (block_type_name tag) = true →
  pass (tag :: rest) stack last = pass rest (tag :: stack) last.
Proof. intros Hkind. simpl. by rewrite Hkind. Qed.

Lemma pass_pop_control tag rest open stack last :
  is_control_flow (block_type_name tag) = false →
  control_flow_end (block_type_name tag) = Some (block_type_name open) →
  pass (tag :: rest) (open :: stack) last = pass rest stack last.
Proof. intros Hkind Hend. simpl. by rewrite Hkind, Hend, String.eqb_refl. Qed.

Lemma pass_ignore tag rest stack last :
  free_kind allowed (block_type_name tag) = true →
  pass (tag :: rest) stack last = pass rest stack last.
Proof.
  intros (Hkind & Hend & Hallowed & Hblock)%free_kind_spec. simpl.
  by rewrite Hkind, Hend, (bool_decide_eq_false_2 _ Hallowed), Hblock.
Qed.

Lemma pass_nest tag rest open stack last :
  block_type_name tag ∈ allowed →
  is_control_flow (block_type_name open) = true →
  pass (tag :: rest) (open :: stack) last
  = pass rest (tag :: open :: stack) last.
Proof.
  intros Hallowed Hopen.
  destruct (block_kind_spec allowed _ allowed_distinct Hallowed)
    as (Hkind & Hend & _).
  simpl. by rewrite Hkind, Hend, (bool_decide_eq_true_2 _ Hallowed), Hopen.
Qed.

Lemma pass_open tag rest last :
  block_type_name tag ∈ allowed →
  pass (tag :: rest) [] last
  = prepend (data_record collect (slice last (tag_start tag) data))
            (pass rest [tag] (tag_start tag)).
Proof.
  intros Hallowed.
  destruct (block_kind_spec allowed _ allowed_distinct Hallowed)
    as (Hkind & Hend & _).
  simpl. by rewrite Hkind, Hend, (bool_decide_eq_true_2 _ Hallowed).
Qed.

Lemma pass_end_block tag rest open stack last :
  block_type_name open ∈ allowed →
  block_type_name tag = "end" +:+ block_type_name open →
  pass (tag :: rest) (open :: stack) last
  = match stack with
    | [] =>
        prepend [BlockTag (block_type_name open) (block_name open)
                          (slice (tag_end open) (tag_start tag) data)
                          (slice (tag_start open) (tag_end tag) data)]
                (pass rest [] (tag_end tag))
    | _ :: _ => pass rest stack last
    end.
Proof.
  intros Hallowed Hkind.
  destruct (block_kind_spec allowed _ allowed_distinct Hallowed)
    as (_ & _ & Hend & Hnot & Hblock).
  simpl. rewrite Hkind, end_kind_not_control, Hend.
  by rewrite (bool_decide_eq_false_2 _ Hnot), Hblock, String.eqb_refl.
Qed.

(** Inside a control construct, and in the body of a block, the pass
    goes over a valid item and is where it was. *)
Definition passed_over (i : item) : Prop :=
  ∀ in_block pos more stack last,
    valid_item allowed in_block i = true →
    (in_block = false →
     ∃ top below, stack = top :: below ∧
                  is_control_flow (block_type_name top) = true) →
    pass (item_tags i pos ++ more) stack last = pass more stack last.

Lemma pass_over_body body :
  Forall passed_over body →
  ∀ in_block pos more stack last,
    forallb (valid_item allowed in_block) body = true →
    (in_block = false →
     ∃ top below, stack = top :: below ∧
                  is_control_flow (block_type_name top) = true) →
    pass (items_tags body pos ++ more) stack last = pass more stack last.
Proof.
  induction 1 as [|x body Hx _ IH];
    intros in_block pos more stack last Hvalid Hstack; [done|].
  simpl in Hvalid. apply andb_true_iff in Hvalid as [Hvx Hvalid].
  rewrite items_tags_cons, <- app_assoc.
  rewrite (Hx in_block _ _ _ _ Hvx Hstack).
  by apply (IH in_block).
Qed.

Lemma pass_over_control open body close pos more stack last :
  Forall passed_over body →
  valid_item allowed false (Control open body close) = true →
  pass (item_tags (Control open body close) pos ++ more) stack last
  = pass more stack last.
Proof.
  intros Hbody Hvalid. simpl in Hvalid.
  apply andb_true_iff in Hvalid
    as [[[_ Hkind%bool_decide_eq_true]%andb_true_iff
           Hend%String.eqb_eq]%andb_true_iff Hvalid].
  rewrite (item_tags_construct _ open body close pos (or_introl eq_refl)).
  simpl app. rewrite <- app_assoc. simpl app.
  rewrite pass_push by (by apply control_kind_open).
  rewrite (pass_over_body body Hbody false) by
    (done || (intros _; eexists _, _; split; [done|];
              by apply control_kind_open)).
  apply pass_pop_control; simpl.
  - rewrite Hend. apply end_kind_not_control.
  - rewrite Hend. by apply control_kind_end.
Qed.

Lemma pass_over i : passed_over i.
Proof.
  induction i as [text|text|inner|tag|open body close IH|open body close IH]
    using item_induction; intros in_block pos more stack last Hvalid Hstack;
    try done.
  - simpl in Hvalid. apply andb_true_iff in Hvalid as [_ Hfree].
    by apply pass_ignore.
  - by apply pass_over_control.
  - simpl in Hvalid.
    apply andb_true_iff in Hvalid
      as [[[[[Hin%negb_true_iff _]%andb_true_iff _]%andb_true_iff
             Hkind%bool_decide_eq_true]%andb_true_iff
            Hend%String.eqb_eq]%andb_true_iff Hvalid].
    destruct (Hstack Hin) as (top & below & -> & Htop).
    rewrite (item_tags_construct _ open body close pos (or_intror eq_refl)).
    simpl app. rewrite <- app_assoc. simpl app.
    rewrite pass_nest by done.
    rewrite (pass_over_body body IH true) by done.
    by rewrite pass_end_block.
Qed.

Lemma slice_middle before middle after :
  slice (length before) (length before + length middle)
        (before ++ middle ++ after)
  = String.string_of_list_ascii middle.
Proof.
  unfold slice. f_equal.
  rewrite drop_app_length.
  replace (length before + length middle - length before)
    with (length middle) by lia.
  by rewrite take_app_length.
Qed.

Lemma slice_pending last before after :
  last ≤ length before →
  slice last (length before) (before ++ after)
  = String.string_of_list_ascii (drop last before).
Proof.
  intros Hlast. unfold slice. f_equal.
  rewrite drop_app_le by done.
  rewrite take_app_le by (rewrite length_drop; lia).
  apply take_ge. rewrite length_drop. lia.
Qed.

(** The pass over the rest of a valid text, of which [before] has been
    read and the part up to [last] is covered. *)
Lemma pass_text items :
  ∀ before last,
    data = before ++ render_items items →
    last ≤ length before →
    valid_text allowed items = true →
    pass (items_tags items (length before)) [] last
    = inr (text_records collect (drop last before) items).
Proof.
  induction items as [|x items IH]; intros before last Hdata Hlast Hvalid.
  - simpl. rewrite Hdata. simpl. rewrite app_nil_r.
    do 3 f_equal. unfold slice. f_equal.
    apply take_ge. rewrite length_drop. lia.
  - unfold valid_text in Hvalid. simpl in Hvalid.
    apply andb_true_iff in Hvalid as [Hvx Hvalid].
    rewrite render_items_cons, app_assoc in Hdata.
    rewrite items_tags_cons.
    assert (pass (items_tags items (length before + length (render_item x)))
                 [] last
            = inr (text_records collect (drop last before ++ render_item x)
                                items)) as Hrest.
    { rewrite <- length_app, (IH _ last Hdata)
        by (done || rewrite length_app; lia).
      by rewrite drop_app_le. }
    destruct x as [text|text|inner|tag|open body close|open body close];
      try exact Hrest.
    + simpl in Hvx. apply andb_true_iff in Hvx as [_ Hfree].
      cbn [item_tags app]. by rewrite pass_ignore.
    + rewrite pass_over_control;
        [done|apply Forall_forall; intros; apply pass_over|done].
    + clear Hrest.
      rewrite (item_tags_construct _ open body close _ (or_intror eq_refl)).
      simpl in Hvx.
      apply andb_true_iff in Hvx
        as [[[_ Hkind%bool_decide_eq_true]%andb_true_iff
               Hend%String.eqb_eq]%andb_true_iff Hbody].
      cbn [app]. rewrite <- app_assoc. cbn [app].
      rewrite pass_open by done.
      rewrite (pass_over_body body) with (in_block := true);
        [|apply Forall_forall; intros; apply pass_over|done..].
      rewrite pass_end_block by done.
      change (tag_start (tag_at ?p ?t)) with p.
      change (tag_end (tag_at ?p ?t)) with (p + length (render_tag t)).
      change (block_type_name (tag_at ?p ?t)) with (tag_kind t).
      change (block_name (tag_at ?p ?t)) with (tag_name t).
      pose proof (render_construct _ open body close (or_intror eq_refl))
        as Hrender.
      assert (length before + length (render_tag open)
              + length (render_items body) + length (render_tag close)
              = length (before ++ render_item (BlockItem open body close)))
        as ->.
      { rewrite Hrender, (length_app before), (length_app (render_tag open)),
                (length_app (render_items body)). lia. }
      rewrite <- (length_app before (render_item (BlockItem open body close))).
      rewrite (IH _ _ Hdata) by done.
      rewrite drop_all.
      change (text_records collect (drop last before)
                (BlockItem open body close :: items))
        with (data_record collect
                (String.string_of_list_ascii (drop last before))
              ++ block_record open body close :: text_records collect [] items).
      unfold prepend, block_record. f_equal. f_equal.
      * f_equal. rewrite Hdata, <- app_assoc. by apply slice_pending.
      * cbn [app]. f_equal. f_equal.
        -- rewrite Hdata, Hrender, <- !app_assoc.
           rewrite (app_assoc before (render_tag open)).
           rewrite <- (length_app before (render_tag open)).
           apply slice_middle.
        -- rewrite length_app, Hdata, <- app_assoc. apply slice_middle.
Qed.

End BlockPass.
(* --------------------------------------------------------------------- *)
(** *** The records cover the text *)
(* --------------------------------------------------------------------- *)

Section BlockLexerCoverage.

Import BlockIterator.

(** The tags lie one after the other, from offset [lo] on. *)
Fixpoint ordered (lo : nat) (tags : list Tag) : Prop :=
  match tags with
  | [] => True
  | t :: rest =>
      lo ≤ tag_start t ∧ tag_start t ≤ tag_end t ∧ ordered (tag_end t) rest
  end.

Lemma ordered_weaken lo lo' tags : lo ≤ lo' → ordered lo' tags → ordered lo tags.
Proof.
  destruct tags; simpl; [done|]. intros ? (? & ? & ?).
  repeat split; [lia|done..].
Qed.

(** The offset from which the tags of a scan in mode [m] at [pos] lie. *)
Definition mode_origin (m : mode) (pos : nat) : nat :=
  match m with
  | InTag start _ _ => start
  | _ => pos
  end.

Lemma scan_ordered n :
  ∀ cs m pos tags,
    length cs ≤ n → mode_origin m pos ≤ pos →
    scan m pos cs = inr tags → ordered (mode_origin m pos) tags.
Proof.
  induction n as [|n IH]; intros cs m pos tags Hlen Horigin;
    (destruct cs as [|c rest]; [by destruct m; intros [= <-]|]);
    simpl in Hlen; [lia|].
  assert (Hrest : ∀ m' pos' tags',
            mode_origin m' pos' ≤ pos' → mode_origin m pos ≤ mode_origin m' pos' →
            scan m' pos' rest = inr tags' → ordered (mode_origin m pos) tags').
  { intros m' pos' tags' H1 H2 Hscan.
    apply (ordered_weaken _ (mode_origin m' pos')); [done|].
    apply (IH rest); [lia|done..]. }
  assert (Hrest2 : ∀ m' pos' tags',
            mode_origin m' pos' ≤ pos' → mode_origin m pos ≤ mode_origin m' pos' →
            scan m' pos' (tail rest) = inr tags' →
            ordered (mode_origin m pos) tags').
  { intros m' pos' tags' H1 H2 Hscan.
    apply (ordered_weaken _ (mode_origin m' pos')); [done|].
    apply (IH (tail rest)); [destruct rest; simpl in *; lia|done..]. }
  assert (Hraw : ∀ pos' tags',
            scan Raw pos' (tail rest) = inr tags' → ordered pos' tags').
  { intros pos' tags' Hscan.
    apply (IH (tail rest) Raw pos'); [destruct rest; simpl in *; lia|done..]. }
  clear IH Hlen.
  destruct m as [|start|start [q|]|start seen [q|]]; simpl in *;
    destruct rest as [|d rest']; simpl in Hrest2, Hraw;
    repeat case_match; simplify_eq; try done; intros Hscan;
    try (by eapply Hrest; [| |exact Hscan]; simpl; lia);
    try (by eapply Hrest2; [| |exact Hscan]; simpl; lia).
  simplify_eq. simpl. repeat split; [lia..|]. by apply Hraw.
Qed.

Lemma find_tags_ordered data tags :
  find_tags data = inr tags → ordered 0 tags.
Proof. apply (scan_ordered (length data) data Raw 0); simpl; lia. Qed.

Lemma slice_cover a b data :
  a ≤ b →
  slice a b data +:+ String.string_of_list_ascii (drop b data)
  = String.string_of_list_ascii (drop a data).
Proof.
  intros Hab. unfold slice. rewrite <- string_of_list_ascii_app. f_equal.
  replace (drop b data) with (drop (b - a) (drop a data))
    by (rewrite drop_drop; f_equal; lia).
  apply take_drop.
Qed.

Lemma slice_to_end a data :
  slice a (length data) data = String.string_of_list_ascii (drop a data).
Proof.
  unfold slice. f_equal. apply take_ge. rewrite length_drop. lia.
Qed.

Lemma string_append_assoc (a b c : string) : (a +:+ b) +:+ c = a +:+ (b +:+ c).
Proof.
  induction a as [|x a IH]; [done|].
  change (String x ((a +:+ b) +:+ c) = String x (a +:+ (b +:+ c))).
  by rewrite IH.
Qed.

Lemma string_append_empty (a : string) : a +:+ "" = a.
Proof.
  induction a as [|x a IH]; [done|].
  change (String x (a +:+ "") = String x a). by rewrite IH.
Qed.

Lemma join_spans_app records more :
  join_spans (records ++ more) = join_spans records +:+ join_spans more.
Proof.
  induction records as [|b records IH]; simpl; [done|].
  rewrite IH. by rewrite string_append_assoc.
Qed.

Lemma join_spans_data_record raw :
  join_spans (data_record true raw) = raw.
Proof.
  unfold data_record. simpl.
  destruct (String.eqb_spec raw "") as [->|_]; simpl; [done|].
  apply string_append_empty.
Qed.

(** The end tag of a block does not end a control construct. *)
Lemma block_end_kind kind allowed expected :
  block_end kind allowed = Some expected →
  control_flow_end kind = None →
  is_control_flow expected = false.
Proof.
  unfold block_end. intros [_ Hkind%String.eqb_eq]%find_some. subst kind.
  unfold control_flow_end, is_control_flow.
  change "endif" with ("end" +:+ "if"). change "endfor" with ("end" +:+ "for").
  rewrite !end_kind_eqb.
  by destruct (String.eqb expected "if"), (String.eqb expected "for").
Qed.

(** The block that is open at top level was opened where the covered
    text ends. *)
Definition open_from (stack : list Tag) (last_position : nat) : Prop :=
  ∀ open, last stack = Some open →
          is_control_flow (block_type_name open) = false →
          last_position = tag_start open.

Lemma open_from_push tag open stack last_position :
  open_from (open :: stack) last_position →
  open_from (tag :: open :: stack) last_position.
Proof. done. Qed.

Lemma open_from_pop open stack last_position :
  open_from (open :: stack) last_position → open_from stack last_position.
Proof. destruct stack as [|below stack]; [by intros ? ? [=]|done]. Qed.

(** With the raw data collected, the records cover the text from
    [last_position] on. *)
Lemma find_blocks_covers data allowed :
  ∀ tags stack last_position lo records,
    ordered lo tags → last_position ≤ lo →
    open_from stack last_position →
    find_blocks data allowed true tags stack last_position = inr records →
    join_spans records
    = String.string_of_list_ascii (drop last_position data).
Proof.
  induction tags as [|tag rest IH];
    intros stack last lo records Hord Hlast Hopen.
  - simpl. destruct stack; [|done]. intros [= <-].
    by rewrite join_spans_data_record, slice_to_end.
  - destruct Hord as (Hlo & Hse & Hord).
    assert (∀ stack', open_from stack' last →
              find_blocks data allowed true rest stack' last = inr records →
              join_spans records
              = String.string_of_list_ascii (drop last data)) as Hnext.
    { intros stack' Hopen'. by apply (IH stack' last (tag_end tag)); [|lia|]. }
    simpl.
    destruct (is_control_flow (block_type_name tag)) eqn:Hkind.
    { apply Hnext. destruct stack; [|done].
      intros open [= <-] Hnot. by rewrite Hkind in Hnot. }
    destruct (control_flow_end (block_type_name tag)) as [expected|] eqn:Hend.
    { destruct stack as [|open stack]; [done|].
      destruct (String.eqb _ expected); [|done].
      apply Hnext. by apply (open_from_pop open). }
    destruct (bool_decide (block_type_name tag ∈ allowed)).
    { destruct stack as [|open stack].
      - destruct (find_blocks _ _ _ rest _ _) as [e|more] eqn:Hmore; [done|].
        simpl. intros [= <-].
        rewrite join_spans_app, join_spans_data_record.
        rewrite (IH [tag] (tag_start tag) (tag_end tag) more Hord Hse
                    ltac:(by intros ? [= <-]) Hmore).
        apply slice_cover. lia.
      - destruct (is_control_flow (block_type_name open)); [|done].
        by apply Hnext. }
    destruct (block_end (block_type_name tag) allowed) as [expected|] eqn:Hblock;
      [|by apply Hnext].
    destruct stack as [|open stack]; [done|].
    destruct (String.eqb_spec (block_type_name open) expected) as [Hexp|];
      [|done].
    destruct stack as [|below stack]; [|apply Hnext; by apply (open_from_pop open)].
    destruct (find_blocks _ _ _ rest _ _) as [e|more] eqn:Hmore; [done|].
    simpl. intros [= <-]. simpl.
    rewrite (IH [] (tag_end tag) (tag_end tag) more Hord (le_n _)
                ltac:(by intros ? [=]) Hmore).
    assert (last = tag_start open) as Hstart.
    { apply (Hopen open eq_refl). rewrite Hexp.
      exact (block_end_kind _ _ _ Hblock Hend). }
    rewrite Hstart. apply slice_cover. lia.
Qed.

(** Without the raw data the result is the blocks of the result with it. *)
Lemma find_blocks_without_raw_data data allowed :
  ∀ tags stack last_position last_position',
    find_blocks data allowed false tags stack last_position' =
    match find_blocks data allowed true tags stack last_position with
    | inl e => inl e
    | inr records => inr (filter (λ b, is_BlockTag b = true) records)
    end.
Proof.
  induction tags as [|tag rest IH]; intros stack last last'; simpl.
  - destruct stack; [|done]. unfold data_record. simpl.
    by destruct (negb _).
  - destruct (is_control_flow _); [apply IH|].
    destruct (control_flow_end _).
    { destruct stack; [done|]. destruct (String.eqb _ _); [apply IH|done]. }
    destruct (bool_decide _).
    { destruct stack as [|open stack].
      - rewrite (IH _ (tag_start tag) (tag_start tag)).
        destruct (find_blocks _ _ true rest _ _) as [e|more]; [done|].
        unfold data_record. simpl. destruct (negb _); simpl; [|done].
        by rewrite filter_cons_False by done.
      - destruct (is_control_flow _); [apply IH|done]. }
    destruct (block_end _ _); [|apply IH].
    destruct stack as [|open stack]; [done|].
    destruct (String.eqb _ _); [|done].
    destruct stack; [|apply IH].
    rewrite (IH _ (tag_end tag) (tag_end tag)).
    destruct (find_blocks _ _ true rest _ _) as [e|more]; [done|].
    simpl. by rewrite filter_cons_True by done.
Qed.

(** The records of a successful extraction with the raw data
    reconstruct the text; without the raw data, only its blocks are
    returned. *)
Lemma extract_toplevel_blocks_covers data allowed_blocks records :
  extract_toplevel_blocks data allowed_blocks true = inr records →
  join_spans records = data ∧
  extract_toplevel_blocks data allowed_blocks false
  = inr (filter (λ b, is_BlockTag b = true) records).
Proof.
  unfold extract_toplevel_blocks, lex_for_blocks.
  destruct (find_tags _) as [e|tags] eqn:Htags; [done|].
  intros Hrec. split.
  - rewrite (find_blocks_covers _ _ tags [] 0 0 records
               (find_tags_ordered _ _ Htags) (le_n 0) ltac:(done) Hrec).
    simpl. apply String.string_of_list_ascii_of_string.
  - by rewrite (find_blocks_without_raw_data _ _ _ _ 0 0), Hrec.
Qed.

End BlockLexerCoverage.
(* --------------------------------------------------------------------- *)
(** *** The extraction from a valid text *)
(* --------------------------------------------------------------------- *)

Lemma text_records_blocks collect pending items :
  filter (λ b, is_BlockTag b = true) (text_records collect pending items)
  = toplevel_blocks items.
Proof.
  assert (∀ raw, filter (λ b, is_BlockTag b = true)
                        (BlockIterator.data_record collect raw) = [])
    as Hdata.
  { intros raw. unfold BlockIterator.data_record.
    by destruct (collect && negb (String.eqb raw "")). }
  revert pending. induction items as [|x items IH]; intros pending.
  - apply Hdata.
  - destruct x as [text|text|inner|tag|open body close|open body close];
      try apply IH.
    cbn [text_records]. rewrite filter_app, Hdata, filter_cons_True by done.
    by rewrite IH.
Qed.

Lemma text_records_without_raw_data items :
  text_records false [] items = toplevel_blocks items.
Proof.
  generalize (@nil ascii). induction items as [|x items IH]; intros pending.
  - done.
  - destruct x as [text|text|inner|tag|open body close|open body close];
      try apply IH.
    cbn [text_records]. simpl. by rewrite IH.
Qed.

Definition is_block_item (i : item) : bool :=
  match i with
  | BlockItem _ _ _ => true
  | _ => false
  end.

Lemma length_toplevel_blocks items :
  length (toplevel_blocks items)
  = length (filter (λ i, is_block_item i = true) items).
Proof.
  induction items as [|x items IH]; [done|].
  unfold toplevel_blocks in *. cbn [flat_map].
  destruct x; cbn [app length];
    (rewrite filter_cons_False by done) || (rewrite filter_cons_True by done);
    cbn [length]; by rewrite ?IH.
Qed.

(** The extraction from a valid text gives the records of its structure. *)
Lemma extract_text_records allowed items collect :
  distinct_kinds allowed = true → valid_text allowed items = true →
  BlockIterator.lex_for_blocks (render_items items) (Some allowed) collect
  = inr (text_records collect [] items).
Proof.
  intros Hdistinct Hvalid. unfold BlockIterator.lex_for_blocks.
  rewrite (find_tags_text allowed items Hvalid). simpl default.
  by apply (pass_text (render_items items) allowed collect Hdistinct items
              [] 0).
Qed.

(** A text with everything in it is valid, and its extraction gives its
    two top-level blocks: the tags in the comment and in the literals are
    not seen, the block inside the conditional is not extracted. *)
Example extract_example :
  valid_text BlockIterator.default_blocks example_items = true ∧
  String.string_of_list_ascii (render_items example_items)
  = "select {{ amount * 100 }}{# {% macro z %} #}"
    +:+ "{% macro cents(x, sep='%}') -%} {{ '{% endmacro %}' }}"
    +:+ "{% for i in x %}{{ i }}{% endfor %}{%- endmacro %}"
    +:+ " -- {% if flag %}{% macro inner() %}1{% endmacro %}{% endif %}"
    +:+ "{% docs orders %}One row per order.{% enddocs %}" ∧
  extract_toplevel_blocks
    (String.string_of_list_ascii (render_items example_items)) None false
  = inr [BlockTag "macro" (Some "cents")
           (" {{ '{% endmacro %}' }}"
            +:+ "{% for i in x %}{{ i }}{% endfor %}")
           ("{% macro cents(x, sep='%}') -%} {{ '{% endmacro %}' }}"
            +:+ "{% for i in x %}{{ i }}{% endfor %}{%- endmacro %}");
         BlockTag "docs" (Some "orders") "One row per order."
                  "{% docs orders %}One row per order.{% enddocs %}"].
Proof. repeat split; by vm_compute. Qed.

(** What is not matched is an error, and no block is cut short: an end
    tag without its block, an end tag that leaves a conditional open, a
    block that is not ended, a conditional that is not ended, a block
    directly inside a block. *)
Example extract_unmatched :
  (∃ e, extract_toplevel_blocks "x{% endmacro %}y" None true = inl e) ∧
  (∃ e, extract_toplevel_blocks "{% macro a %}{% if x %}{% endmacro %}"
                                None true = inl e) ∧
  (∃ e, extract_toplevel_blocks "{% macro a %}select 1" None true = inl e) ∧
  (∃ e, extract_toplevel_blocks "{% if x %}select 1" None true = inl e) ∧
  (∃ e, extract_toplevel_blocks
          "{% macro a %}{% macro b %}{% endmacro %}{% endmacro %}"
          None true = inl e) ∧
  extract_toplevel_blocks
    ("{% macro a %}{% if x %}{% macro b %}c{% endmacro %}{% endif %}"
     +:+ "tail{% endmacro %}") None true
  = inr [BlockTag "macro" (Some "a")
           ("{% if x %}{% macro b %}c{% endmacro %}{% endif %}tail")
           ("{% macro a %}{% if x %}{% macro b %}c{% endmacro %}{% endif %}"
            +:+ "tail{% endmacro %}")].
Proof. repeat split; try (eexists; by vm_compute); by vm_compute. Qed.



(* ===================================================================== *)
(** ** Further properties of the macro stack and of macro invocation *)
(* ===================================================================== *)

(** X1.  [push] then [pop] of the same name is a round trip: the depth
    grows by one in between, no other stack and no edge is touched by the
    push, the pop succeeds, and every stack is then as before. *)
Theorem macro_stack_push_pop r n s :
  let s1 := (MacroStack.push r n s).2 in
  (MacroStack.depth r s1).1 = inr (S (length (MacroStack.call_stack r s))) ∧
  (∀ r', r' ≠ r → MacroStack.call_stack r' s1 = MacroStack.call_stack r' s) ∧
  edges s1 = edges s ∧
  (MacroStack.pop r n s1).1 = inr tt ∧
  (∀ r', MacroStack.call_stack r' (MacroStack.pop r n s1).2
         = MacroStack.call_stack r' s) ∧
  edges (MacroStack.pop r n s1).2 = edges s.
Proof.
  simpl.
  assert (Htop : MacroStack.call_stack r
                   (MacroStack.set_call_stack r
                      (MacroStack.call_stack r s ++ [n]) s)
                 = MacroStack.call_stack r s ++ [n])
    by apply call_stack_set.
  rewrite (pop_top r n _ _ Htop). unfold MacroStack.depth. simpl.
  rewrite Htop, length_app. simpl.
  repeat split.
  - f_equal. lia.
  - intros r' Hne. by apply call_stack_set_ne.
  - intros r'. destruct (decide (r = r')) as [<-|Hne].
    + by rewrite call_stack_set.
    + by rewrite !call_stack_set_ne.
Qed.

(** X2.  [pop] on an empty stack raises [IndexError] and changes nothing;
    [pop] of a name that is not on top raises after the top has been
    removed, so the depth is one less all the same. *)
Theorem macro_stack_pop_failures r n s :
  (MacroStack.call_stack r s = [] →
   MacroStack.pop r n s = (inl (IndexError "pop from empty list"), s)) ∧
  (∀ l got, MacroStack.call_stack r s = l ++ [got] → got ≠ n →
     (∃ msg, (MacroStack.pop r n s).1 = inl (InternalException msg)) ∧
     MacroStack.call_stack r (MacroStack.pop r n s).2 = l ∧
     (MacroStack.depth r (MacroStack.pop r n s).2).1 = inr (length l)).
Proof.
  split.
  - intros Hempty. unfold MacroStack.pop. by rewrite Hempty.
  - intros l got Hs Hne. unfold MacroStack.pop, MacroStack.depth.
    rewrite Hs, last_snoc, removelast_last, decide_False by done. simpl.
    rewrite call_stack_set. eauto.
Qed.

(** X3.  A generator whose context is [None] fails with the internal
    error without running or even resolving the macro; when it tracks its
    calls the failure still happens inside the tracking: the edge is
    registered at depth 0 and the stack is restored. *)
Theorem call_without_context g get_macro s :
  context g = None →
  call_macro g get_macro s
  = (inl (InternalException "Context is still None in call_macro!"), s) ∧
  (∀ r n, stack g = Some r → node g = Some n →
     (call g get_macro s).1
     = inl (InternalException "Context is still None in call_macro!") ∧
     (∀ r', MacroStack.call_stack r' (call g get_macro s).2
            = MacroStack.call_stack r' s) ∧
     edges (call g get_macro s).2
     = edges s ++ (if decide (length (MacroStack.call_stack r s) = 0)
                   then [(unique_id n, unique_id (macro g))] else [])).
Proof.
  intros Hctx.
  assert (Hcm : ∀ s0, call_macro g get_macro s0
            = (inl (InternalException "Context is still None in call_macro!"),
               s0))
    by (intros s0; unfold call_macro; by rewrite Hctx).
  split; [apply Hcm|]. intros r n Hr Hn.
  assert (Hkeeps : keeps_stacks (call_macro g get_macro))
    by (intros s0 r0; by rewrite Hcm).
  unfold call. rewrite (track_call_balanced g r n) by done. simpl.
  rewrite Hcm. simpl. repeat split.
  - intros r'. destruct (decide (r = r')) as [<-|Hne].
    + by rewrite call_stack_set.
    + rewrite call_stack_set_ne by done. by apply call_stack_enter_ne.
  - apply edges_enter.
Qed.

Lemma call_without_context_witness :
  call_macro (mkGen outer_macro None (Some model_node) (Some 0))
             (resolve failing_chain) empty_state
  = (inl (InternalException "Context is still None in call_macro!"),
     empty_state).
Proof.
  apply (call_without_context
           (mkGen outer_macro None (Some model_node) (Some 0))
           (resolve failing_chain) empty_state).
  reflexivity.
Defined.

(** X4.  An exception raised while the macro is being resolved is not
    translated, whatever its class: resolution happens before the
    exception handler is entered.  The stack of a tracking generator is
    restored all the same. *)
Theorem resolution_error_is_not_translated g ctx e s :
  context g = Some ctx →
  call_macro g (inl e) s = (inl e, s) ∧
  (call g (inl e) s).1 = inl e ∧
  ∀ r', MacroStack.call_stack r' (call g (inl e) s).2
        = MacroStack.call_stack r' s.
Proof.
  intros Hctx.
  assert (Hcm : ∀ s0, call_macro g (inl e) s0 = (inl e, s0))
    by (intros s0; unfold call_macro; by rewrite Hctx).
  split; [apply Hcm|].
  assert (Hkeeps : keeps_stacks (call_macro g (inl e)))
    by (intros s0 r0; by rewrite Hcm).
  split.
  - unfold call.
    destruct (stack g) as [r|] eqn:Hr, (node g) as [n|] eqn:Hn;
      try (unfold track_call; rewrite Hr, ?Hn; by rewrite Hcm).
    rewrite (track_call_balanced g r n) by done. simpl. by rewrite Hcm.
  - intros r'. by apply (keeps_track_call g).
Qed.

Lemma resolution_error_is_not_translated_witness :
  call_macro outer_gen (inl (TypeError "no such macro")) empty_state
  = (inl (TypeError "no such macro"), empty_state).
Proof.
  apply (resolution_error_is_not_translated outer_gen ∅
           (TypeError "no such macro") empty_state).
  reflexivity.
Defined.

(** Macros that call one another in a line: the first generator is
    invoked by the template, each macro invokes the next and returns what
    it returned, and the last one runs [innermost]. *)
Fixpoint nested (gs : list MacroGenerator) (innermost : callable) : callable :=
  match gs with
  | [] => innermost
  | g :: rest => Calls g (Resolved (nested rest innermost)) (λ v, Returns v)
  end.

Definition has_context (g : MacroGenerator) : bool :=
  match context g with Some _ => true | None => false end.

Lemma run_call_outcome g c s :
  (run (Calls g (Resolved c) (λ v, Returns v)) s).1
  = (call_macro g (inr (run c)) s).1.
Proof.
  simpl. unfold bind.
  pose proof (call_result g (inr (run c)) s s
                (conj (proj1 run_keeps_stacks c)
                      (proj1 run_stateless c))) as Hres.
  destruct (call g (inr (run c)) s) as [[e|v] s1]; simpl in *; by rewrite <- Hres.
Qed.

Lemma call_macro_outcome g ctx c s :
  context g = Some ctx →
  (call_macro g (inr (run c)) s).1 =
  match (run c s).1 with
  | inr v => inr v
  | inl (MacroReturn v) => inr v
  | inl e =>
      if is_TypeError e || is_TemplateRuntimeError e
      then inl (compiler_error (exn_str e) (Some (macro g)))
      else match e with
           | CompilationException msg n st =>
               inl (CompilationException msg n (st ++ [macro g]))
           | _ => inl e
           end
  end.
Proof.
  intros Hctx. unfold call_macro. rewrite Hctx.
  unfold exception_handler, catch_MacroReturn.
  destruct (run c s) as [[e|v] s1]; [|done]. by destruct e.
Qed.

(** X5.  A compiler error that crosses nested macro calls collects the
    macros it crosses, the innermost first; a [TypeError] is attributed to
    the macro in which it was raised and collects the enclosing ones. *)
Theorem attribution_chain_innermost_first gs s :
  forallb has_context gs = true →
  (∀ msg n st,
     (run (nested gs (Raises (CompilationException msg n st))) s).1
     = inl (CompilationException msg n (st ++ map macro (rev gs)))) ∧
  (∀ g msg, has_context g = true →
     (run (nested (gs ++ [g]) (Raises (TypeError msg))) s).1
     = inl (CompilationException msg (Some (macro g)) (map macro (rev gs)))).
Proof.
  intros Hctx.
  assert (Hchain : ∀ c msg n st,
            (run c s).1 = inl (CompilationException msg n st) →
            (run (nested gs c) s).1
            = inl (CompilationException msg n (st ++ map macro (rev gs)))).
  { induction gs as [|g gs IH]; intros c msg n st Hc; simpl nested.
    - simpl. by rewrite app_nil_r.
    - simpl in Hctx. apply andb_true_iff in Hctx as [Hg Hgs].
      unfold has_context in Hg.
      destruct (context g) as [ctx|] eqn:Hctxg; [|done].
      rewrite run_call_outcome, (call_macro_outcome g ctx) by done.
      rewrite (IH Hgs c msg n st Hc). simpl.
      by rewrite map_app, app_assoc. }
  split.
  - intros msg n st. by apply Hchain.
  - intros g msg Hg.
    assert (Hsplit : ∀ l c, nested (l ++ [g]) c
                            = nested l (Calls g (Resolved c) (λ v, Returns v))).
    { induction l as [|g' l IH]; intros c; simpl; [done|]. by rewrite IH. }
    rewrite Hsplit.
    replace (map macro (rev gs)) with ([] ++ map macro (rev gs)) by done.
    apply Hchain. unfold has_context in Hg.
    destruct (context g) as [ctx|] eqn:Hctxg; [|done].
    by rewrite run_call_outcome, (call_macro_outcome g ctx).
Qed.

Lemma attribution_chain_innermost_first_witness :
  (run (nested [outer_gen; inner_gen]
               (Raises (CompilationException "bad sql" None []))) empty_state).1
  = inl (CompilationException "bad sql" None
           ([] ++ map macro (rev [outer_gen; inner_gen]))).
Proof.
  exact (proj1 (attribution_chain_innermost_first
                  [outer_gen; inner_gen] empty_state eq_refl)
               "bad sql" None []).
Defined.

(** X6.  An early return ends only the macro that raised it: the macro
    that invoked it goes on with the returned value, as after a normal
    return. *)
Theorem early_return_is_local g ctx v k s :
  context g = Some ctx →
  (run (Calls g (Resolved (Raises (MacroReturn v))) k) s).1 = (run (k v) s).1 ∧
  (run (Calls g (Resolved (Raises (MacroReturn v))) k) s).1
  = (run (Calls g (Resolved (Returns v)) k) s).1.
Proof.
  intros Hctx.
  assert (Hcall : ∀ c, (run c s).1 = inr v ∨ (run c s).1 = inl (MacroReturn v) →
            (run (Calls g (Resolved c) k) s).1 = (run (k v) s).1).
  { intros c Hc. simpl. unfold bind.
    pose proof (call_result g (inr (run c)) s s
                  (conj (proj1 run_keeps_stacks c)
                        (proj1 run_stateless c))) as Hres.
    rewrite (call_macro_outcome g ctx) in Hres by done.
    destruct (call g (inr (run c)) s) as [[e|w] s1]; simpl in Hres;
      destruct Hc as [Hc|Hc]; rewrite Hc in Hres; simplify_eq.
    - apply (proj1 run_stateless).
    - apply (proj1 run_stateless). }
  split.
  - apply Hcall. by right.
  - rewrite !Hcall; [done|by left|by right].
Qed.

Lemma early_return_is_local_witness :
  (run (Calls inner_gen (Resolved (Raises (MacroReturn (VInt 7))))
              (λ v, Returns (VList [v]))) empty_state).1
  = (run (Returns (VList [VInt 7])) empty_state).1.
Proof.
  exact (proj1 (early_return_is_local inner_gen ∅ (VInt 7)
                  (λ v, Returns (VList [v])) empty_state eq_refl)).
Defined.

(** The stack that a body finds. *)
Definition observe_stack (r : nat) : M (list string) :=
  λ s, (inr (MacroStack.call_stack r s), s).

(** X7.  The body of a tracked call runs with the identity of its macro
    on top of the stack, above whatever was there; under two nested
    tracked calls the outer identity lies below the inner one. *)
Theorem body_sees_call_chain g1 g2 r n1 n2 s :
  stack g1 = Some r → node g1 = Some n1 →
  stack g2 = Some r → node g2 = Some n2 →
  (track_call g1 (observe_stack r) s).1
  = inr (MacroStack.call_stack r s ++ [unique_id (macro g1)]) ∧
  (track_call g1 (track_call g2 (observe_stack r)) s).1
  = inr (MacroStack.call_stack r s
         ++ [unique_id (macro g1); unique_id (macro g2)]).
Proof.
  intros Hr1 Hn1 Hr2 Hn2.
  assert (Hobs : keeps_stacks (observe_stack r)) by done.
  split.
  - rewrite (track_call_balanced g1 r n1) by done. simpl.
    by rewrite call_stack_enter.
  - rewrite (track_call_balanced g1 r n1);
      [|done..|by apply keeps_track_call].
    simpl. rewrite (track_call_balanced g2 r n2) by done. simpl.
    rewrite !call_stack_enter. by rewrite <- app_assoc.
Qed.

Lemma body_sees_call_chain_witness :
  (track_call outer_gen (track_call inner_gen (observe_stack 0)) empty_state).1
  = inr (MacroStack.call_stack 0 empty_state
         ++ [unique_id (macro outer_gen); unique_id (macro inner_gen)]).
Proof.
  exact (proj2 (body_sees_call_chain outer_gen inner_gen 0 model_node
                  model_node empty_state eq_refl eq_refl eq_refl eq_refl)).
Defined.

(* ===================================================================== *)
(** ** BaseMacroGenerator and QueryStringGenerator *)
(* ===================================================================== *)

Module BaseMacroGenerator.

(** [BaseMacroGenerator.exception_handler]: a [TypeError] or
    [TemplateRuntimeError] becomes a compiler error that names no node;
    everything else propagates. *)
Definition exception_handler {A} (body : M A) : M A := λ s,
  match body s with
  | (inl e, s1) =>
      if is_TypeError e || is_TemplateRuntimeError e
      then (inl (compiler_error (exn_str e) None), s1)
      else (inl e, s1)
  | (inr a, s1) => (inr a, s1)
  end.

(** [BaseMacroGenerator.call_macro], with [self.context] and
    [self.exception_handler] of the object it is called on. *)
Definition call_macro (context : option (gmap string value))
    (handler : M value → M value) (get_macro : exn + M value) : M value :=
  match context with
  | None => raise (InternalException "Context is still None in call_macro!")
  | Some _ =>
      match get_macro with
      | inl e => raise e
      | inr macro_fn => handler (catch_MacroReturn macro_fn)
      end
  end.

End BaseMacroGenerator.

(** [MacroGenerator] inherits [call_macro] and overrides the handler. *)
Lemma MacroGenerator_call_macro g get_macro :
  call_macro g get_macro
  = BaseMacroGenerator.call_macro (context g) (exception_handler g) get_macro.
Proof. reflexivity. Qed.

Module QueryStringGenerator.

(** The fields of a [QueryStringGenerator]. *)
Record t : Type := mk {
  context : option (gmap string value);
  template_str : string;
  template : Template
}.

Section Methods.

Variable from_string :
  Environment → string → exn + (gmap string value → exn + list value).
Variable text_type : value → string.

(** [__init__]: the template is compiled in the default environment, with
    the context as its globals, outside any [catch_jinja]. *)
Definition __init__ (template_str : string) (context : gmap string value)
  : ST nat t := λ made,
  match from_string (get_environment None false false) template_str with
  | inl e => (inl e, made)
  | inr code =>
      (inr (mk (Some context) template_str
               (mkTemplate made (get_environment None false false) context code)),
       S made)
  end.

(** [get_name] *)
Definition get_name (self : t) : string := "query_comment_macro".

(** [get_template]: "Don't use the template cache, we don't have a node" *)
Definition get_template (self : t) : Template := template self.

(** [__call__]: [str(self.call_macro(connection_name, node))] *)
Definition __call__ (self : t) (get_macro : exn + M value) : M string :=
  let! v := BaseMacroGenerator.call_macro
              (context self) BaseMacroGenerator.exception_handler get_macro in
  ret (text_type v).

End Methods.

End QueryStringGenerator.

(** X8.  The query-comment generator handles exceptions with the handler
    of the base class: the value, also one returned early, comes back as
    a string; a [TypeError] or template-runtime error becomes a compiler
    error that is attributed to no node; a compiler error passes
    unchanged, nothing is appended to its chain; the state is the one the
    macro leaves.  Its constructor lets a failure of the compilation
    through as it is and then creates no template. *)
Theorem query_string_generator_outcomes from_string text_type :
  (∀ self ctx (macro_fn : M value) s,
     QueryStringGenerator.context self = Some ctx →
     QueryStringGenerator.__call__ text_type self (inr macro_fn) s =
     match macro_fn s with
     | (inr v, s1) => (inr (text_type v), s1)
     | (inl (MacroReturn v), s1) => (inr (text_type v), s1)
     | (inl (TypeError msg), s1)
     | (inl (TemplateRuntimeError msg), s1)
     | (inl (UndefinedError msg), s1) =>
         (inl (CompilationException msg None []), s1)
     | (inl e, s1) => (inl e, s1)
     end) ∧
  (∀ template_str ctx made e,
     from_string (get_environment None false false) template_str = inl e →
     QueryStringGenerator.__init__ from_string template_str ctx made
     = (inl e, made)) ∧
  (∀ template_str ctx made code,
     from_string (get_environment None false false) template_str = inr code →
     ∃ self,
       QueryStringGenerator.__init__ from_string template_str ctx made
       = (inr self, S made) ∧
       QueryStringGenerator.context self = Some ctx ∧
       globals (QueryStringGenerator.get_template self) = ctx ∧
       template_id (QueryStringGenerator.get_template self) = made ∧
       root_render_func (QueryStringGenerator.get_template self) = code).
Proof.
  split; [|split].
  - intros self ctx macro_fn s Hctx.
    unfold QueryStringGenerator.__call__, bind, BaseMacroGenerator.call_macro.
    rewrite Hctx.
    unfold BaseMacroGenerator.exception_handler, catch_MacroReturn.
    destruct (macro_fn s) as [[e|v] s1]; [|done]. by destruct e.
  - intros template_str ctx made e He.
    unfold QueryStringGenerator.__init__. by rewrite He.
  - intros template_str ctx made code Hcode.
    unfold QueryStringGenerator.__init__. rewrite Hcode. by eexists.
Qed.

(* ===================================================================== *)
(** ** Further properties of the materialization tag *)
(* ===================================================================== *)

Section MaterializationTermination.

Variable Stmt : Type.
Variable parse_expression : list Token → exn + (Expr * list Token).
Variable parse_statements :
  list string → bool → list Token → exn + (list Stmt * list Token).
Variable get_materialization_macro_name : string → value → string.
Variable invalid_materialization_argument : string → string → exn.

(** The expression parser never hands back more tokens than it got. *)
Hypothesis parse_expression_consumes : ∀ stream e rest,
  parse_expression stream = inr (e, rest) → length rest ≤ length stream.

Lemma skip_if_comma_shorter stream rest :
  TokenStream.skip_if "comma" stream = (true, rest) →
  S (length rest) = length stream.
Proof.
  unfold TokenStream.skip_if, TokenStream.test.
  destruct stream as [|t stream]; simpl; [done|].
  destruct (String.eqb (type t) "comma"); [|done]. by intros [= <-].
Qed.

Lemma expect_shorter expr stream t rest :
  TokenStream.expect expr stream = inr (t, rest) →
  length rest ≤ length stream.
Proof.
  unfold TokenStream.expect, TokenStream.next.
  destruct (TokenStream.test _ _); [|done]. intros [= _ <-].
  destruct stream; simpl; lia.
Qed.

Lemma parse_assign_target_shorter stream target rest :
  parse_assign_target stream = inr (target, rest) →
  length rest ≤ length stream.
Proof.
  unfold parse_assign_target.
  destruct (TokenStream.expect "name" stream) as [e|[t rest']] eqn:Hexp;
    [done|].
  apply expect_shorter in Hexp.
  destruct (tvalue t); try done. destruct (can_assign s); [|done].
  by intros [= _ <-].
Qed.

(** With more fuel than tokens the loop ends by itself. *)
Lemma parse_modifiers_total fuel :
  ∀ name adapter stream,
    length stream < fuel →
    ∃ r, MaterializationExtension.parse_modifiers
           parse_expression invalid_materialization_argument
           fuel name adapter stream = Some r.
Proof.
  induction fuel as [|fuel IH]; intros name adapter stream Hfuel; [lia|].
  simpl.
  destruct (TokenStream.skip_if "comma" stream) as [[] s1] eqn:Hskip;
    [|by eexists].
  apply skip_if_comma_shorter in Hskip.
  destruct (parse_assign_target s1) as [e|[target s2]] eqn:Htarget;
    [by eexists|].
  apply parse_assign_target_shorter in Htarget.
  destruct (String.eqb target "default"); [apply IH; lia|].
  destruct (String.eqb target "adapter"); [|by eexists].
  destruct (TokenStream.expect "assign" s2) as [e|[t s3]] eqn:Hassign;
    [by eexists|].
  apply expect_shorter in Hassign.
  destruct (parse_expression s3) as [e|[value s4]] eqn:Hexpr; [by eexists|].
  apply parse_expression_consumes in Hexpr.
  destruct (expr_value value); [by eexists|]. apply IH. lia.
Qed.

Lemma materialization_parse_total stream :
  ∃ r, MaterializationExtension.parse Stmt
         parse_expression parse_statements get_materialization_macro_name
         invalid_materialization_argument stream = Some r.
Proof.
  unfold MaterializationExtension.parse.
  cbn -[MaterializationExtension.parse_modifiers length parse_assign_target].
  destruct (parse_assign_target (tail stream)) as [e|[name s2]];
    [by eexists|].
  destruct (parse_modifiers_total (S (length s2)) name (VStr "default") s2)
    as [[e|[adapter s3]] ->]; [lia|by eexists|].
  destruct (parse_statements _ _ s3) as [e|[body s4]]; by eexists.
Qed.

End MaterializationTermination.

(** X9.  Parsing a materialization tag always ends, with a macro or with
    an exception, on every token stream, as long as the expression parser
    does not lengthen the stream: the loop over the modifiers consumes a
    token in every turn. *)
Theorem materialization_parse_terminates
    Stmt parse_expression parse_statements get_materialization_macro_name
    invalid_materialization_argument stream :
  (∀ stream e rest,
     parse_expression stream = inr (e, rest) → length rest ≤ length stream) →
  ∃ r, MaterializationExtension.parse Stmt
         parse_expression parse_statements get_materialization_macro_name
         invalid_materialization_argument stream = Some r.
Proof. intros Hexpr. by apply materialization_parse_total. Qed.

Lemma literal_expression_consumes stream e rest :
  literal_expression stream = inr (e, rest) → length rest ≤ length stream.
Proof.
  destruct stream as [|t stream]; simpl; [done|].
  destruct (is_literal t); [|done]. intros [= _ <-]. lia.
Qed.

Lemma materialization_parse_terminates_witness :
  ∃ r, MaterializationExtension.parse Token
         literal_expression statements_until
         (λ name adapter, name) (λ name argument, OtherException name argument)
         [tok_name 1 "materialization"; tok_name 1 "table"; tok_comma 1;
          tok_name 1 "adapter"; tok_assign 1; tok_name 1 "target"]
       = Some r.
Proof.
  apply (materialization_parse_terminates Token literal_expression
           statements_until (λ name adapter, name)
           (λ name argument, OtherException name argument)).
  exact literal_expression_consumes.
Defined.

(** X10.  The modifier [adapter] must be followed by [=], else the tag is
    a syntax error; and when the expression after [=] is not a constant,
    reading its value raises [AttributeError], which nothing in the
    extension catches. *)
Theorem materialization_adapter_failures
    Stmt parse_expression parse_statements get_materialization_macro_name
    invalid_materialization_argument tag ln name rest :
  can_assign name = true →
  (TokenStream.test (TokenStream.current rest) "assign" = false →
   ∃ msg,
     MaterializationExtension.parse Stmt
       parse_expression parse_statements get_materialization_macro_name
       invalid_materialization_argument
       (tag :: tok_name ln name :: tok_comma ln :: tok_name ln "adapter" :: rest)
     = Some (inl (TemplateSyntaxError msg))) ∧
  (∀ cls after,
     parse_expression rest = inr (NonConst cls, after) →
     MaterializationExtension.parse Stmt
       parse_expression parse_statements get_materialization_macro_name
       invalid_materialization_argument
       (tag :: tok_name ln name :: tok_comma ln :: tok_name ln "adapter"
        :: tok_assign ln :: rest)
     = Some (inl (AttributeError
                    ("'" +:+ cls +:+ "' object has no attribute 'value'")))).
Proof.
  intros Hname. split.
  - intros Hassign.
    unfold MaterializationExtension.parse, parse_assign_target.
    cbn -[MaterializationExtension.parse_modifiers length TokenStream.expect].
    cbn [TokenStream.expect TokenStream.test TokenStream.current type
         String.eqb Ascii.eqb Bool.eqb TokenStream.next tok_name tvalue fst snd
         tail].
    rewrite Hname.
    cbn [MaterializationExtension.parse_modifiers TokenStream.skip_if
         TokenStream.test TokenStream.current type tok_comma String.eqb
         Ascii.eqb Bool.eqb tail parse_assign_target TokenStream.expect
         TokenStream.next tok_name tvalue can_assign].
    change (can_assign "adapter") with true.
    cbn -[MaterializationExtension.parse_modifiers length TokenStream.expect].
    unfold TokenStream.expect. rewrite Hassign. by eexists.
  - intros cls after Hexpr.
    unfold MaterializationExtension.parse, parse_assign_target.
    cbn -[MaterializationExtension.parse_modifiers length]. rewrite Hname.
    cbn [MaterializationExtension.parse_modifiers TokenStream.skip_if
         TokenStream.test TokenStream.current type tok_comma String.eqb
         Ascii.eqb Bool.eqb tail parse_assign_target TokenStream.expect
         TokenStream.next tok_name tok_assign tvalue can_assign].
    change (can_assign "adapter") with true.
    cbn -[MaterializationExtension.parse_modifiers length].
    by rewrite Hexpr.
Qed.

Lemma materialization_adapter_failures_witness :
  ∃ msg,
    MaterializationExtension.parse Token
      literal_expression statements_until
      (λ name adapter, name) (λ name argument, OtherException name argument)
      [tok_name 1 "materialization"; tok_name 1 "table"; tok_comma 1;
       tok_name 1 "adapter"; mkToken 1 "block_end" (VStr "%}")]
    = Some (inl (TemplateSyntaxError msg)).
Proof.
  exact (proj1 (materialization_adapter_failures Token literal_expression
                  statements_until (λ name adapter, name)
                  (λ name argument, OtherException name argument)
                  (tok_name 1 "materialization") 1 "table"
                  [mkToken 1 "block_end" (VStr "%}")] eq_refl) eq_refl).
Defined.

(* ===================================================================== *)
(** ** Further properties of the deferred-reference sentinel *)
(* ===================================================================== *)

(** The last two characters of a string, or the whole string when it is
    shorter. *)
Definition last_two (name : string) : string :=
  String.substring (String.length name - 2) 2 name.

Lemma last_two_step c rest :
  2 ≤ String.length rest → last_two (String c rest) = last_two rest.
Proof.
  intros Hlen. unfold last_two. simpl String.length.
  replace (S (String.length rest) - 2) with (S (String.length rest - 2))
    by lia.
  reflexivity.
Qed.

Lemma string_length_append (a b : string) :
  String.length (a +:+ b) = String.length a + String.length b.
Proof.
  induction a as [|x a IH]; [done|].
  change (S (String.length (a +:+ b)) = S (String.length a + String.length b)).
  by rewrite IH.
Qed.

Lemma last_two_suffix name :
  last_two name = "__" ↔ ∃ u, name = u +:+ "__".
Proof.
  split.
  - induction name as [|c rest IH]; [done|].
    destruct (decide (2 ≤ String.length rest)) as [Hlen|Hlen].
    + rewrite last_two_step by done. intros [u ->]%IH.
      by exists (String c u).
    + destruct rest as [|d [|e rest]]; [done| |simpl in Hlen; lia].
      unfold last_two. simpl. intros [= -> ->]. exists "". reflexivity.
  - intros [u ->]. induction u as [|c u IH]; [done|].
    change (String c u +:+ "__") with (String c (u +:+ "__")).
    rewrite last_two_step; [done|].
    rewrite string_length_append. simpl. lia.
Qed.

Lemma prefix_dunder name :
  String.prefix "__" name = true ↔ ∃ t, name = "__" +:+ t.
Proof.
  rewrite String.prefix_correct. split.
  - destruct name as [|a [|b t]]; [done..|].
    change (String a (String b (String.substring 0 0 t)) = "__" →
            ∃ t0, String a (String b t) = "__" +:+ t0).
    intros [= -> -> _]. by exists t.
  - intros [t ->].
    change (String "_" (String "_" (String.substring 0 0 t)) = "__").
    by destruct t.
Qed.

(** X11.  [_is_dunder_name] holds exactly of the names that start with
    two underscores and end with two underscores; the two pairs may
    overlap, so the names of two and of three underscores are among
    them. *)
Theorem is_dunder_name_spec name :
  (_is_dunder_name name = true ↔
   (∃ t, name = "__" +:+ t) ∧ (∃ u, name = u +:+ "__")) ∧
  _is_dunder_name "__" = true ∧ _is_dunder_name "___" = true ∧
  _is_dunder_name "_" = false ∧ _is_dunder_name "" = false.
Proof.
  split; [|done]. unfold _is_dunder_name.
  rewrite andb_true_iff, prefix_dunder, String.eqb_eq.
  fold (last_two name). by rewrite last_two_suffix.
Qed.

(** X12.  Whatever is accessed on a sentinel, in any order, the chain
    goes one of three ways.  It ends in a sentinel of the same node and
    hint whose two safety flags are off, on which [__reduce__] raises the
    compiler error for that node; that is so exactly when every access is
    an index access, a call or the access to a missing name that is not
    between double underscores.  Or it stops at the first other access:
    with an [AttributeError] when that is a missing name between double
    underscores, and else with what ordinary lookup finds under that
    name, with which the chain leaves the sentinel.  The chain itself
    never raises a compiler error. *)
Theorem sentinel_chain_outcomes inherited node hint name path :
  match access_chain inherited (create_undefined node hint name) path with
  | Reached u =>
      forallb (deferred inherited) path = true ∧
      Undefined.node u = node ∧ Undefined.hint u = hint ∧
      Undefined.unsafe_callable u = false ∧
      Undefined.alters_data u = false ∧
      Undefined.__reduce__ u
      = CompilationException
          (Undefined.format_name (Undefined.name u) +:+ " is undefined")
          node []
  | Raised e => ∃ before attr rest,
      path = before ++ Attribute attr :: rest ∧
      forallb (deferred inherited) before = true ∧
      missing inherited attr = true ∧ _is_dunder_name attr = true ∧
      e = AttributeError
            ("'Undefined' object has no attribute '" +:+ attr +:+ "'")
  | Left a rest => ∃ before attr,
      path = before ++ Attribute attr :: rest ∧
      forallb (deferred inherited) before = true ∧
      missing inherited attr = false ∧
      Undefined.getattr inherited
        (create_undefined node hint (name_after name before)) attr
      = (inr (Undefined.Found a),
         create_undefined node hint (name_after name before))
  end.
Proof.
  revert name. induction path as [|a rest IH]; intros name; [done|].
  assert (∀ name' : option string,
            deferred inherited a = true →
            name_after name [a] = name' →
            access_chain inherited (create_undefined node hint name) (a :: rest)
            = access_chain inherited (create_undefined node hint name') rest →
            match access_chain inherited (create_undefined node hint name)
                               (a :: rest) with
            | Reached u =>
                forallb (deferred inherited) (a :: rest) = true ∧
                Undefined.node u = node ∧ Undefined.hint u = hint ∧
                Undefined.unsafe_callable u = false ∧
                Undefined.alters_data u = false ∧
                Undefined.__reduce__ u
                = CompilationException
                    (Undefined.format_name (Undefined.name u)
                     +:+ " is undefined") node []
            | Raised e => ∃ before attr rest',
                a :: rest = before ++ Attribute attr :: rest' ∧
                forallb (deferred inherited) before = true ∧
                missing inherited attr = true ∧
                _is_dunder_name attr = true ∧
                e = AttributeError
                      ("'Undefined' object has no attribute '"
                       +:+ attr +:+ "'")
            | Left found rest' => ∃ before attr,
                a :: rest = before ++ Attribute attr :: rest' ∧
                forallb (deferred inherited) before = true ∧
                missing inherited attr = false ∧
                Undefined.getattr inherited
                  (create_undefined node hint (name_after name before)) attr
                = (inr (Undefined.Found found),
                   create_undefined node hint (name_after name before))
            end) as Hstep.
  { intros name' Ha Hname ->. specialize (IH name').
    destruct (access_chain inherited _ rest) as [e|u|found rest'].
    - destruct IH as (before & attr & rest' & -> & Hbefore & ? & ? & ?).
      exists (a :: before), attr, rest'. simpl. rewrite Ha, Hbefore. done.
    - simpl. rewrite Ha. done.
    - destruct IH as (before & attr & -> & Hbefore & ? & Hget).
      exists (a :: before), attr. simpl. rewrite Ha, Hbefore.
      repeat split; try done.
      assert (name_after name (a :: before) = name_after name' before)
        as Hafter by (by rewrite <- Hname; destruct a).
      simpl in Hafter. by rewrite Hafter. }
  destruct a as [key|attr|args].
  - by apply (Hstep name).
  - destruct (missing inherited attr) eqn:Hmiss.
    + destruct (_is_dunder_name attr) eqn:Hdunder.
      * simpl. rewrite getattr_refused by done. simpl.
        by exists [], attr, rest.
      * apply (Hstep (Some attr)).
        -- simpl. by rewrite Hmiss, Hdunder.
        -- done.
        -- simpl. by rewrite getattr_deferred.
    + simpl. unfold Undefined.getattr.
      destruct (Undefined.instance_attribute _ attr) as [found|] eqn:Hfield.
      * simpl. exists [], attr. simpl. unfold Undefined.getattr.
        by rewrite Hfield.
      * destruct (Undefined.class_attribute inherited attr) eqn:Hclass.
        -- simpl. exists [], attr. simpl. unfold Undefined.getattr.
           by rewrite Hfield, Hclass.
        -- exfalso. apply instance_attribute_fields in Hfield.
           by rewrite (proj2 (missing_spec inherited attr)) in Hmiss.
  - by apply (Hstep name).
Qed.

(* ===================================================================== *)
(** ** Further properties of compilation and rendering *)
(* ===================================================================== *)

(** [exc.add_node(node)] re-raises the compilation exception it is
    called on. *)
Definition keeps_class (add_node : exn → option ParsedNode → exn) : Prop :=
  ∀ msg n st node, ∃ msg' n' st',
    add_node (CompilationException msg n st) node
    = CompilationException msg' n' st'.

Lemma standin_add_node_keeps_class : keeps_class Standin.add_node.
Proof.
  intros msg n st node. unfold Standin.add_node.
  destruct n as [old|], node as [nd|]; try by eauto.
  destruct (String.eqb _ _); eauto.
Qed.

(** X13.  Under [catch_jinja] a template syntax error becomes a compiler
    error attributed to the node whose text is [str(e)] taken with the
    [translated] flag off, the message with its location; an undefined
    error becomes a compiler error with its message, attributed to the
    node; no exception of these two classes leaves the block; a result
    and the state pass unchanged. *)
Theorem catch_jinja_translates add_node untranslated (St A : Type) node
    (body : ST St A) s :
  keeps_class add_node →
  (catch_jinja add_node untranslated node body s).2 = (body s).2 ∧
  (∀ a, (body s).1 = inr a ↔
        (catch_jinja add_node untranslated node body s).1 = inr a) ∧
  (∀ msg, (body s).1 = inl (TemplateSyntaxError msg) →
     (catch_jinja add_node untranslated node body s).1
     = inl (CompilationException (untranslated (TemplateSyntaxError msg))
                                 node [])) ∧
  (∀ msg, (body s).1 = inl (UndefinedError msg) →
     (catch_jinja add_node untranslated node body s).1
     = inl (CompilationException msg node [])) ∧
  (∀ e, (catch_jinja add_node untranslated node body s).1 = inl e →
     (∀ msg, e ≠ TemplateSyntaxError msg) ∧ (∀ msg, e ≠ UndefinedError msg)).
Proof.
  intros Hadd. unfold catch_jinja.
  destruct (body s) as [[e|a] s1]; simpl.
  - split; [by destruct e|]. split; [|split; [|split]].
    + intros a. split; [done|]. by destruct e.
    + by intros msg [= ->].
    + by intros msg [= ->].
    + intros e' He'.
      destruct e as [?|?|?|?|msg0 n0 st0|?|?|?|?|? ?]; simpl in He';
        injection He' as <-; try done.
      destruct (Hadd msg0 n0 st0 node) as (? & ? & ? & ->). done.
  - repeat split; done.
Qed.

Lemma catch_jinja_translates_witness :
  (catch_jinja Standin.add_node Standin.untranslated (Some model_node)
               (raise (A := value) (TemplateSyntaxError "unexpected '}'"))
               0).1
  = inl (CompilationException
           (Standin.untranslated (TemplateSyntaxError "unexpected '}'"))
           (Some model_node) []).
Proof.
  exact (proj1 (proj2 (proj2
           (catch_jinja_translates Standin.add_node Standin.untranslated
              nat value (Some model_node)
              (raise (TemplateSyntaxError "unexpected '}'")) 0
              standin_add_node_keeps_class)))
           "unexpected '}'" eq_refl).
Defined.

Lemma context_over_itself (ctx : gmap string value) : ctx ∪ ctx = ctx.
Proof. apply (idemp (∪)). Qed.

(** X14.  [get_rendered] compiles the source and renders it in exactly
    the context it is given (the context is the globals of the template
    and the variables of the call): a syntax error of the source comes
    out as a compiler error attributed to the node, whose text is that
    of the error with its location, and no template is created; the
    nodes the template yields are joined natively or as text according
    to [native]; an undefined error raised while rendering comes out as
    a compiler error with its message, attributed to the node, provided
    [handle_exception] re-raises it. *)
Theorem get_rendered_outcomes
    from_string handle_exception concat literal_eval text_type add_node
    untranslated source ctx node capture_macros native made :
  (∀ msg,
     from_string (get_environment node capture_macros native) source
     = inl (TemplateSyntaxError msg) →
     get_rendered from_string handle_exception concat literal_eval text_type
                  add_node untranslated source ctx node capture_macros
                  native made
     = (inl (CompilationException (untranslated (TemplateSyntaxError msg))
                                  node []), made)) ∧
  (∀ code nodes,
     from_string (get_environment node capture_macros native) source
     = inr code →
     code ctx = inr nodes →
     get_rendered from_string handle_exception concat literal_eval text_type
                  add_node untranslated source ctx node capture_macros
                  native made
     = (inr (if native then native_concat literal_eval text_type nodes true
             else concat nodes), S made)) ∧
  (∀ code msg,
     from_string (get_environment node capture_macros native) source
     = inr code →
     code ctx = inl (UndefinedError msg) →
     handle_exception (UndefinedError msg) = inl (UndefinedError msg) →
     get_rendered from_string handle_exception concat literal_eval text_type
                  add_node untranslated source ctx node capture_macros
                  native made
     = (inl (CompilationException msg node []), S made)).
Proof.
  unfold get_rendered, bind, get_template, render_template, catch_jinja.
  split; [|split].
  - intros msg ->. done.
  - intros code nodes -> Hnodes. simpl.
    unfold render, NativeSandboxTemplate_render, Template_render, new_context.
    simpl. rewrite context_over_itself, Hnodes. by destruct native.
  - intros code msg -> Hraise Hhandle. simpl.
    unfold render, NativeSandboxTemplate_render, Template_render, new_context.
    simpl. rewrite context_over_itself, Hraise. simpl.
    rewrite Hhandle. by destruct native.
Qed.

Lemma get_rendered_outcomes_witness :
  Standin.get_rendered "{% if x %}" ∅ (Some model_node) false true 0
  = (inl (CompilationException
            (Standin.untranslated
               (TemplateSyntaxError "template logic is not supported"))
            (Some model_node) []),
     0).
Proof.
  exact (proj1
           (get_rendered_outcomes
              Standin.from_string Standin.handle_exception (λ _, VNone)
              Literal.literal_eval Standin.text_type Standin.add_node
              Standin.untranslated
              "{% if x %}" ∅ (Some model_node) false true 0)
           "template logic is not supported" eq_refl).
Defined.

(* ===================================================================== *)
(** ** Further properties of add_rendered_test_kwargs *)
(* ===================================================================== *)

(** The number of string leaves of a value. *)
Definition count_strings (v : value) : nat :=
  length (filter (λ x, is_VStr x = true) (leaves v)).

Lemma count_strings_list x rest :
  count_strings (VList (x :: rest))
  = count_strings x + count_strings (VList rest).
Proof.
  unfold count_strings. simpl. by rewrite filter_app, length_app.
Qed.

Lemma count_strings_dict k x rest :
  count_strings (VDict ((k, x) :: rest))
  = count_strings x + count_strings (VDict rest).
Proof.
  unfold count_strings. simpl. by rewrite filter_app, length_app.
Qed.

Section TestKwargsEffects.

Variable from_string :
  Environment → string → exn + (gmap string value → exn + list value).
Variable handle_exception : exn → exn + value.
Variable concat : list value → value.
Variable literal_eval : string → option value.
Variable text_type : value → string.
Variable add_node : exn → option ParsedNode → exn.
Variable untranslated : exn → string.
Variable context : gmap string value.
Variable node : SchemaTestNode.
Variable capture_macros : bool.

Local Abbreviation convert :=
  (_convert_function from_string handle_exception concat literal_eval
                     text_type add_node untranslated
                     context node capture_macros).

(** [get_rendered] creates one template when it succeeds and at most one
    when it fails. *)
Lemma get_rendered_creates source ctx n cm native made :
  match get_rendered from_string handle_exception concat literal_eval
          text_type add_node untranslated source ctx n cm native made with
  | (inr _, made') => made' = S made
  | (inl _, made') => made ≤ made' ≤ S made
  end.
Proof.
  unfold get_rendered, bind, get_template, render_template, catch_jinja.
  destruct (from_string _ source) as [e|code]; simpl.
  - destruct e; lia.
  - destruct (render _ _ _ _ _ _) as [e|v]; [|done]. destruct e; lia.
Qed.

(** What the traversal of a value does to the count of templates, and
    that it leaves a value without strings as it is. *)
Definition counted (v : value) : Prop :=
  ∀ path made,
    match deep_map convert v path made with
    | (inr v', made') =>
        made' = made + count_strings v ∧ (count_strings v = 0 → v' = v)
    | (inl _, made') =>
        made ≤ made' ≤ made + count_strings v ∧ 0 < count_strings v
    end.

Lemma counted_leaf v : is_leaf v = true → counted v.
Proof.
  intros Hleaf path made. destruct v; try done; simpl;
    try (unfold count_strings; simpl; split; [lia|done]).
  pose proof (get_rendered_creates
                (if looks_like_func s then "{{ " +:+ s +:+ " }}" else s)
                context (Some (test_node node)) capture_macros true made)
    as Hmade.
  destruct (get_rendered _ _ _ _ _ _ _ _ _ _ _ _) as [[e|v'] made'];
    unfold count_strings; simpl; split; try lia; done.
Qed.

Lemma counted_items items :
  Forall counted items →
  ∀ path i made,
    match deep_map_items convert path i items made with
    | (inr items', made') =>
        made' = made + count_strings (VList items) ∧
        (count_strings (VList items) = 0 → items' = items)
    | (inl _, made') =>
        made ≤ made' ≤ made + count_strings (VList items) ∧
        0 < count_strings (VList items)
    end.
Proof.
  induction 1 as [|x rest Hx _ IH]; intros path i made.
  - simpl. unfold count_strings. simpl. split; [lia|done].
  - rewrite count_strings_list.
    change (deep_map_items convert path i (x :: rest))
      with (let! x' := deep_map convert x (path ++ [inl i]) in
            let! rest' := deep_map_items convert path (S i) rest in
            ret (x' :: rest')).
    unfold bind at 1. specialize (Hx (path ++ [inl i]) made).
    destruct (deep_map convert x _ made) as [[e|x'] made1]; [lia|].
    unfold bind at 1. specialize (IH path (S i) made1).
    destruct (deep_map_items convert path (S i) rest made1)
      as [[e|rest'] made2]; [lia|].
    simpl. destruct Hx as [-> Hx], IH as [-> IH]. split; [lia|].
    intros Hzero. rewrite Hx, IH by lia. done.
Qed.

Lemma counted_entries entries :
  Forall (λ kv, counted kv.2) entries →
  ∀ path made,
    match deep_map_entries convert path entries made with
    | (inr entries', made') =>
        made' = made + count_strings (VDict entries) ∧
        (count_strings (VDict entries) = 0 → entries' = entries)
    | (inl _, made') =>
        made ≤ made' ≤ made + count_strings (VDict entries) ∧
        0 < count_strings (VDict entries)
    end.
Proof.
  induction 1 as [|[k x] rest Hx _ IH]; intros path made.
  - simpl. unfold count_strings. simpl. split; [lia|done].
  - rewrite count_strings_dict.
    change (deep_map_entries convert path ((k, x) :: rest))
      with (let! x' := deep_map convert x (path ++ [inr k]) in
            let! rest' := deep_map_entries convert path rest in
            ret ((k, x') :: rest')).
    unfold bind at 1. specialize (Hx (path ++ [inr k]) made). simpl in Hx.
    destruct (deep_map convert x _ made) as [[e|x'] made1]; [lia|].
    unfold bind at 1. specialize (IH path made1).
    destruct (deep_map_entries convert path rest made1)
      as [[e|rest'] made2]; [lia|].
    simpl. destruct Hx as [-> Hx], IH as [-> IH]. split; [lia|].
    intros Hzero. rewrite Hx, IH by lia. done.
Qed.

Lemma deep_map_counted v : counted v.
Proof.
  induction v as [| | | |items IH|entries IH] using value_induction;
    try (by apply counted_leaf).
  - intros path made. rewrite deep_map_list. unfold bind.
    pose proof (counted_items items IH path 0 made) as Hitems.
    destruct (deep_map_items convert path 0 items made) as [[e|items'] made'];
      [done|]. simpl. destruct Hitems as [-> Hitems]. split; [done|].
    intros Hzero. by rewrite Hitems.
  - intros path made. rewrite deep_map_dict. unfold bind.
    pose proof (counted_entries entries IH path made) as Hentries.
    destruct (deep_map_entries convert path entries made)
      as [[e|entries'] made']; [done|]. simpl.
    destruct Hentries as [-> Hentries]. split; [done|].
    intros Hzero. by rewrite Hentries.
Qed.

End TestKwargsEffects.

(** X15.  When [add_rendered_test_kwargs] returns, the context holds the
    rendered keyword arguments under the reserved key, whatever was there
    before, and every other entry of the context is as it was. *)
Theorem test_kwargs_context_frame
    from_string handle_exception concat literal_eval text_type add_node
    untranslated
    context node capture_macros made context' made' :
  add_rendered_test_kwargs from_string handle_exception concat literal_eval
    text_type add_node untranslated context node capture_macros made
  = (inr context', made') →
  (∃ kwargs,
     deep_map (_convert_function from_string handle_exception concat
                 literal_eval text_type add_node untranslated
                 context node capture_macros)
              (test_kwargs node) [] made = (inr kwargs, made') ∧
     context' !! SCHEMA_TEST_KWARGS_NAME = Some kwargs) ∧
  (∀ k, k ≠ SCHEMA_TEST_KWARGS_NAME → context' !! k = context !! k).
Proof.
  unfold add_rendered_test_kwargs, bind.
  destruct (deep_map _ (test_kwargs node) [] made) as [[e|kwargs] made1];
    [done|].
  intros [= <- <-]. split.
  - exists kwargs. split; [done|]. apply lookup_insert_eq.
  - intros k Hk. by apply lookup_insert_ne.
Qed.

Lemma test_kwargs_context_frame_witness :
  (<[SCHEMA_TEST_KWARGS_NAME :=
       VDict [("a", VStr "analytics.x"); ("b", VInt 5);
              ("c", VList [VStr "id"; VBool true])]]> example_context)
  !! "ref('x')" = example_context !! "ref('x')".
Proof.
  refine (proj2 (test_kwargs_context_frame
            Standin.from_string Standin.handle_exception (λ _, VNone)
            Literal.literal_eval Standin.text_type Standin.add_node
            Standin.untranslated
            example_context example_test false 0 _ 2 eq_refl)
            "ref('x')" _).
  discriminate.
Defined.

(** X16.  [add_rendered_test_kwargs] compiles one template for every
    string among the keyword arguments, none of them twice and nothing
    else: on return the count of templates has grown by the number of
    string leaves.  It can only fail when there is a string to render,
    after at most that many compilations; keyword arguments without any
    string are stored as they are. *)
Theorem test_kwargs_compile_once_per_string
    from_string handle_exception concat literal_eval text_type add_node
    untranslated
    context node capture_macros made :
  match add_rendered_test_kwargs from_string handle_exception concat
          literal_eval text_type add_node untranslated
          context node capture_macros made
  with
  | (inr context', made') =>
      made' = made + count_strings (test_kwargs node) ∧
      (count_strings (test_kwargs node) = 0 →
       context' = <[SCHEMA_TEST_KWARGS_NAME := test_kwargs node]> context)
  | (inl _, made') =>
      made ≤ made' ≤ made + count_strings (test_kwargs node) ∧
      0 < count_strings (test_kwargs node)
  end.
Proof.
  unfold add_rendered_test_kwargs, bind.
  pose proof (deep_map_counted from_string handle_exception concat
                literal_eval text_type add_node untranslated
                context node capture_macros
                (test_kwargs node) [] made) as Hcount.
  destruct (deep_map _ (test_kwargs node) [] made) as [[e|kwargs] made'];
    [done|].
  simpl. destruct Hcount as [-> Hsame]. split; [done|].
  intros Hzero. by rewrite Hsame.
Qed.

(* ===================================================================== *)
(** ** The pattern of add_rendered_test_kwargs *)
(* ===================================================================== *)

Lemma span_split p cs :
  cs = (span p cs).1 ++ (span p cs).2 ∧
  forallb p (span p cs).1 = true ∧
  match (span p cs).2 with c :: _ => p c = false | [] => True end.
Proof.
  induction cs as [|c cs IH]; [done|]. simpl.
  destruct (p c) eqn:Hc; [|done].
  destruct (span p cs) as [taken others]. simpl in *.
  destruct IH as (-> & -> & ?). by rewrite Hc.
Qed.

Lemma drop_prefix_Some prefix cs rest :
  drop_prefix prefix cs = Some rest ↔ cs = prefix ++ rest.
Proof.
  revert cs. induction prefix as [|p prefix IH]; intros cs; simpl.
  - split; [by intros [= ->]|by intros ->].
  - destruct cs as [|c cs]; [done|].
    destruct (Ascii.eqb p c) eqn:Hpc.
    + apply Ascii.eqb_eq in Hpc as ->. rewrite IH. split; [by intros ->|].
      by intros [= ->].
    + apply Ascii.eqb_neq in Hpc. split; [done|]. intros [= -> _]. done.
Qed.

Lemma no_newline_forallb cs :
  forallb (λ c, negb (Ascii.eqb c newline)) cs = true ↔ ¬ In newline cs.
Proof.
  rewrite forallb_forall. split.
  - intros Hall Hin. specialize (Hall _ Hin). by rewrite Ascii.eqb_refl in Hall.
  - intros Hnot c Hin. apply negb_true_iff, Ascii.eqb_neq. by intros ->.
Qed.

(** The names that the pattern accepts. *)
Definition func_names : list string :=
  ["env_var"; "ref"; "var"; "source"; "doc"].

(** The language of the pattern
    [^\s*(env_var|ref|var|source|doc)\s*\(.+\)\s*$]. *)
Definition matches_pattern (cs : list ascii) : Prop :=
  ∃ leading keyword between inner trailing,
    cs = leading ++ String.list_ascii_of_string keyword ++ between
         ++ "("%char :: inner ++ ")"%char :: trailing ∧
    forallb is_space leading = true ∧
    In keyword func_names ∧
    forallb is_space between = true ∧
    inner ≠ [] ∧ ¬ In newline inner ∧
    forallb is_space trailing = true.

Lemma func_name_not_space keyword rest :
  In keyword func_names →
  match String.list_ascii_of_string keyword ++ rest with
  | c :: _ => is_space c = false
  | [] => True
  end.
Proof.
  intros Hin. simpl in Hin.
  destruct Hin as [<-|[<-|[<-|[<-|[<-|[]]]]]]; by vm_compute.
Qed.

(** X17.  The test that decides whether a keyword argument is wrapped in
    braces accepts exactly the language of the pattern: whitespace, one of
    the five names, whitespace, an opening parenthesis, one or more
    characters none of which is a newline, a closing parenthesis, and
    whitespace to the end. *)
Theorem looks_like_func_spec (s : string) :
  looks_like_func s = true ↔ matches_pattern (String.list_ascii_of_string s).
Proof.
  unfold looks_like_func.
  change ["env_var"; "ref"; "var"; "source"; "doc"] with func_names.
  rewrite existsb_exists. split.
  - intros (keyword & Hin & Hbody).
    destruct (span_split is_space (String.list_ascii_of_string s))
      as (Hs & Hleading & _).
    destruct (drop_prefix _ _) as [after_name|] eqn:Hdrop; [|done].
    apply drop_prefix_Some in Hdrop.
    destruct (span_split is_space after_name) as (Hafter & Hbetween & _).
    destruct (span is_space after_name).2 as [|c arguments] eqn:Hopen;
      [done|].
    destruct (Ascii.eqb c "("%char) eqn:Hc;
      [apply Ascii.eqb_eq in Hc as ->
      |apply Ascii.eqb_neq in Hc;
       by destruct c as [[] [] [] [] [] [] [] []]].
    destruct (span_split is_space (rev arguments)) as (Hrev & Htrailing & _).
    destruct (span is_space (rev arguments)).2 as [|d inner] eqn:Hclose;
      [done|].
    destruct (Ascii.eqb d ")"%char) eqn:Hd;
      [apply Ascii.eqb_eq in Hd as ->
      |apply Ascii.eqb_neq in Hd;
       by destruct d as [[] [] [] [] [] [] [] []]].
    apply andb_true_iff in Hbody as [Hne Hnl].
    apply negb_true_iff, bool_decide_eq_false in Hne.
    apply no_newline_forallb in Hnl.
    set (spaces := (span is_space (rev arguments)).1) in *.
    clearbody spaces.
    apply (f_equal (@rev ascii)) in Hrev.
    rewrite rev_involutive, rev_app_distr in Hrev. simpl in Hrev.
    rewrite <- app_assoc in Hrev. simpl in Hrev.
    exists (span is_space (String.list_ascii_of_string s)).1, keyword,
      (span is_space after_name).1, (rev inner), (rev spaces).
    repeat split.
    + rewrite Hs at 1. f_equal. rewrite Hdrop. f_equal.
      rewrite Hafter at 1. f_equal. f_equal. exact Hrev.
    + done.
    + done.
    + done.
    + intros Hnil. apply Hne. by rewrite <- (rev_involutive inner), Hnil.
    + intros Hin'. apply Hnl. by apply in_rev.
    + rewrite forallb_forall in *. intros c Hc. apply Htrailing.
      by apply in_rev.
  - intros (leading & keyword & between & inner & trailing
            & -> & Hleading & Hin & Hbetween & Hne & Hnl & Htrailing).
    exists keyword. split; [done|].
    rewrite (span_app is_space leading) by
      (done || by apply func_name_not_space).
    simpl. rewrite (proj2 (drop_prefix_Some _ _ _) eq_refl).
    rewrite (span_app is_space between) by done. simpl.
    assert (rev (inner ++ ")"%char :: trailing)
            = rev trailing ++ ")"%char :: rev inner) as ->.
    { rewrite rev_app_distr. simpl. by rewrite <- app_assoc. }
    rewrite (span_app is_space (rev trailing)); simpl.
    + apply andb_true_iff. split.
      * apply negb_true_iff, bool_decide_eq_false. intros Hnil. apply Hne.
        by rewrite <- (rev_involutive inner), Hnil.
      * apply no_newline_forallb. intros Hin'. apply Hnl. by apply in_rev.
    + rewrite forallb_forall in *. intros c Hc. apply Htrailing.
      by apply in_rev.
    + done.
Qed.

(* ===================================================================== *)
(** ** The template cache over a run of calls *)
(* ===================================================================== *)

(** A call of one of the two methods of the cache. *)
Inductive cache_call : Type :=
| Lookup (node : ParsedNode)
| Clear.

Section CacheRuns.

Variable from_string :
  Environment → string → exn + (gmap string value → exn + list value).
Variable add_node : exn → option ParsedNode → exn.
Variable untranslated : exn → string.

(** The cache after a call, whether it returned or raised. *)
Definition cache_after (c : CacheState) (op : cache_call) : CacheState :=
  match op with
  | Lookup node => (get_node_template from_string add_node untranslated
  node c).2
  | Clear => (clear c).2
  end.

Definition cache_run (ops : list cache_call) (c : CacheState) : CacheState :=
  foldl cache_after c ops.

(** Every cached template is an object made before now from the raw
    source of a node of its key, and no object is cached under two keys. *)
Definition cache_ok (c : CacheState) : Prop :=
  (∀ k t, file_cache c !! k = Some t →
     template_id t < templates_made c ∧
     ∃ node, cache_key node = k ∧
       from_string (get_environment (Some node) false false) (raw_sql node)
       = inr (root_render_func t)) ∧
  (∀ k1 k2 t1 t2,
     file_cache c !! k1 = Some t1 → file_cache c !! k2 = Some t2 →
     template_id t1 = template_id t2 → k1 = k2).

Lemma cache_after_lookup c node :
  file_cache c !! cache_key node = None →
  cache_after c (Lookup node) =
  match from_string (get_environment (Some node) false false) (raw_sql node)
  with
  | inl _ => c
  | inr code =>
      mkCache (<[cache_key node :=
                   mkTemplate (templates_made c)
                     (get_environment (Some node) false false) ∅ code]>
                 (file_cache c))
              (S (templates_made c))
  end.
Proof.
  intros Hmiss. unfold cache_after, get_node_template. rewrite Hmiss.
  unfold bind, with_engine, get_template, catch_jinja.
  destruct (from_string _ _) as [e|code]; simpl; [|done].
  destruct c. by destruct e.
Qed.

Lemma cache_after_hit c node t :
  file_cache c !! cache_key node = Some t → cache_after c (Lookup node) = c.
Proof.
  intros Hhit. unfold cache_after, get_node_template. by rewrite Hhit.
Qed.

Lemma cache_ok_after c op : cache_ok c → cache_ok (cache_after c op).
Proof.
  intros [Hmade Hdistinct]. destruct op as [node|].
  - destruct (file_cache c !! cache_key node) as [t|] eqn:Hc.
    { by rewrite (cache_after_hit c node t). }
    rewrite cache_after_lookup by done.
    destruct (from_string _ _) as [e|code] eqn:Hcode; [done|].
    split; simpl.
    + intros k t. destruct (decide (k = cache_key node)) as [->|Hk].
      * rewrite lookup_insert_eq. intros [= <-]. simpl. split; [lia|].
        by exists node.
      * rewrite lookup_insert_ne by done. intros Hkt.
        destruct (Hmade k t Hkt) as [? ?]. split; [lia|done].
    + intros k1 k2 t1 t2.
      destruct (decide (k1 = cache_key node)) as [->|Hk1],
               (decide (k2 = cache_key node)) as [->|Hk2];
        rewrite ?lookup_insert_eq, ?lookup_insert_ne by done.
      * done.
      * intros [= <-] Ht2 Hid. simpl in Hid.
        destruct (Hmade k2 t2 Ht2) as [? _]. lia.
      * intros Ht1 [= <-] Hid. simpl in Hid.
        destruct (Hmade k1 t1 Ht1) as [? _]. lia.
      * apply Hdistinct.
  - split; simpl; intros *; by rewrite lookup_empty.
Qed.

End CacheRuns.

(** X18.  Over any run of lookups and clears, failed lookups included,
    the cache keeps its invariant: every template it holds is an object
    made earlier by compiling the raw source of a node of that key, and no
    template object is held under two different keys. *)
Theorem template_cache_invariant from_string add_node untranslated ops c :
  cache_ok from_string c →
  cache_ok from_string (cache_run from_string add_node untranslated ops c).
Proof.
  revert c. induction ops as [|op ops IH]; intros c Hc; [done|].
  simpl. apply IH. by apply cache_ok_after.
Qed.

Lemma template_cache_invariant_witness :
  cache_ok Standin.from_string
    (cache_run Standin.from_string Standin.add_node Standin.untranslated
       [Lookup model_node; Clear; Lookup model_node; Lookup model_node]
       (mkCache ∅ 0)).
Proof.
  apply (template_cache_invariant Standin.from_string Standin.add_node
  Standin.untranslated).
  split; simpl; intros *; by rewrite lookup_empty.
Defined.

(** X19.  A lookup never evicts or replaces a cached template: whatever
    node is looked up and whether the lookup returns or raises, every
    entry that the cache held before is still there afterwards. *)
Theorem lookup_never_evicts from_string add_node untranslated node c k t :
  file_cache c !! k = Some t →
  file_cache (get_node_template from_string add_node untranslated node c).2
  !! k = Some t.
Proof.
  intros Hk.
  change (get_node_template from_string add_node untranslated node c).2
    with (cache_after from_string add_node untranslated c (Lookup node)).
  destruct (file_cache c !! cache_key node) as [t0|] eqn:Hc.
  { by rewrite (cache_after_hit _ _ _ c node t0). }
  rewrite cache_after_lookup by done.
  destruct (from_string _ _) as [e|code]; [done|]. simpl.
  rewrite lookup_insert_ne; [done|]. intros <-. congruence.
Qed.

Lemma lookup_never_evicts_witness :
  file_cache
    (get_node_template Standin.from_string Standin.add_node
       Standin.untranslated outer_macro
       (get_node_template Standin.from_string Standin.add_node
          Standin.untranslated model_node (mkCache ∅ 0)).2).2
  !! cache_key model_node
  = Some (mkTemplate 0 (get_environment (Some model_node) false false) ∅
            (λ _, inr [VStr "select 1"])).
Proof.
  apply (lookup_never_evicts Standin.from_string Standin.add_node
           Standin.untranslated).
  reflexivity.
Defined.
